(** * Alias resolution of kingpin flag groups (alias.go) and model summaries

    A shallow embedding of the alias resolver of [alias.go]
    ([getFlagAlias], [ensureAliases], [resetAliases], [addGroupAlias],
    [addShortcut], [addNegativeAlias], [FlagClause.addAlias]) and of
    [ArgGroupModel.ArgSummary], with the properties the specification
    states about them. The declaration methods of a flag ([Alias],
    [AutoShortcut], [NoAutoShortcut]), [FlagClause.Model] and
    [CmdGroupModel.FlattenedCommands] are embedded as well, with further
    properties of the build, of the lookups and of the models. The
    expansion of short-flag bundles belongs to the parse driver, which is
    not among the sources: it is modelled from the specification, and
    marked so.

    The definitions come first: the embedding of the code, the predicates
    of the statements and proofs, and the flag groups the code is run on.
    The lemmas and the theorems follow.

    Go strings are byte strings: they are modelled by [string], whose
    characters are bytes, and [len] is [String.length]. Pointers to flag
    clauses are locations of a heap of [FlagClause] records, because the
    resolver compares flags by identity and mutates them while it builds
    the table. *)

From stdpp Require Import gmap strings list fin_maps sorting.
From Stdlib Require Import ZArith Ascii.

Local Open Scope Z_scope.

(** ** The parts of the Go library the code calls *)

Module strings.

(** [strings.Contains(s, sep)] for a separator of one byte. *)
Fixpoint Contains (s : string) (sep : ascii) : bool :=
  match s with
  | EmptyString => false
  | String c s' => if decide (c = sep) then true else Contains s' sep
  end.

(** [strings.Split(s, sep)] for a separator of one byte: the pieces
    between the separators, one piece more than there are separators;
    the empty string gives one empty piece. *)
Fixpoint Split (s : string) (sep : ascii) : list string :=
  match s with
  | EmptyString => [EmptyString]
  | String c s' =>
      if decide (c = sep) then EmptyString :: Split s' sep
      else match Split s' sep with
           | w :: ws => String c w :: ws
           | [] => [String c EmptyString]
           end
  end.

(** [strings.Join(elems, sep)]. *)
Fixpoint Join (elems : list string) (sep : string) : string :=
  match elems with
  | [] => EmptyString
  | [e] => e
  | e :: rest => e +:+ sep +:+ Join rest sep
  end.

(** [strings.Repeat(s, count)] for a count that is not negative. *)
Fixpoint Repeat (s : string) (count : nat) : string :=
  match count with
  | O => EmptyString
  | S n => s +:+ Repeat s n
  end.

End strings.

(** [string(b)] for a byte [b]: Go converts the integer to the UTF-8
    encoding of the code point of that value, one byte below 128 and two
    bytes from 128 on. *)
Definition string_of_byte (b : ascii) : string :=
  let n := nat_of_ascii b in
  if decide (n < 128)%nat then String b EmptyString
  else String (ascii_of_nat (192 + n / 64))
         (String (ascii_of_nat (128 + n mod 64)) EmptyString).

Definition hyphen : ascii := "-"%char.

(** ** Data model *)

(** Addresses of flag clauses: [*FlagClause] that is not nil. *)
Definition loc := nat.

Inductive aliasKind := aliasNone | aliasName | aliasNegative | aliasShortcut.

Global Instance aliasKind_eq_dec : EqDecision aliasKind.
Proof. solve_decision. Defined.

(** [*bool] as the resolver uses it: nil, a pointer to a value of the
    flag's own ([setAutoShortcut] takes the address of its parameter), or
    the address of the group's field ([&fg.autoShortcut]). *)
Inductive boolPtr := ptrNil | ptrOwn (b : bool) | ptrGroup.

(** The value sink of a flag, as far as the resolver looks at it: whether
    it implements the [boolFlag] interface and what [IsBoolFlag] answers. *)
Inductive Value := otherValue | boolFlagValue (IsBoolFlag : bool).

(** [fb, isSwitch := flag.value.(boolFlag); isSwitch && fb.IsBoolFlag()] *)
Definition isSwitchValue (v : Value) : bool :=
  match v with
  | otherValue => false
  | boolFlagValue b => b
  end.

(** A Go [map[string]aliasKind] that is ranged over: the entries in the
    order in which the range produces them. Keys are unique in a map;
    [amap_set] keeps them so. *)
Abbreviation amap := (list (string * aliasKind)).

Fixpoint amap_get (m : amap) (k : string) : option aliasKind :=
  match m with
  | [] => None
  | (k', v) :: m' => if decide (k' = k) then Some v else amap_get m' k
  end.

Fixpoint amap_set (m : amap) (k : string) (v : aliasKind) : amap :=
  match m with
  | [] => [(k, v)]
  | (k', v') :: m' =>
      if decide (k' = k) then (k', v) :: m' else (k', v') :: amap_set m' k v
  end.

Record FlagClause := mkFlag {
  flag_name : string;
  flag_shorthand : Z;                 (* rune; 0 when there is none *)
  flag_value : Value;
  flag_autoShortcut : boolPtr;        (* aliasMixin.autoShortcut *)
  flag_aliases : option amap;         (* aliasMixin.aliases; None is nil *)
}.

Record flagAlias := mkAlias {
  alias_flag : option loc;            (* the embedded *FlagClause *)
  alias_kind : aliasKind;
}.

Global Instance flagAlias_eq_dec : EqDecision flagAlias.
Proof. solve_decision. Defined.

(** The zero value a Go map read gives for a missing key. *)
Definition zeroAlias : flagAlias := mkAlias None aliasNone.

Record flagGroup := mkGroup {
  long : gmap string loc;
  flagOrder : list loc;
  aliases : option (gmap string flagAlias);   (* None is nil *)
  autoShortcut : bool;
}.

Record state := mkState {
  heap : gmap loc FlagClause;
  fg : flagGroup;
}.

(** ** Outcomes: a return with the state it leaves, or a panic *)

Inductive panic := IndexOutOfRange | NilDereference | NilMapWrite.

Inductive outcome (A : Type) :=
  | Returns (a : A) (σ : state)
  | Panics (p : panic)
  | OutOfFuel.
Arguments Returns {A} a σ.
Arguments Panics {A} p.
Arguments OutOfFuel {A}.

Definition M (A : Type) := state → outcome A.

Definition ret {A} (a : A) : M A := fun σ => Returns a σ.

Definition bind {A B} (m : M A) (k : A → M B) : M B :=
  fun σ => match m σ with
           | Returns a σ' => k a σ'
           | Panics p => Panics p
           | OutOfFuel => OutOfFuel
           end.

(** Go's [error]: nil or a message. *)
Definition error := option string.

(** [if err := m; err != nil { return err }] followed by [k]. *)
Definition try (m : M error) (k : M error) : M error :=
  bind m (fun err => match err with
                     | Some e => ret (Some e)
                     | None => k
                     end).

Notation "'let*' x := m 'in' k" := (bind m (fun x => k))
  (at level 10, x name, m at level 100, k at level 200).
Notation "'check' m 'in' k" := (try m k)
  (at level 10, m at level 100, k at level 200).

Definition panics {A} (p : panic) : M A := fun _ => Panics p.

(** Reading through a flag pointer. *)
Definition load (p : loc) : M FlagClause :=
  fun σ => match heap σ !! p with
           | Some f => Returns f σ
           | None => Panics NilDereference
           end.

Definition load_opt (p : option loc) : M FlagClause :=
  match p with
  | Some p => load p
  | None => panics NilDereference
  end.

Definition store (p : loc) (f : FlagClause) : M unit :=
  fun σ => Returns tt (mkState (<[p := f]> (heap σ)) (fg σ)).

Definition group : M flagGroup := fun σ => Returns (fg σ) σ.

(** [fg.aliases[name]], a read: the zero value for a missing key and for
    a nil map. *)
Definition table_get (g : flagGroup) (name : string) : flagAlias :=
  match aliases g with
  | Some t => default zeroAlias (t !! name)
  | None => zeroAlias
  end.

(** [fg.aliases = t] *)
Definition set_aliases (t : option (gmap string flagAlias)) : M unit :=
  fun σ => Returns tt
    (mkState (heap σ)
       (mkGroup (long (fg σ)) (flagOrder (fg σ)) t (autoShortcut (fg σ)))).

(** [fg.aliases[name] = a]: a write to a nil map panics. *)
Definition table_set (name : string) (a : flagAlias) : M unit :=
  let* g := group in
  match aliases g with
  | Some t => set_aliases (Some (<[name := a]> t))
  | None => panics NilMapWrite
  end.

(** ** alias.go *)

Definition errAlreadyExist (alias : string) : string :=
  "Alias " +:+ alias +:+ " already exist".

Definition errAssociated (name on other : string) : string :=
  "Alias " +:+ name +:+ " on " +:+ on +:+
  " is already associated to flag " +:+ other.

Definition errUnable (name on err : string) : string :=
  "Unable to add alias " +:+ name +:+ " to " +:+ on +:+ ": " +:+ err.

(** [func (f *FlagClause) addAlias(alias string, kind aliasKind) error] *)
Definition FlagClause_addAlias (f : loc) (alias : string) (kind : aliasKind)
  : M error :=
  let* fc := load f in
  let m := default [] (flag_aliases fc) in
  let* _ := store f (mkFlag (flag_name fc) (flag_shorthand fc) (flag_value fc)
                       (flag_autoShortcut fc) (Some m)) in
  match amap_get m alias with
  | Some current =>
      if decide (current ≠ kind) then ret (Some (errAlreadyExist alias))
      else
        let* _ := store f (mkFlag (flag_name fc) (flag_shorthand fc)
                             (flag_value fc) (flag_autoShortcut fc)
                             (Some (amap_set m alias kind))) in
        ret None
  | None =>
      let* _ := store f (mkFlag (flag_name fc) (flag_shorthand fc)
                           (flag_value fc) (flag_autoShortcut fc)
                           (Some (amap_set m alias kind))) in
      ret None
  end.

(** [addNegativeAlias], over the [addGroupAlias] it calls back. *)
Definition addNegativeAlias_with
    (addGroupAlias : string → loc → aliasKind → M error)
    (name : string) (flag : loc) (kind : aliasKind) : M error :=
  let* fc := load flag in
  if bool_decide (kind ≠ aliasNegative) && isSwitchValue (flag_value fc) then
    check addGroupAlias ("no-" +:+ name) flag aliasNegative in
    if bool_decide (String.length name ≤ 3)%nat
       && negb (strings.Contains name hyphen) then
      check addGroupAlias ("n" +:+ name) flag aliasNegative in
      ret None
    else ret None
  else ret None.

(** The body of [addGroupAlias], over the [addNegativeAlias] it calls. *)
Definition addGroupAlias_body
    (addNegativeAlias : string → loc → aliasKind → M error)
    (name : string) (flag : loc) (kind : aliasKind) : M error :=
  let* g := group in
  match long g !! name with
  | Some existing =>
      let* fc := load flag in
      let* ec := load existing in
      ret (Some (errAssociated name (flag_name fc) (flag_name ec)))
  | None =>
      let alias := table_get g name in
      if bool_decide (alias_kind alias ≠ aliasNone)
         && (bool_decide (alias_kind alias ≠ kind)
             || bool_decide (alias_flag alias ≠ Some flag)) then
        let* fc := load flag in
        let* ac := load_opt (alias_flag alias) in
        ret (Some (errAssociated name (flag_name fc) (flag_name ac)))
      else
        check addNegativeAlias name flag kind in
        let* _ := table_set name (mkAlias (Some flag) kind) in
        let* err := FlagClause_addAlias flag name kind in
        match err with
        | Some e =>
            let* fc := load flag in
            ret (Some (errUnable name (flag_name fc) e))
        | None => ret None
        end
  end.

(** [addGroupAlias] and [addNegativeAlias] call each other; the fuel
    bounds the depth of the calls of [addGroupAlias]. Two levels are all
    the code can reach, since the inner calls pass [aliasNegative], under
    which [addNegativeAlias] registers nothing (see
    [addGroupAlias_fuel_enough] and [addGroupAlias_unfold]). *)
Fixpoint addGroupAlias_fuel (fuel : nat) : string → loc → aliasKind → M error :=
  match fuel with
  | O => fun _ _ _ _ => OutOfFuel
  | S fuel' => addGroupAlias_body (addNegativeAlias_with (addGroupAlias_fuel fuel'))
  end.

(** [func (fg *flagGroup) addGroupAlias(name, flag, kind) error] *)
Definition addGroupAlias : string → loc → aliasKind → M error :=
  addGroupAlias_fuel 2.

(** [func (fg *flagGroup) addNegativeAlias(name, flag, kind) error] *)
Definition addNegativeAlias : string → loc → aliasKind → M error :=
  addNegativeAlias_with addGroupAlias.

(** [*flag.autoShortcut] *)
Definition derefBool (g : flagGroup) (p : boolPtr) : M bool :=
  match p with
  | ptrNil => panics NilDereference
  | ptrOwn b => ret b
  | ptrGroup => ret (autoShortcut g)
  end.

(** The loop of [addShortcut]: [shortcut += string(word[0])] for each
    word; [None] when a word is empty and [word[0]] is out of range. *)
Fixpoint shortcutOf (words : list string) : option string :=
  match words with
  | [] => Some EmptyString
  | EmptyString :: _ => None
  | String c _ :: rest =>
      match shortcutOf rest with
      | Some s => Some (string_of_byte c +:+ s)
      | None => None
      end
  end.

(** [func (fg *flagGroup) addShortcut(name string, flag *FlagClause) error] *)
Definition addShortcut (name : string) (flag : loc) : M error :=
  let* fc := load flag in
  let p := match flag_autoShortcut fc with
           | ptrNil => ptrGroup
           | p => p
           end in
  let* _ := store flag (mkFlag (flag_name fc) (flag_shorthand fc)
                          (flag_value fc) p (flag_aliases fc)) in
  let* g := group in
  let* enabled := derefBool g p in
  if negb enabled
     || (bool_decide (flag_shorthand fc ≠ 0)
         && negb (strings.Contains name hyphen)) then ret None
  else
    match shortcutOf (strings.Split name hyphen) with
    | None => panics IndexOutOfRange
    | Some shortcut =>
        check addGroupAlias shortcut flag aliasShortcut in
        addNegativeAlias shortcut flag aliasShortcut
    end.

(** The inner loop of [ensureAliases] over the entries the range over
    [flag.aliases] produces. The body adds keys to the map it ranges over,
    all of another kind than [aliasName], and never changes the kind of a
    key: whether the range produces the new keys or not, they are skipped,
    so the loop runs over the entries present when it starts. The order
    of [entries] is the order this range takes; Go takes another one at
    every range, so what is stated of a second build is stated for every
    order of the flags' own maps. *)
Fixpoint ensureFlagAliases (flag : loc) (entries : amap) : M error :=
  match entries with
  | [] => ret None
  | (alias, kind) :: rest =>
      if decide (kind ≠ aliasName) then ensureFlagAliases flag rest
      else
        check addGroupAlias alias flag kind in
        check addShortcut alias flag in
        ensureFlagAliases flag rest
  end.

(** The body of the outer loop of [ensureAliases], for one flag. *)
Definition ensureFlag (flag : loc) : M error :=
  let* fc := load flag in
  check addShortcut (flag_name fc) flag in
  check addNegativeAlias (flag_name fc) flag aliasNone in
  let* fc' := load flag in
  ensureFlagAliases flag (default [] (flag_aliases fc')).

(** The outer loop of [ensureAliases] over [fg.flagOrder]. *)
Fixpoint ensureFlags (flags : list loc) : M error :=
  match flags with
  | [] => ret None
  | flag :: rest =>
      check ensureFlag flag in
      ensureFlags rest
  end.

(** [func (fg *flagGroup) ensureAliases() error] *)
Definition ensureAliases : M error :=
  let* g := group in
  match aliases g with
  | Some _ => ret None
  | None =>
      let* _ := set_aliases (Some ∅) in
      ensureFlags (flagOrder g)
  end.

(** [func (fg *flagGroup) resetAliases() error] *)
Definition resetAliases : M error :=
  let* _ := set_aliases None in
  ensureAliases.

(** The three results of [getFlagAlias]. *)
Record resolved := mkResolved {
  res_flag : option loc;
  res_invert : bool;
  res_err : error;
}.

(** [func (fg *flagGroup) getFlagAlias(name string)
       (flag *FlagClause, invert bool, err error)] *)
Definition getFlagAlias (name : string) : M resolved :=
  let* err := ensureAliases in
  match err with
  | Some e => ret (mkResolved None false (Some e))
  | None =>
      let* g := group in
      match long g !! name with
      | Some flag => ret (mkResolved (Some flag) false None)
      | None =>
          let alias := table_get g name in
          if bool_decide (alias_kind alias ≠ aliasNone) then
            ret (mkResolved (alias_flag alias)
                   (bool_decide (alias_kind alias = aliasNegative)) None)
          else ret (mkResolved None false None)
      end
  end.

(** ** [ArgGroupModel.ArgSummary] (the model summaries) *)

Record ArgModel := mkArg {
  arg_Name : string;
  arg_Required : bool;
}.

(** The loop of [ArgSummary]: [depth] and [out] after the arguments. *)
Fixpoint argSummaryLoop (args : list ArgModel) (depth : nat)
    (out : list string) : nat * list string :=
  match args with
  | [] => (depth, out)
  | arg :: rest =>
      let h := "<" +:+ arg_Name arg +:+ ">" in
      if negb (arg_Required arg)
      then argSummaryLoop rest (S depth) (out ++ ["[" +:+ h])
      else argSummaryLoop rest depth (out ++ [h])
  end.

(** [func (a *ArgGroupModel) ArgSummary() string]: [None] is the panic of
    the index expression [out[len(out)-1]] when it is out of range. *)
Definition ArgSummary (args : list ArgModel) : option string :=
  let '(depth, out) := argSummaryLoop args O [] in
  let i := Z.of_nat (length out) - 1 in
  if decide (0 ≤ i < Z.of_nat (length out)) then
    match out !! Z.to_nat i with
    | Some last =>
        Some (strings.Join
                (<[Z.to_nat i := last +:+ strings.Repeat "]" depth]> out) " ")
    | None => None
    end
  else None.

(** ** Short-flag bundles (the parse driver) *)

(** Modelled from the spec: the parse driver's handling of a short-flag
    token (section 4.5, "Short-flag token"); the driver itself is not
    among the sources, only its tests are. A flag declared with a
    shorthand letter, as far as the expansion looks at it. *)
Record shortFlag := mkShort {
  short_name : string;
  short_isSwitch : bool;
}.

(** Modelled from the spec: the part of the parse context a short-flag
    token acts on: the values bound so far, the unmanaged tokens, and the
    tokens that follow in the stream. *)
Record parseContext := mkContext {
  bound : list (string * string);
  Unmanaged : list string;
  stream : list string;
}.

(** Modelled from the spec: what the letter-by-letter expansion of a
    bundle comes to. *)
Inductive expansion :=
  | Expanded (bindings : list (string * string)) (rest : list string)
  | UnresolvedLetter (c : ascii)
  | MissingValue (name : string).

(** Modelled from the spec: "Bundle expansion proceeds letter by letter:
    each letter is resolved against declared shorthand letters. [...] If
    a resolved letter belongs to a non-switch flag, the remainder of the
    token (after that letter) is taken verbatim as its value, terminating
    bundle expansion for that token; if nothing remains, the next stream
    token is consumed as the value". A switch binds [true]. The expansion
    stops at the first letter that does not resolve. *)
Fixpoint expandBundle (short : gmap ascii shortFlag) (letters : string)
    (following : list string) : expansion :=
  match letters with
  | EmptyString => Expanded [] following
  | String c rest =>
      match short !! c with
      | None => UnresolvedLetter c
      | Some f =>
          if short_isSwitch f then
            match expandBundle short rest following with
            | Expanded bs following' =>
                Expanded ((short_name f, "true") :: bs) following'
            | e => e
            end
          else
            match rest, following with
            | String _ _, _ => Expanded [(short_name f, rest)] following
            | EmptyString, v :: following' =>
                Expanded [(short_name f, v)] following'
            | EmptyString, [] => MissingValue (short_name f)
            end
      end
  end.

(** Modelled from the spec: "On the first unresolved letter, if unmanaged
    mode is enabled, the entire original token is treated as unmanaged
    input and expansion of that token stops (no partial binding of letters
    already resolved before the failure is retained); otherwise it is an
    unrecognized-flag error." The token is ["-" + letters]; [inr] is the
    error of the parse. *)
Definition parseShortToken (allowUnmanaged : bool)
    (short : gmap ascii shortFlag) (letters : string) (ctx : parseContext)
  : parseContext + string :=
  match expandBundle short letters (stream ctx) with
  | Expanded bs following =>
      inl (mkContext (bound ctx ++ bs) (Unmanaged ctx) following)
  | UnresolvedLetter c =>
      if allowUnmanaged then
        inl (mkContext (bound ctx) (Unmanaged ctx ++ ["-" +:+ letters])
               (stream ctx))
      else inr ("unknown short flag '-" +:+ String c "'")
  | MissingValue name =>
      inr ("expected argument for flag '" +:+ name +:+ "'")
  end.

(** The letters all resolve to switches. *)
Fixpoint allSwitches (short : gmap ascii shortFlag) (letters : string)
  : bool :=
  match letters with
  | EmptyString => true
  | String c rest =>
      match short !! c with
      | Some f => short_isSwitch f && allSwitches short rest
      | None => false
      end
  end.

(** ** How the build steps change the state

    [evolves σ σ'] holds between the state before and after every step of
    the build, also after a step that returns an error: the declarations
    stay, the flags keep their identity, and the table only grows. *)

Definition live (a : flagAlias) : Prop := alias_kind a ≠ aliasNone.

Definition entries (fc : FlagClause) : amap := default [] (flag_aliases fc).

Definition ptr_le (p q : boolPtr) : Prop := p = q ∨ (p = ptrNil ∧ q = ptrGroup).

Record flag_le (fc fc' : FlagClause) : Prop := mkFlagLe {
  fl_name : flag_name fc' = flag_name fc;
  fl_shorthand : flag_shorthand fc' = flag_shorthand fc;
  fl_value : flag_value fc' = flag_value fc;
  fl_ptr : ptr_le (flag_autoShortcut fc) (flag_autoShortcut fc');
  fl_made : is_Some (flag_aliases fc) → is_Some (flag_aliases fc');
  fl_entries : entries fc `prefix_of` entries fc';
}.

Record evolves (σ σ' : state) : Prop := mkEvolves {
  ev_long : long (fg σ') = long (fg σ);
  ev_order : flagOrder (fg σ') = flagOrder (fg σ);
  ev_auto : autoShortcut (fg σ') = autoShortcut (fg σ);
  ev_built : is_Some (aliases (fg σ)) → is_Some (aliases (fg σ'));
  ev_mono : ∀ k, live (table_get (fg σ) k) →
                 table_get (fg σ') k = table_get (fg σ) k;
  ev_new : ∀ k, table_get (fg σ') k ≠ table_get (fg σ) k →
                long (fg σ) !! k = None ∧
                ∃ p kd, table_get (fg σ') k = mkAlias (Some p) kd ∧
                        is_Some (heap σ !! p);
  ev_heap : ∀ p, option_Forall2 flag_le (heap σ !! p) (heap σ' !! p);
}.

Definition with_aliases (fc : FlagClause) (m : amap) : FlagClause :=
  mkFlag (flag_name fc) (flag_shorthand fc) (flag_value fc)
    (flag_autoShortcut fc) (Some m).

Definition with_heap (σ : state) (h : gmap loc FlagClause) : state :=
  mkState h (fg σ).

(** The spellings a call of [addGroupAlias name _ kind] may write. *)
Definition touches (name : string) (kind : aliasKind) (k : string) : Prop :=
  k = name ∨
  (kind ≠ aliasNegative ∧ (k = "no-" +:+ name ∨ k = "n" +:+ name)).

Definition frames (name : string) (kind : aliasKind) (σ σ' : state) : Prop :=
  ∀ k, ¬ touches name kind k → table_get (fg σ') k = table_get (fg σ) k.

(** The step does not run out of fuel. *)
Definition fueled {A} (m : M A) (σ : state) : Prop := m σ ≠ OutOfFuel.

(** A flag is a switch in a state. *)
Definition isSwitch (σ : state) (flag : loc) : Prop :=
  ∃ fc, heap σ !! flag = Some fc ∧ isSwitchValue (flag_value fc) = true.

(** The name is short enough for the second negative form. *)
Definition shortName (name : string) : bool :=
  bool_decide (String.length name ≤ 3)%nat
  && negb (strings.Contains name hyphen).

Definition negativeOf (flag : loc) : flagAlias :=
  mkAlias (Some flag) aliasNegative.

(** The entries a successful step writes: each names a flag, and a
    negative entry names a switch. *)
Definition sound_step (σ σ' : state) : Prop :=
  ∀ k, table_get (fg σ') k ≠ table_get (fg σ) k →
       ∃ p kd, table_get (fg σ') k = mkAlias (Some p) kd ∧ kd ≠ aliasNone ∧
               (kd = aliasNegative → isSwitch σ p).

(** The auto-shortcut setting in effect for a flag: its own when it was
    configured, else the group's. *)
Definition autoShortcutOf (g : flagGroup) (fc : FlagClause) : bool :=
  match flag_autoShortcut fc with
  | ptrOwn b => b
  | ptrNil | ptrGroup => autoShortcut g
  end.

(** [addShortcut] goes on to synthesize a shortcut for the name. *)
Definition synthesizes (g : flagGroup) (fc : FlagClause) (name : string)
  : bool :=
  autoShortcutOf g fc
  && negb (bool_decide (flag_shorthand fc ≠ 0)
           && negb (strings.Contains name hyphen)).

(** The flag after the first statement of [addShortcut]. *)
Definition with_autoShortcut (fc : FlagClause) : FlagClause :=
  mkFlag (flag_name fc) (flag_shorthand fc) (flag_value fc)
    (match flag_autoShortcut fc with
     | ptrNil => ptrGroup
     | p => p
     end) (flag_aliases fc).

(** ** What a build registers *)

(** The table maps the spelling to the flag under the kind. *)
Definition registered (σ : state) (k : string) (flag : loc)
    (kind : aliasKind) : Prop :=
  table_get (fg σ) k = mkAlias (Some flag) kind.

(** The negative forms of a spelling of a switch. *)
Definition negatives (σ : state) (name : string) (flag : loc) : Prop :=
  registered σ ("no-" +:+ name) flag aliasNegative ∧
  (shortName name = true → registered σ ("n" +:+ name) flag aliasNegative).

(** What the build registers for one spelling (the long name or a
    declared alias) of a flag. *)
Definition spellingBuilt (g : flagGroup) (fc : FlagClause) (σ' : state)
    (flag : loc) (name : string) : Prop :=
  (isSwitchValue (flag_value fc) = true → negatives σ' name flag) ∧
  (synthesizes g fc name = true →
   ∃ sc, shortcutOf (strings.Split name hyphen) = Some sc ∧
         registered σ' sc flag aliasShortcut ∧
         (isSwitchValue (flag_value fc) = true → negatives σ' sc flag)).

(** What the build registers for a flag: the forms of its long name and,
    for each alias declared on it, the alias and its forms. *)
Definition flagBuilt (g : flagGroup) (fc : FlagClause) (σ' : state)
    (flag : loc) : Prop :=
  spellingBuilt g fc σ' flag (flag_name fc) ∧
  ∀ alias, (alias, aliasName) ∈ entries fc →
    registered σ' alias flag aliasName ∧ spellingBuilt g fc σ' flag alias.

(** The state in which [ensureAliases] starts its loop. *)
Definition with_empty_table (σ : state) : state :=
  mkState (heap σ)
    (mkGroup (long (fg σ)) (flagOrder (fg σ)) (Some ∅) (autoShortcut (fg σ))).

(** The invariant of the alias table: a live entry is no long name of
    the group and names a flag of the heap. *)
Definition tableInv (σ : state) : Prop :=
  ∀ k, live (table_get (fg σ) k) →
       long (fg σ) !! k = None ∧
       ∃ p, alias_flag (table_get (fg σ) k) = Some p ∧ is_Some (heap σ !! p).

(** A leading hyphen, a trailing hyphen and two hyphens in a row each
    give an empty word. *)
Definition leadingHyphen (name : string) : Prop :=
  ∃ rest, name = String hyphen rest.
Definition trailingHyphen (name : string) : Prop :=
  ∃ front, name = front +:+ "-".
Definition doubleHyphen (name : string) : Prop :=
  ∃ front rest, name = front +:+ "--" +:+ rest.

(** The first letter of each word of a name, as the specification words
    the shortcut. *)
Definition firstLetter (w : string) : string :=
  match w with
  | EmptyString => EmptyString
  | String c _ => String c EmptyString
  end.

Definition initials (name : string) : string :=
  foldr (λ w acc, firstLetter w +:+ acc) EmptyString
    (strings.Split name hyphen).

(** The words that begin with a byte below 128. *)
Definition asciiInitial (w : string) : Prop :=
  ∀ c rest, w = String c rest → (nat_of_ascii c < 128)%nat.

(** What an argument adds to the summary before the brackets close. *)
Definition argItem (arg : ArgModel) : string :=
  if arg_Required arg then "<" +:+ arg_Name arg +:+ ">"
  else "[" +:+ "<" +:+ arg_Name arg +:+ ">".

(** The number of arguments that are not required. *)
Definition optionalCount (args : list ArgModel) : nat :=
  length (filter (λ arg, arg_Required arg = false) args).

(** ** Building again over flags that were built before

    A build leaves its marks in the flags: the entries it adds to their
    own maps and the pointer it sets for the auto-shortcut setting.
    [covers fc FC] says [FC] is [fc] with more of these marks, and none
    that would be a declared alias. A step that ran from a heap to a heap
    that [H] covers runs the same way on [H], and leaves [H] as it is. *)

Definition names (fc : FlagClause) : amap :=
  filter (λ kv, kv.2 = aliasName) (entries fc).

Definition covers (fc FC : FlagClause) : Prop :=
  flag_le fc FC ∧ names FC = names fc.

Definition heap_covers (h H : gmap loc FlagClause) : Prop :=
  ∀ p, option_Forall2 covers (h !! p) (H !! p).

Definition heap_names (σ σ' : state) : Prop :=
  ∀ p fc fc', heap σ !! p = Some fc → heap σ' !! p = Some fc' →
              names fc' = names fc.

Definition replays {A} (m : M A) (σ : state) (r : A) (σ' : state) : Prop :=
  ∀ H, heap_covers (heap σ') H →
       m (with_heap σ H) = Returns r (with_heap σ' H).

(** A step is steady from the states of [P]: it only adds marks to the
    flags, and it runs the same way, to the same result and the same
    group, on every heap that covers the heap it left. *)
Definition steady {A} (P : state → Prop) (m : M A) : Prop :=
  ∀ σ r σ', P σ → m σ = Returns r σ' →
            heap_covers (heap σ) (heap σ') ∧ replays m σ r σ'.

Definition always : state → Prop := λ _, True.

(** The spelling may be written into the flag's own map under the kind
    without adding a declared alias. *)
Definition keeps (f : loc) (a : string) (k : aliasKind) (σ : state) : Prop :=
  k = aliasName →
  ∃ fc, heap σ !! f = Some fc ∧ is_Some (amap_get (entries fc) a).

(** The aliases of [es] are written in the flag's own map. *)
Definition declared (flag : loc) (es : amap) (σ : state) : Prop :=
  ∀ a, (a, aliasName) ∈ es → keeps flag a aliasName σ.

(** ** Flag groups and flags to run the code on *)

(** A group whose build succeeds: two switches, one with a declared
    alias, and a flag with a value and the shorthand [o]; the group turns
    auto-shortcuts on. *)
Definition verboseFlag : FlagClause :=
  mkFlag "verbose" 0 (boolFlagValue true) ptrNil (Some [("loud", aliasName)]).
Definition dryRunFlag : FlagClause :=
  mkFlag "dry-run" 0 (boolFlagValue true) ptrNil None.
Definition outputFlag : FlagClause :=
  mkFlag "output" 111 otherValue (ptrOwn true) None.

Definition toolGroup : state :=
  mkState (<[0%nat := verboseFlag]> (<[1%nat := dryRunFlag]>
             (<[2%nat := outputFlag]> ∅)))
    (mkGroup (<["verbose" := 0%nat]> (<["dry-run" := 1%nat]>
                (<["output" := 2%nat]> ∅)))
       [0%nat; 1%nat; 2%nat] None true).

Definition toolGroupBuilt : state :=
  match ensureAliases toolGroup with
  | Returns _ σ => σ
  | _ => toolGroup
  end.

(** A group whose build fails: the shortcuts of its two flags collide. *)
Definition alphaFlag : FlagClause :=
  mkFlag "alpha-beta" 0 (boolFlagValue true) ptrNil None.
Definition appleFlag : FlagClause :=
  mkFlag "apple-banana" 0 otherValue ptrNil None.

Definition clashGroup : state :=
  mkState (<[0%nat := alphaFlag]> (<[1%nat := appleFlag]> ∅))
    (mkGroup (<["alpha-beta" := 0%nat]> (<["apple-banana" := 1%nat]> ∅))
       [0%nat; 1%nat] None true).

Definition clashGroupFailed : state :=
  match ensureAliases clashGroup with
  | Returns _ σ => σ
  | _ => clashGroup
  end.

Definition clashError : string :=
  "Alias ab on apple-banana is already associated to flag alpha-beta".

(** A group with a flag whose name has two hyphens in a row. *)
Definition hyphenFlag : FlagClause :=
  mkFlag "dry--run" 0 otherValue (ptrOwn true) None.

Definition hyphenGroup : state :=
  mkState (<[0%nat := hyphenFlag]> ∅)
    (mkGroup (<["dry--run" := 0%nat]> ∅) [0%nat] None false).

(** The flags of [TestUnmanaged]: the switches [a] to [e] and the string
    flags [A] to [E]. *)
Definition testShorts : gmap ascii shortFlag :=
  list_to_map
    [("a"%char, mkShort "bool-1" true); ("b"%char, mkShort "bool-2" true);
     ("c"%char, mkShort "bool-3" true); ("d"%char, mkShort "bool-4" true);
     ("e"%char, mkShort "bool-5" true);
     ("A"%char, mkShort "string-1" false);
     ("B"%char, mkShort "string-2" false);
     ("C"%char, mkShort "string-3" false);
     ("D"%char, mkShort "string-4" false);
     ("E"%char, mkShort "string-5" false)].

(** ** The declaration methods of a flag (alias.go) *)

(** The loop of [Alias]: [f.addAlias(alias, aliasName)] for each alias,
    the error it returns being dropped. *)
Fixpoint AliasLoop (f : loc) (aliases : list string) : M unit :=
  match aliases with
  | [] => ret tt
  | alias :: rest =>
      let* _ := FlagClause_addAlias f alias aliasName in
      AliasLoop f rest
  end.

(** [func (f *FlagClause) Alias(aliases ...string) *FlagClause]: [None]
    is the nil slice of a call without arguments. The method returns its
    receiver. *)
Definition Alias (f : loc) (aliases : option (list string)) : M unit :=
  let* _ := match aliases with
            | None =>
                let* fc := load f in
                store f (mkFlag (flag_name fc) (flag_shorthand fc)
                           (flag_value fc) (flag_autoShortcut fc) None)
            | Some _ => ret tt
            end in
  AliasLoop f (default [] aliases).

(** [func (f *FlagClause) setAutoShortcut(value bool) *FlagClause] *)
Definition setAutoShortcut (f : loc) (value : bool) : M unit :=
  let* fc := load f in
  store f (mkFlag (flag_name fc) (flag_shorthand fc) (flag_value fc)
             (ptrOwn value) (flag_aliases fc)).

(** [func (f *FlagClause) AutoShortcut() *FlagClause] *)
Definition AutoShortcut (f : loc) : M unit := setAutoShortcut f true.

(** [func (f *FlagClause) NoAutoShortcut() *FlagClause] *)
Definition NoAutoShortcut (f : loc) : M unit := setAutoShortcut f false.

(** The flags agree on all but their own maps. *)
Definition same_declaration (fc fc' : FlagClause) : Prop :=
  flag_name fc' = flag_name fc ∧ flag_shorthand fc' = flag_shorthand fc ∧
  flag_value fc' = flag_value fc ∧
  flag_autoShortcut fc' = flag_autoShortcut fc.

(** ** The spellings a build derives from a flag *)

(** The spellings declared for a flag: its long name and its aliases. *)
Definition spelling (fc : FlagClause) (name : string) : Prop :=
  name = flag_name fc ∨ (name, aliasName) ∈ entries fc.

(** [sc] is the shortcut [addShortcut] synthesizes for a declared
    spelling of the flag. *)
Definition shortcutFor (g : flagGroup) (fc : FlagClause) (sc : string)
  : Prop :=
  ∃ name, spelling fc name ∧ synthesizes g fc name = true ∧
          shortcutOf (strings.Split name hyphen) = Some sc.

(** [k] is a negative form [addNegativeAlias] derives from [base] for a
    switch. *)
Definition negativeFor (fc : FlagClause) (base k : string) : Prop :=
  isSwitchValue (flag_value fc) = true ∧
  (k = "no-" +:+ base ∨ (k = "n" +:+ base ∧ shortName base = true)).

(** The spellings [ensureAliases] derives from a flag, by kind: the
    declared aliases, the shortcuts of the name and of the aliases, and
    the negative forms of the name, the aliases and the shortcuts. *)
Definition generated (g : flagGroup) (fc : FlagClause) (k : string)
    (kind : aliasKind) : Prop :=
  match kind with
  | aliasNone => False
  | aliasName => (k, aliasName) ∈ entries fc
  | aliasShortcut => shortcutFor g fc k
  | aliasNegative =>
      ∃ base, (spelling fc base ∨ shortcutFor g fc base) ∧
              negativeFor fc base k
  end.

(** Every entry a step writes is derived from a flag of [P], as the
    flags were declared in the heap [h] under the group [g]. *)
Definition justified (P : loc → Prop) (g : flagGroup)
    (h : gmap loc FlagClause) (σ σ' : state) : Prop :=
  ∀ k, table_get (fg σ') k ≠ table_get (fg σ) k →
       ∃ p fc kd, P p ∧ h !! p = Some fc ∧
                  table_get (fg σ') k = mkAlias (Some p) kd ∧
                  generated g fc k kd.

(** The state is one a build reaches from the declarations [g], [h]. *)
Definition since (g : flagGroup) (h : gmap loc FlagClause) (σ : state)
  : Prop :=
  heap_covers h (heap σ) ∧ autoShortcut (fg σ) = autoShortcut g.

(** The heaps hold the same flags, up to the order in which the range
    over a flag's own map produces its entries. *)
Definition reordered (h h' : gmap loc FlagClause) : Prop :=
  ∀ p, option_Forall2
         (λ fc fc', same_declaration fc fc' ∧ entries fc ≡ₚ entries fc')
         (h !! p) (h' !! p).

(** A group of one switch with the declared aliases [es], in the order
    in which the range over the flag's map produces them. *)
Definition chattyGroup (es : amap) : state :=
  mkState (<[0%nat := mkFlag "verbose" 0 (boolFlagValue true) ptrNil
                        (Some es)]> ∅)
    (mkGroup (<["verbose" := 0%nat]> ∅) [0%nat] None true).

(** The state a run leaves, or the state it started from. *)
Definition final {A} (m : M A) (σ : state) : state :=
  match m σ with
  | Returns _ σ' => σ'
  | _ => σ
  end.

(** ** When a build returns *)

(** The run returns: it neither panics nor runs out of fuel. *)
Definition returns {A} (m : M A) (σ : state) : Prop :=
  ∃ r σ', m σ = Returns r σ'.

(** The pointers of the group are pointers to flags: the flags of
    [flagOrder] and of [long] are in the heap. *)
Definition wellFormed (σ : state) : Prop :=
  (∀ p, p ∈ flagOrder (fg σ) → is_Some (heap σ !! p)) ∧
  (∀ k p, long (fg σ) !! k = Some p → is_Some (heap σ !! p)).

(** The steps of a build find what they read: the table is made, and its
    live entries and the long names of the group name flags of the heap. *)
Definition ready (σ : state) : Prop :=
  is_Some (aliases (fg σ)) ∧ tableInv σ ∧
  ∀ k p, long (fg σ) !! k = Some p → is_Some (heap σ !! p).

(** No spelling of the flag for which [addShortcut] synthesizes a
    shortcut has an empty word. *)
Definition wordsOk (g : flagGroup) (fc : FlagClause) : Prop :=
  ∀ name, spelling fc name → synthesizes g fc name = true →
          EmptyString ∉ strings.Split name hyphen.

(** ** [FlagClause.Model] (the model of a flag) *)

Module sort.

(** [sort.Strings(x)]: the strings in increasing order, as Go compares
    strings, byte by byte. *)
Definition Strings (x : list string) : list string := merge_sort String.le x.

End sort.

(** [FlagModel], with the fields of the flags modelled here; [Model]
    copies the others ([Help], [Default], [Envar], [PlaceHolder],
    [Required], [Hidden]) from the flag as they are. *)
Record FlagModel := mkFlagModel {
  fm_Name : string;
  fm_Short : Z;
  fm_Aliases : list string;
  fm_NegativeAliases : list string;
  fm_Value : Value;
}.

(** The loop of [Model] over the entries the range over [f.aliases]
    produces: [aliases] and [negatives] after it. *)
Fixpoint modelLoop (es : amap) (aliases negatives : list string)
  : list string * list string :=
  match es with
  | [] => (aliases, negatives)
  | (alias, kind) :: rest =>
      if decide (kind = aliasNegative)
      then modelLoop rest aliases (negatives ++ [alias])
      else modelLoop rest (aliases ++ [alias]) negatives
  end.

(** [func (f *FlagClause) Model() *FlagModel], on the flag [f] points
    to. *)
Definition FlagClause_Model (fc : FlagClause) : FlagModel :=
  let '(aliases, negatives) := modelLoop (entries fc) [] [] in
  mkFlagModel (flag_name fc) (flag_shorthand fc) (sort.Strings aliases)
    (sort.Strings negatives) (flag_value fc).

(** A step records the entries it writes in the flag's own map. *)
Definition recorded (σ σ' : state) : Prop :=
  ∀ k, table_get (fg σ') k ≠ table_get (fg σ) k →
       ∃ p kd fc', table_get (fg σ') k = mkAlias (Some p) kd ∧
                   heap σ' !! p = Some fc' ∧
                   amap_get (entries fc') k = Some kd.

(** ** [CmdGroupModel.FlattenedCommands] (the model summaries) *)

(** [CmdModel], as far as [FlattenedCommands] looks at it: the name and
    the commands of the embedded [*CmdGroupModel], which [Model] always
    sets. *)
#[warnings="-register-all"]
Inductive CmdModel := mkCmd (Name : string) (Commands : list CmdModel).

Definition cmd_Name (cmd : CmdModel) : string :=
  match cmd with mkCmd n _ => n end.

Definition cmd_Commands (cmd : CmdModel) : list CmdModel :=
  match cmd with mkCmd _ cs => cs end.

(** [cmd.FlattenedCommands()] for a command: the loop over its commands
    with [out] so far, calling itself on each of them. *)
Fixpoint flattenCmd (cmd : CmdModel) : list CmdModel :=
  let fix loop (cs out : list CmdModel) : list CmdModel :=
    match cs with
    | [] => out
    | c :: rest =>
        let out := if Nat.eqb (length (cmd_Commands c)) 0
                   then out ++ [c] else out in
        loop rest (out ++ flattenCmd c)
    end in
  match cmd with mkCmd _ cs => loop cs [] end.

(** The loop of [FlattenedCommands]. *)
Fixpoint flattenLoop (cs out : list CmdModel) : list CmdModel :=
  match cs with
  | [] => out
  | c :: rest =>
      let out := if Nat.eqb (length (cmd_Commands c)) 0
                 then out ++ [c] else out in
      flattenLoop rest (out ++ flattenCmd c)
  end.

(** [func (c *CmdGroupModel) FlattenedCommands() (out []*CmdModel)] *)
Definition FlattenedCommands (cs : list CmdModel) : list CmdModel :=
  flattenLoop cs [].

(** [c] is one of the commands [cs] or of the commands below them. *)
Inductive within (c : CmdModel) : list CmdModel → Prop :=
  | within_here cs : c ∈ cs → within c cs
  | within_below d cs : d ∈ cs → within c (cmd_Commands d) → within c cs.

(** The command has no commands below it. *)
Definition leaf (c : CmdModel) : Prop := cmd_Commands c = [].

(** ** Counting the brackets of a summary *)

(** How often the byte occurs in the string. *)
Fixpoint countByte (b : ascii) (s : string) : nat :=
  match s with
  | EmptyString => 0
  | String c s' => ((if decide (c = b) then 1 else 0) + countByte b s')%nat
  end.

(** ** Building again in another range order *)

(** The declarations [g], [h] are those of a group that was built with
    success: no spelling a flag gives rise to is a long name, no two
    flags and no two kinds give rise to the same spelling, every
    spelling that gets a shortcut has one, and the flags' own maps hold
    the spellings under their kinds. *)
Record rebuildable (g : flagGroup) (h : gmap loc FlagClause) : Prop :=
  mkRebuildable {
  rb_flags : ∀ p, p ∈ flagOrder g → is_Some (h !! p);
  rb_long : ∀ p fc k kd, p ∈ flagOrder g → h !! p = Some fc →
                         generated g fc k kd → long g !! k = None;
  rb_unique : ∀ p fc q fc' k kd kd',
      p ∈ flagOrder g → h !! p = Some fc →
      q ∈ flagOrder g → h !! q = Some fc' →
      generated g fc k kd → generated g fc' k kd' → q = p ∧ kd' = kd;
  rb_words : ∀ p fc name, p ∈ flagOrder g → h !! p = Some fc →
                          spelling fc name → synthesizes g fc name = true →
                          is_Some (shortcutOf (strings.Split name hyphen));
  rb_recorded : ∀ p fc k kd, p ∈ flagOrder g → h !! p = Some fc →
                             generated g fc k kd →
                             amap_get (entries fc) k = Some kd;
}.

(** The invariant of a build over such declarations: the state is one
    the build reaches, the table is made, and its live entries are
    spellings the flags give rise to. *)
Definition rebuilding (g : flagGroup) (h : gmap loc FlagClause) (s : state)
  : Prop :=
  since g h s ∧ long (fg s) = long g ∧ is_Some (aliases (fg s)) ∧
  ∀ k, live (table_get (fg s) k) →
       ∃ p fc kd, p ∈ flagOrder g ∧ h !! p = Some fc ∧
                  table_get (fg s) k = mkAlias (Some p) kd ∧
                  generated g fc k kd.

(** The run returns no error and keeps the invariant. *)
Definition succeeds (g : flagGroup) (h : gmap loc FlagClause) (m : M error)
    (s : state) : Prop :=
  ∃ s', m s = Returns None s' ∧ rebuilding g h s'.

(** [fg.aliases = nil], the first statement of [resetAliases]. *)
Definition cleared (s : state) : state :=
  mkState (heap s)
    (mkGroup (long (fg s)) (flagOrder (fg s)) None (autoShortcut (fg s))).

(** A group whose build fails, in one range order on the conflict of the
    shortcut [ab] of [a-b] with the flag's own entry for the alias [ab],
    in the other on the conflict of that shortcut with the table's entry
    for the alias. *)
Definition orderGroup : state :=
  chattyGroup [("a-b", aliasName); ("ab", aliasName)].

Definition orderGroupFailed : state := final ensureAliases orderGroup.

(** [orderGroupFailed], with the flag's own map in another order. *)
Definition orderGroupAgain : state :=
  mkState
    (<[0%nat := mkFlag "verbose" 0 (boolFlagValue true) ptrGroup
                  (Some [("ab", aliasName); ("a-b", aliasName);
                         ("no-v", aliasNegative); ("nv", aliasNegative);
                         ("v", aliasShortcut); ("no-verbose", aliasNegative);
                         ("no-a-b", aliasNegative); ("no-ab", aliasNegative);
                         ("nab", aliasNegative)])]> ∅)
    (fg orderGroupFailed).

(** [toolGroupBuilt], with the own maps of its flags in another order. *)
Definition toolGroupAgain : state :=
  mkState
    (<[0%nat := mkFlag "verbose" 0 (boolFlagValue true) ptrGroup
                  (Some [("l", aliasShortcut); ("nl", aliasNegative);
                         ("no-l", aliasNegative); ("no-loud", aliasNegative);
                         ("no-verbose", aliasNegative); ("v", aliasShortcut);
                         ("nv", aliasNegative); ("no-v", aliasNegative);
                         ("loud", aliasName)])]>
       (<[1%nat := mkFlag "dry-run" 0 (boolFlagValue true) ptrGroup
                     (Some [("no-dry-run", aliasNegative);
                            ("dr", aliasShortcut); ("ndr", aliasNegative);
                            ("no-dr", aliasNegative)])]>
          (<[2%nat := outputFlag]> ∅)))
    (fg toolGroupBuilt).

(** ** Reasoning about outcomes *)

Lemma bind_Returns {A B} (m : M A) (k : A → M B) σ b σ'' :
  bind m k σ = Returns b σ'' ↔
  ∃ a σ', m σ = Returns a σ' ∧ k a σ' = Returns b σ''.
Proof.
  unfold bind. split.
  - destruct (m σ) as [a σ'| |]; [eauto | done | done].
  - intros (a & σ' & -> & H). done.
Qed.

Lemma try_Returns (m k : M error) σ r σ'' :
  try m k σ = Returns r σ'' ↔
  (∃ e, m σ = Returns (Some e) σ'' ∧ r = Some e) ∨
  (∃ σ', m σ = Returns None σ' ∧ k σ' = Returns r σ'').
Proof.
  unfold try. rewrite bind_Returns. split.
  - intros (a & σ' & Hm & Hk). destruct a as [e|].
    + injection Hk as <- <-. eauto.
    + eauto.
  - intros [(e & Hm & ->) | (σ' & Hm & Hk)]; eauto.
Qed.

Lemma load_Returns p σ fc σ' :
  load p σ = Returns fc σ' ↔ heap σ !! p = Some fc ∧ σ' = σ.
Proof.
  unfold load. destruct (heap σ !! p) as [f|]; split.
  - by intros [= <- <-].
  - by intros [[= <-] ->].
  - done.
  - by intros [? _].
Qed.

Lemma load_opt_Returns p σ fc σ' :
  load_opt p σ = Returns fc σ' ↔
  ∃ l, p = Some l ∧ heap σ !! l = Some fc ∧ σ' = σ.
Proof.
  destruct p as [l|]; simpl.
  - rewrite load_Returns. split; [by eauto | by intros (? & [= <-] & ?)].
  - split; [done | by intros (? & ? & _)].
Qed.

Lemma store_Returns p f σ u σ' :
  store p f σ = Returns u σ' ↔ σ' = mkState (<[p := f]> (heap σ)) (fg σ).
Proof. unfold store. destruct u. split; [by intros [= <-] | by intros ->]. Qed.

Lemma group_Returns σ g σ' :
  group σ = Returns g σ' ↔ g = fg σ ∧ σ' = σ.
Proof. unfold group. split; [by intros [= <- <-] | by intros [-> ->]]. Qed.

Lemma ret_Returns {A} (a b : A) σ σ' :
  ret a σ = Returns b σ' ↔ b = a ∧ σ' = σ.
Proof. unfold ret. split; [by intros [= <- <-] | by intros [-> ->]]. Qed.

(** Take a hypothesis on the outcome of a sequence of steps apart. *)
Ltac minv H :=
  lazymatch type of H with
  | bind _ _ _ = Returns _ _ =>
      let a := fresh "a" in let σ := fresh "σ" in
      let H1 := fresh "Hm" in
      apply bind_Returns in H; destruct H as (a & σ & H1 & H);
      minv H1; minv H
  | load _ _ = Returns _ _ =>
      apply load_Returns in H; destruct H as [H ?]; simplify_eq/=
  | load_opt _ _ = Returns _ _ =>
      let l := fresh "l" in let E := fresh "E" in
      apply load_opt_Returns in H; destruct H as (l & E & H & ?);
      simplify_eq/=
  | store _ _ _ = Returns _ _ =>
      apply store_Returns in H; simplify_eq/=
  | group _ = Returns _ _ =>
      apply group_Returns in H; destruct H as [? ?]; simplify_eq/=
  | ret _ _ = Returns _ _ =>
      apply ret_Returns in H; destruct H as [? ?]; simplify_eq/=
  | panics _ _ = Returns _ _ => discriminate H
  | Panics _ = Returns _ _ => discriminate H
  | OutOfFuel = Returns _ _ => discriminate H
  | _ => idtac
  end.

(** ** Byte strings *)

Lemma length_append (s t : string) :
  String.length (s +:+ t) = (String.length s + String.length t)%nat.
Proof. induction s as [|c s IH]; simpl; [done | by rewrite IH]. Qed.

Lemma no_prefix_ne (name : string) : "no-" +:+ name ≠ name.
Proof.
  intros H. apply (f_equal String.length) in H.
  rewrite length_append in H. simpl in H. lia.
Qed.

Lemma n_prefix_ne (name : string) : "n" +:+ name ≠ name.
Proof.
  intros H. apply (f_equal String.length) in H.
  rewrite length_append in H. simpl in H. lia.
Qed.

Lemma no_n_prefix_ne (name : string) : "no-" +:+ name ≠ "n" +:+ name.
Proof.
  intros H. apply (f_equal String.length) in H.
  rewrite !length_append in H. simpl in H. lia.
Qed.

(** ** The ranged map of a flag *)

Lemma amap_set_same m k v : amap_get m k = Some v → amap_set m k v = m.
Proof.
  induction m as [|[k' v'] m IH]; simpl; [done|].
  case_decide; intros Hg; [by simplify_eq | by rewrite IH].
Qed.

Lemma amap_set_new m k v : amap_get m k = None → amap_set m k v = m ++ [(k, v)].
Proof.
  induction m as [|[k' v'] m IH]; simpl; [done|].
  case_decide; intros Hg; [done | by rewrite IH].
Qed.

Lemma amap_get_app m x k :
  amap_get (m ++ x) k =
  match amap_get m k with Some v => Some v | None => amap_get x k end.
Proof.
  induction m as [|[k' v'] m IH]; simpl; [done|]. by case_decide.
Qed.

Lemma amap_get_elem_of m k v : (k, v) ∈ m → is_Some (amap_get m k).
Proof.
  induction m as [|[k' v'] m IH]; [by intros ?%elem_of_nil|].
  intros [?|?]%elem_of_cons; simpl; case_decide; simplify_eq; eauto.
Qed.

Lemma ptr_le_refl p : ptr_le p p.
Proof. by left. Qed.

Lemma ptr_le_trans p q r : ptr_le p q → ptr_le q r → ptr_le p r.
Proof. unfold ptr_le. intros [->|[-> ->]] [->|[? ->]]; auto; done. Qed.

Lemma flag_le_refl fc : flag_le fc fc.
Proof. split; auto using ptr_le_refl. Qed.

Lemma flag_le_trans a b c : flag_le a b → flag_le b c → flag_le a c.
Proof.
  intros [] []. split; try congruence; eauto using ptr_le_trans.
  by etrans.
Qed.

Lemma evolves_refl σ : evolves σ σ.
Proof.
  split; auto; [done|]. intros p. destruct (heap σ !! p); constructor.
  apply flag_le_refl.
Qed.

Lemma evolves_heap_Some σ σ' p :
  evolves σ σ' → is_Some (heap σ !! p) ↔ is_Some (heap σ' !! p).
Proof.
  intros Hev. destruct (ev_heap _ _ Hev p); split; intros [? ?]; eauto; done.
Qed.

Lemma evolves_trans σ1 σ2 σ3 : evolves σ1 σ2 → evolves σ2 σ3 → evolves σ1 σ3.
Proof.
  intros H12 H23. split.
  - rewrite (ev_long _ _ H23). apply H12.
  - rewrite (ev_order _ _ H23). apply H12.
  - rewrite (ev_auto _ _ H23). apply H12.
  - intros ?. by apply H23, H12.
  - intros k Hk. rewrite (ev_mono _ _ H23); rewrite (ev_mono _ _ H12); done.
  - intros k Hk.
    destruct (decide (table_get (fg σ3) k = table_get (fg σ2) k)) as [E|N].
    + rewrite E in Hk |- *. by apply H12.
    + destruct (ev_new _ _ H23 k N) as (Hl & p & kd & Hn & Hp).
      rewrite (ev_long _ _ H12) in Hl. split; [done|].
      exists p, kd. split; [done|]. by apply (evolves_heap_Some _ _ p H12).
  - intros p. pose proof (ev_heap _ _ H12 p) as Ha.
    pose proof (ev_heap _ _ H23 p) as Hb.
    destruct (heap σ1 !! p), (heap σ2 !! p), (heap σ3 !! p);
      inversion Ha; inversion Hb; subst; constructor.
    by eapply flag_le_trans.
Qed.

Lemma evolves_store σ p fc fc' :
  heap σ !! p = Some fc → flag_le fc fc' →
  evolves σ (with_heap σ (<[p := fc']> (heap σ))).
Proof.
  intros Hp Hle. split; simpl; auto; [done|].
  intros q. destruct (decide (p = q)) as [<-|Hne].
  - rewrite lookup_insert_eq, Hp. by constructor.
  - rewrite lookup_insert_ne by done.
    destruct (heap σ !! q); constructor. apply flag_le_refl.
Qed.

(** What [FlagClause.addAlias] returns and leaves: an error when the
    spelling is in the flag's map under another kind, else the entry. *)
Lemma FlagClause_addAlias_Returns f a k σ r σ' :
  FlagClause_addAlias f a k σ = Returns r σ' →
  ∃ fc, heap σ !! f = Some fc ∧
    ((∃ k', amap_get (entries fc) a = Some k' ∧ k' ≠ k ∧
            r = Some (errAlreadyExist a) ∧
            σ' = with_heap σ (<[f := with_aliases fc (entries fc)]> (heap σ)))
     ∨ (amap_get (entries fc) a = Some k ∧ r = None ∧
        σ' = with_heap σ (<[f := with_aliases fc (entries fc)]> (heap σ)))
     ∨ (amap_get (entries fc) a = None ∧ r = None ∧
        σ' = with_heap σ
               (<[f := with_aliases fc (entries fc ++ [(a, k)])]> (heap σ)))).
Proof.
  unfold FlagClause_addAlias. intros H. minv H.
  exists a0. split; [done|]. fold (entries a0) in *.
  destruct (amap_get (entries a0) a) as [k'|] eqn:Hg.
  - case_decide as Hk.
    + minv H. left. by exists k'.
    + subst k'. minv H.
      right; left. rewrite amap_set_same by done.
      unfold with_heap; simpl. by rewrite insert_insert_eq.
  - minv H. right; right. rewrite amap_set_new by done.
    unfold with_heap; simpl. by rewrite insert_insert_eq.
Qed.

Lemma flag_le_with_aliases fc m :
  entries fc `prefix_of` m → flag_le fc (with_aliases fc m).
Proof. intros Hm. split; simpl; eauto using ptr_le_refl. Qed.

Lemma FlagClause_addAlias_evolves f a k σ r σ' :
  FlagClause_addAlias f a k σ = Returns r σ' →
  evolves σ σ' ∧ fg σ' = fg σ.
Proof.
  intros (fc & Hf & [(k' & _ & _ & _ & ->) | [(_ & _ & ->) | (_ & _ & ->)]])
    %FlagClause_addAlias_Returns; (split; [|done]);
    apply (evolves_store _ _ fc); try done; apply flag_le_with_aliases;
    try done. by apply prefix_app_r.
Qed.

Lemma table_get_set g t name a k :
  aliases g = Some t →
  table_get (mkGroup (long g) (flagOrder g) (Some (<[name := a]> t))
               (autoShortcut g)) k =
  if decide (name = k) then a else table_get g k.
Proof.
  intros Ht. unfold table_get; simpl. rewrite Ht.
  rewrite lookup_insert. by case_decide.
Qed.

Lemma table_set_Returns name a σ u σ' :
  table_set name a σ = Returns u σ' →
  ∃ t, aliases (fg σ) = Some t ∧
       σ' = mkState (heap σ)
              (mkGroup (long (fg σ)) (flagOrder (fg σ))
                 (Some (<[name := a]> t)) (autoShortcut (fg σ))).
Proof.
  unfold table_set. intros H. minv H.
  destruct (aliases (fg σ)) as [t|] eqn:Ht; [|done].
  exists t. split; [done|]. unfold set_aliases in H. by injection H as <-.
Qed.

(** The write of [addGroupAlias], after its two checks have passed. *)
Lemma table_set_evolves name flag kind σ u σ' :
  table_set name (mkAlias (Some flag) kind) σ = Returns u σ' →
  is_Some (heap σ !! flag) →
  long (fg σ) !! name = None →
  ¬ (live (table_get (fg σ) name) ∧
     table_get (fg σ) name ≠ mkAlias (Some flag) kind) →
  evolves σ σ' ∧
  table_get (fg σ') name = mkAlias (Some flag) kind ∧
  (∀ k, k ≠ name → table_get (fg σ') k = table_get (fg σ) k) ∧
  heap σ' = heap σ.
Proof.
  intros (t & Ht & ->)%table_set_Returns Hflag Hlong Hok.
  assert (Hget : ∀ k, table_get (fg (mkState (heap σ)
              (mkGroup (long (fg σ)) (flagOrder (fg σ))
                 (Some (<[name := mkAlias (Some flag) kind]> t))
                 (autoShortcut (fg σ))))) k =
            if decide (name = k) then mkAlias (Some flag) kind
            else table_get (fg σ) k).
  { intros k. simpl. by apply table_get_set. }
  split; [|split; [|split]].
  - split; simpl; auto.
    + intros k Hk. rewrite table_get_set by done. case_decide; [|done].
      subst k. destruct (decide (table_get (fg σ) name
                                 = mkAlias (Some flag) kind)); [done|].
      destruct Hok. done.
    + intros k. rewrite table_get_set by done. case_decide; [|done].
      subst k. intros _. split; [done|]. eauto.
    + intros p. destruct (heap σ !! p); constructor. apply flag_le_refl.
  - rewrite Hget. by case_decide.
  - intros k Hk. rewrite Hget. by case_decide.
  - done.
Qed.

(** The second check of [addGroupAlias]: the spelling is taken, by
    another flag or under another kind. *)
Lemma conflict_spec a flag kind :
  bool_decide (alias_kind a ≠ aliasNone)
  && (bool_decide (alias_kind a ≠ kind)
      || bool_decide (alias_flag a ≠ Some flag)) = true ↔
  live a ∧ a ≠ mkAlias (Some flag) kind.
Proof.
  unfold live. destruct a as [p kd]; simpl.
  rewrite andb_true_iff, orb_true_iff, !bool_decide_eq_true.
  split.
  - intros [Hl [Hk|Hp]]; (split; [done|]); intros [= ? ?]; done.
  - intros [Hl Hne]. split; [done|].
    destruct (decide (kd = kind)) as [->|]; [|by left].
    right. intros ->. done.
Qed.

Lemma addNegativeAlias_with_evolves g name flag kind σ r σ' :
  (∀ nm s r' s', g nm flag aliasNegative s = Returns r' s' →
                 evolves s s' ∧ frames nm aliasNegative s s') →
  addNegativeAlias_with g name flag kind σ = Returns r σ' →
  is_Some (heap σ !! flag) ∧ evolves σ σ' ∧
  (∀ k, k ≠ "no-" +:+ name → k ≠ "n" +:+ name →
        table_get (fg σ') k = table_get (fg σ) k) ∧
  (kind = aliasNegative → σ' = σ).
Proof.
  intros Hg H. unfold addNegativeAlias_with in H. minv H.
  split; [eauto|].
  assert (Hfr : ∀ nm s r' s', g nm flag aliasNegative s = Returns r' s' →
            ∀ k, k ≠ nm → table_get (fg s') k = table_get (fg s) k).
  { intros nm s r' s' Hs k Hk. apply Hg in Hs as [_ Hs]. apply Hs.
    unfold touches. intros [?|[? _]]; done. }
  destruct (bool_decide (kind ≠ aliasNegative)) eqn:Hkind; simpl in H.
  2: { minv H. apply bool_decide_eq_false in Hkind.
       split; [apply evolves_refl|]. split; [done|done]. }
  apply bool_decide_eq_true in Hkind.
  destruct (isSwitchValue (flag_value a)); simpl in H.
  2: { minv H. split; [apply evolves_refl|]. split; [done|done]. }
  apply try_Returns in H as [(e & H & ->) | (σ1 & H1 & H)].
  { split; [by apply Hg in H as [? _]|]. split; [|done].
    intros k Hk _. by eapply Hfr. }
  destruct (bool_decide (String.length name ≤ 3)%nat
            && negb (strings.Contains name hyphen)).
  2: { minv H. split; [by apply Hg in H1 as [? _]|]. split; [|done].
       intros k Hk _. by eapply Hfr. }
  apply try_Returns in H as [(e & H & ->) | (σ2 & H2 & H)].
  - split; [eapply evolves_trans; [by apply Hg in H1 as [? _]
                                  | by apply Hg in H as [? _]]|].
    split; [|done]. intros k Hk1 Hk2.
    rewrite (Hfr _ _ _ _ H k Hk2). by eapply Hfr.
  - minv H.
    split; [eapply evolves_trans; [by apply Hg in H1 as [? _]
                                  | by apply Hg in H2 as [? _]]|].
    split; [|done]. intros k Hk1 Hk2.
    rewrite (Hfr _ _ _ _ H2 k Hk2). by eapply Hfr.
Qed.

Lemma frames_of_negative name kind σ σ' :
  (∀ k, k ≠ "no-" +:+ name → k ≠ "n" +:+ name →
        table_get (fg σ') k = table_get (fg σ) k) →
  (kind = aliasNegative → σ' = σ) →
  frames name kind σ σ'.
Proof.
  intros Hfr Hneg k Hk. destruct (decide (kind = aliasNegative)) as [E|N].
  - by rewrite (Hneg E).
  - apply Hfr; intros ->; apply Hk; right; auto.
Qed.

Lemma addGroupAlias_fuel_evolves n name flag kind σ r σ' :
  addGroupAlias_fuel n name flag kind σ = Returns r σ' →
  evolves σ σ' ∧ frames name kind σ σ'.
Proof.
  revert name kind σ r σ'.
  induction n as [|n IH]; intros name kind σ r σ' H; [done|].
  cbn [addGroupAlias_fuel] in H. unfold addGroupAlias_body in H. minv H.
  destruct (long (fg σ) !! name) as [existing|] eqn:Hlong.
  { minv H. split; [apply evolves_refl | done]. }
  match type of H with
  | context [if ?b then _ else _] => destruct b eqn:Hc
  end.
  { minv H. split; [apply evolves_refl | done]. }
  apply not_true_iff_false in Hc. rewrite conflict_spec in Hc.
  apply try_Returns in H as [(e & H & ->) | (σ1 & H1 & H)].
  { apply addNegativeAlias_with_evolves in H as (_ & Hev & Hfr & Hneg);
      [|intros ? ? ? ?; apply IH].
    split; [done|]. by apply frames_of_negative. }
  apply addNegativeAlias_with_evolves in H1 as (Hflag & Hev1 & Hfr1 & Hneg1);
    [|intros ? ? ? ?; apply IH].
  apply bind_Returns in H as (u & σ2 & Hset & H).
  apply bind_Returns in H as (r3 & σ3 & Hadd & H).
  apply table_set_evolves in Hset as (Hev2 & _ & Hfr2 & _).
  2: { by apply (evolves_heap_Some _ _ flag Hev1). }
  2: { by rewrite (ev_long _ _ Hev1). }
  2: { rewrite Hfr1; [done|..]; intros E; symmetry in E;
       [by apply no_prefix_ne in E | by apply n_prefix_ne in E]. }
  apply FlagClause_addAlias_evolves in Hadd as [Hev3 Hfg].
  assert (evolves σ σ3 ∧ frames name kind σ σ3) as [Hev Hfr].
  { split.
    - eapply evolves_trans; [exact Hev1|].
      eapply evolves_trans; [exact Hev2 | exact Hev3].
    - intros k Hk. rewrite Hfg, Hfr2 by (intros ->; apply Hk; by left).
      by apply (frames_of_negative name kind σ σ1). }
  destruct r3 as [e|]; minv H; done.
Qed.

(** ** The fuel is enough *)

Lemma addNegativeAlias_with_ext g g' name flag kind σ :
  (∀ nm s, g nm flag aliasNegative s = g' nm flag aliasNegative s) →
  addNegativeAlias_with g name flag kind σ =
  addNegativeAlias_with g' name flag kind σ.
Proof.
  intros Hg. unfold addNegativeAlias_with, try, bind.
  destruct (load flag σ) as [fc σ1| |]; [|done..].
  destruct (_ && _); [|done].
  rewrite Hg. destruct (g' _ flag aliasNegative σ1) as [[e|] σ2| |]; try done.
  destruct (_ && _); [|done].
  by rewrite Hg.
Qed.

Lemma addNegativeAlias_with_negative g name flag σ :
  addNegativeAlias_with g name flag aliasNegative σ =
  (let* _ := load flag in ret None) σ.
Proof.
  unfold addNegativeAlias_with, bind.
  by destruct (load flag σ) as [fc σ1| |].
Qed.

Lemma addGroupAlias_body_ext g g' name flag kind σ :
  (∀ s, g name flag kind s = g' name flag kind s) →
  addGroupAlias_body g name flag kind σ =
  addGroupAlias_body g' name flag kind σ.
Proof.
  intros Hg. unfold addGroupAlias_body, try, bind, group.
  destruct (long (fg σ) !! name); [done|]. cbn zeta.
  destruct (_ && _); [done|]. by rewrite Hg.
Qed.

Lemma addGroupAlias_fuel_negative n m name flag σ :
  addGroupAlias_fuel (S n) name flag aliasNegative σ =
  addGroupAlias_fuel (S m) name flag aliasNegative σ.
Proof.
  cbn [addGroupAlias_fuel]. apply addGroupAlias_body_ext.
  intros s. by rewrite !addNegativeAlias_with_negative.
Qed.

Lemma addGroupAlias_fuel_enough n name flag kind σ :
  addGroupAlias_fuel (S (S n)) name flag kind σ =
  addGroupAlias name flag kind σ.
Proof.
  unfold addGroupAlias.
  change (addGroupAlias_fuel (S (S n))) with
    (addGroupAlias_body (addNegativeAlias_with (addGroupAlias_fuel (S n)))).
  change (addGroupAlias_fuel 2) with
    (addGroupAlias_body (addNegativeAlias_with (addGroupAlias_fuel 1))).
  apply addGroupAlias_body_ext. intros s.
  apply addNegativeAlias_with_ext. intros nm s'.
  apply addGroupAlias_fuel_negative.
Qed.

(** The equation of [addGroupAlias], as the source has it. *)
Lemma addGroupAlias_unfold name flag kind σ :
  addGroupAlias name flag kind σ =
  addGroupAlias_body addNegativeAlias name flag kind σ.
Proof.
  unfold addGroupAlias at 1.
  change (addGroupAlias_fuel 2) with
    (addGroupAlias_body (addNegativeAlias_with (addGroupAlias_fuel 1))).
  apply addGroupAlias_body_ext. intros s. unfold addNegativeAlias.
  apply addNegativeAlias_with_ext. intros nm s'.
  apply addGroupAlias_fuel_negative.
Qed.

(** [addGroupAlias] never runs out of fuel. *)

Lemma fueled_bind {A B} (m : M A) (k : A → M B) σ :
  fueled m σ → (∀ a σ', m σ = Returns a σ' → fueled (k a) σ') →
  fueled (bind m k) σ.
Proof.
  unfold fueled, bind. intros Hm Hk.
  destruct (m σ) as [a σ'| |]; [by apply Hk | done | done].
Qed.

Lemma fueled_try (m k : M error) σ :
  fueled m σ → (∀ σ', m σ = Returns None σ' → fueled k σ') →
  fueled (try m k) σ.
Proof.
  intros Hm Hk. apply fueled_bind; [done|].
  intros [e|] σ' Hr; [done | by apply Hk].
Qed.

Lemma fueled_load p σ : fueled (load p) σ.
Proof. unfold fueled, load. by destruct (heap σ !! p). Qed.

Lemma fueled_load_opt p σ : fueled (load_opt p) σ.
Proof. destruct p; [apply fueled_load | done]. Qed.

Lemma fueled_table_set name a σ : fueled (table_set name a) σ.
Proof.
  unfold table_set. apply fueled_bind; [done|].
  intros g σ' _. by destruct (aliases g).
Qed.

Lemma fueled_FlagClause_addAlias f a k σ : fueled (FlagClause_addAlias f a k) σ.
Proof.
  unfold FlagClause_addAlias. apply fueled_bind; [apply fueled_load|].
  intros fc σ1 _. apply fueled_bind; [done|]. intros _ σ2 _.
  destruct (amap_get _ _); [case_decide; [done|]|];
    (apply fueled_bind; [done|]); done.
Qed.

Lemma fueled_addNegativeAlias_with g name flag kind σ :
  (∀ nm s, fueled (g nm flag aliasNegative) s) →
  fueled (addNegativeAlias_with g name flag kind) σ.
Proof.
  intros Hg. unfold addNegativeAlias_with.
  apply fueled_bind; [apply fueled_load|]. intros fc σ1 _.
  destruct (_ && _); [|done].
  apply fueled_try; [apply Hg|]. intros σ2 _.
  destruct (_ && _); [|done].
  apply fueled_try; [apply Hg|]. done.
Qed.

Lemma fueled_addGroupAlias_body g name flag kind σ :
  (∀ s, fueled (g name flag kind) s) →
  fueled (addGroupAlias_body g name flag kind) σ.
Proof.
  intros Hg. unfold addGroupAlias_body.
  apply fueled_bind; [done|]. intros gr σ1 _.
  destruct (long gr !! name).
  { apply fueled_bind; [apply fueled_load|]. intros fc σ2 _.
    apply fueled_bind; [apply fueled_load|]. done. }
  cbn zeta. destruct (_ && _).
  { apply fueled_bind; [apply fueled_load|]. intros fc σ2 _.
    apply fueled_bind; [apply fueled_load_opt|]. done. }
  apply fueled_try; [apply Hg|]. intros σ2 _.
  apply fueled_bind; [apply fueled_table_set|]. intros _ σ3 _.
  apply fueled_bind; [apply fueled_FlagClause_addAlias|].
  intros [e|] σ4 _; [|done].
  apply fueled_bind; [apply fueled_load|]. done.
Qed.

Lemma addGroupAlias_fuel_total n name flag kind σ :
  fueled (addGroupAlias_fuel (S (S n)) name flag kind) σ.
Proof.
  cbn [addGroupAlias_fuel]. apply fueled_addGroupAlias_body. intros s.
  apply fueled_addNegativeAlias_with. intros nm s'.
  apply fueled_addGroupAlias_body. intros s''.
  unfold fueled. by rewrite addNegativeAlias_with_negative;
    apply (fueled_bind (load flag)); [apply fueled_load|].
Qed.

(** ** The steps of the build *)

Lemma addGroupAlias_evolves name flag kind σ r σ' :
  addGroupAlias name flag kind σ = Returns r σ' →
  evolves σ σ' ∧ frames name kind σ σ'.
Proof. apply addGroupAlias_fuel_evolves. Qed.

Lemma addNegativeAlias_evolves name flag kind σ r σ' :
  addNegativeAlias name flag kind σ = Returns r σ' →
  is_Some (heap σ !! flag) ∧ evolves σ σ' ∧
  (∀ k, k ≠ "no-" +:+ name → k ≠ "n" +:+ name →
        table_get (fg σ') k = table_get (fg σ) k) ∧
  (kind = aliasNegative → σ' = σ).
Proof.
  apply addNegativeAlias_with_evolves. intros nm s r' s'.
  apply addGroupAlias_evolves.
Qed.

Lemma isSwitch_evolves σ σ' flag :
  evolves σ σ' → isSwitch σ flag ↔ isSwitch σ' flag.
Proof.
  intros Hev. unfold isSwitch. pose proof (ev_heap _ _ Hev flag) as Hh.
  inversion Hh as [a b Hab Ha Hb|]; [|split; intros (? & ? & _); congruence].
  split; intros (fc & Hfc & Hs); simplify_eq.
  - exists b. by rewrite (fl_value _ _ Hab).
  - exists a. by rewrite <- (fl_value _ _ Hab).
Qed.

(** A successful registration: the checks passed, the entry is written
    in the table and in the flag's own map. *)
Lemma addGroupAlias_ok name flag kind σ σ' :
  addGroupAlias name flag kind σ = Returns None σ' →
  long (fg σ) !! name = None ∧
  ¬ (live (table_get (fg σ) name) ∧
     table_get (fg σ) name ≠ mkAlias (Some flag) kind) ∧
  table_get (fg σ') name = mkAlias (Some flag) kind ∧
  (∃ fc', heap σ' !! flag = Some fc' ∧
          amap_get (entries fc') name = Some kind) ∧
  ∃ σ1, addNegativeAlias name flag kind σ = Returns None σ1 ∧ evolves σ1 σ' ∧
        ∀ k, k ≠ name → table_get (fg σ') k = table_get (fg σ1) k.
Proof.
  rewrite addGroupAlias_unfold. unfold addGroupAlias_body. intros H.
  apply bind_Returns in H as (g & σ0 & Hg & H). minv Hg.
  destruct (long (fg σ) !! name) eqn:Hlong; [by minv H|].
  cbn zeta in H.
  match type of H with
  | context [if ?b then _ else _] => destruct b eqn:Hc
  end; [by minv H|].
  apply not_true_iff_false in Hc. rewrite conflict_spec in Hc.
  apply try_Returns in H as [(e & _ & [=]) | (σ1 & Hneg & H)].
  apply bind_Returns in H as (u & σ2 & Hset & H).
  apply bind_Returns in H as (r3 & σ3 & Hadd & H).
  destruct r3 as [e|]; [by minv H|]. minv H.
  pose proof Hneg as (Hflag & Hev1 & Hfr1 & _)%addNegativeAlias_evolves.
  apply table_set_evolves in Hset as (Hev2 & Hent & Hfr2 & Hheap).
  2: { by apply (evolves_heap_Some _ _ flag Hev1). }
  2: { by rewrite (ev_long _ _ Hev1). }
  2: { rewrite Hfr1; [done|..]; intros E; symmetry in E;
       [by apply no_prefix_ne in E | by apply n_prefix_ne in E]. }
  pose proof Hadd as [Hev3 Hfg]%FlagClause_addAlias_evolves.
  split; [done|]. split; [done|]. split; [by rewrite Hfg|]. split.
  - apply FlagClause_addAlias_Returns in Hadd
      as (fc & Hfc & [(k' & _ & _ & [=] & _) | [(Hk & _ & ->) | (Hk & _ & ->)]]);
      simpl; rewrite lookup_insert_eq; eexists; (split; [done|]);
      unfold entries; simpl; [done|].
    rewrite amap_get_app. fold (entries fc). rewrite Hk. simpl.
    by case_decide.
  - exists σ1. split; [done|]. split; [by eapply evolves_trans|].
    intros k Hk. rewrite Hfg. by apply Hfr2.
Qed.

(** What a successful [addNegativeAlias] registers for a switch. *)
Lemma addNegativeAlias_ok name flag kind σ σ' :
  addNegativeAlias name flag kind σ = Returns None σ' →
  kind ≠ aliasNegative → isSwitch σ flag →
  table_get (fg σ') ("no-" +:+ name) = negativeOf flag ∧
  (shortName name = true →
   table_get (fg σ') ("n" +:+ name) = negativeOf flag).
Proof.
  unfold addNegativeAlias, addNegativeAlias_with.
  intros H Hkind (fc & Hfc & Hsw).
  apply bind_Returns in H as (fc' & σ0 & Hl & H). minv Hl.
  rewrite bool_decide_eq_true_2, Hsw in H by done. simpl in H.
  apply try_Returns in H as [(e & _ & [=]) | (σ1 & H1 & H)].
  pose proof H1 as (_ & _ & Hno & _ & _)%addGroupAlias_ok.
  fold (shortName name) in H. destruct (shortName name).
  - apply try_Returns in H as [(e & _ & [=]) | (σ2 & H2 & H)]. minv H.
    pose proof H2 as (_ & _ & Hn & _ & _)%addGroupAlias_ok.
    apply addGroupAlias_evolves in H2 as [Hev2 _].
    split; [|done]. rewrite (ev_mono _ _ Hev2); [done|]. by rewrite Hno.
  - minv H. done.
Qed.

(** A call of [addNegativeAlias] for a name that is not short leaves the
    spelling ["n" + name] as it was. *)
Lemma addNegativeAlias_long name flag kind σ r σ' :
  addNegativeAlias name flag kind σ = Returns r σ' →
  shortName name = false →
  table_get (fg σ') ("n" +:+ name) = table_get (fg σ) ("n" +:+ name).
Proof.
  unfold addNegativeAlias, addNegativeAlias_with. intros H Hshort.
  apply bind_Returns in H as (fc' & σ0 & Hl & H). minv Hl.
  destruct (_ && _); [|by minv H].
  fold (shortName name) in H. rewrite Hshort in H.
  assert (Hfr : ∀ r1 σ1,
    addGroupAlias ("no-" +:+ name) flag aliasNegative σ = Returns r1 σ1 →
    table_get (fg σ1) ("n" +:+ name) = table_get (fg σ) ("n" +:+ name)).
  { intros r1 σ1 [_ Hfr]%addGroupAlias_evolves. apply Hfr.
    intros [E|[? _]]; [|done]. symmetry in E. by apply no_n_prefix_ne in E. }
  apply try_Returns in H as [(e & H & ->) | (σ1 & H1 & H)];
    [by eapply Hfr|]. minv H. by eapply Hfr.
Qed.

(** A flag that is not a switch gets no negative alias. *)
Lemma addNegativeAlias_not_switch name flag kind σ fc :
  heap σ !! flag = Some fc → isSwitchValue (flag_value fc) = false →
  addNegativeAlias name flag kind σ = Returns None σ.
Proof.
  intros Hfc Hsw. unfold addNegativeAlias, addNegativeAlias_with, bind, load.
  rewrite Hfc, Hsw. by rewrite andb_false_r.
Qed.

Lemma sound_step_refl σ : sound_step σ σ.
Proof. by intros k Hk. Qed.

Lemma sound_step_trans σ1 σ2 σ3 :
  evolves σ1 σ2 → sound_step σ1 σ2 → sound_step σ2 σ3 → sound_step σ1 σ3.
Proof.
  intros Hev H12 H23 k Hk.
  destruct (decide (table_get (fg σ3) k = table_get (fg σ2) k)) as [E|N].
  - rewrite E in Hk |- *. by apply H12.
  - destruct (H23 k N) as (p & kd & Hent & Hkd & Hsw).
    exists p, kd. split; [done|]. split; [done|].
    intros ?. apply (isSwitch_evolves _ _ p Hev). auto.
Qed.

Lemma addNegativeAlias_writes name flag kind σ σ' :
  addNegativeAlias name flag kind σ = Returns None σ' →
  ∀ k, table_get (fg σ') k ≠ table_get (fg σ) k →
       table_get (fg σ') k = negativeOf flag ∧ isSwitch σ flag ∧
       kind ≠ aliasNegative ∧
       (k = "no-" +:+ name ∨ (k = "n" +:+ name ∧ shortName name = true)).
Proof.
  intros H k Hk.
  pose proof H as (Hflag & _ & Hfr & Hneg)%addNegativeAlias_evolves.
  destruct (decide (kind = aliasNegative)) as [E|Hkind].
  { rewrite (Hneg E) in Hk. done. }
  destruct Hflag as [fc Hfc].
  destruct (isSwitchValue (flag_value fc)) eqn:Hsw.
  2: { rewrite (addNegativeAlias_not_switch _ _ _ _ fc) in H by done.
       injection H as <-. done. }
  assert (isSwitch σ flag) as Hs by (by exists fc).
  destruct (addNegativeAlias_ok _ _ _ _ _ H Hkind Hs) as [Hno Hn].
  destruct (decide (k = "no-" +:+ name)) as [->|Hk1].
  { repeat split; auto. }
  destruct (decide (k = "n" +:+ name)) as [->|Hk2].
  - destruct (shortName name) eqn:Hshort.
    { repeat split; auto. }
    by rewrite (addNegativeAlias_long _ _ _ _ _ _ H Hshort) in Hk.
  - by rewrite Hfr in Hk.
Qed.

Lemma addGroupAlias_writes name flag kind σ σ' :
  addGroupAlias name flag kind σ = Returns None σ' →
  ∀ k, table_get (fg σ') k ≠ table_get (fg σ) k →
       (k = name ∧ table_get (fg σ') k = mkAlias (Some flag) kind) ∨
       (table_get (fg σ') k = negativeOf flag ∧ isSwitch σ flag ∧
        kind ≠ aliasNegative ∧
        (k = "no-" +:+ name ∨ (k = "n" +:+ name ∧ shortName name = true))).
Proof.
  intros (_ & _ & Hent & _ & σ1 & Hneg & _ & Hfr)%addGroupAlias_ok k Hk.
  destruct (decide (k = name)) as [->|Hne]; [by left|]. right.
  rewrite Hfr in Hk |- * by done.
  by apply (addNegativeAlias_writes name flag kind σ σ1).
Qed.

Lemma addNegativeAlias_sound name flag kind σ σ' :
  addNegativeAlias name flag kind σ = Returns None σ' → sound_step σ σ'.
Proof.
  intros H k Hk.
  destruct (addNegativeAlias_writes _ _ _ _ _ H k Hk) as (Hent & Hs & _).
  exists flag, aliasNegative. by rewrite Hent.
Qed.

Lemma addGroupAlias_sound name flag kind σ σ' :
  addGroupAlias name flag kind σ = Returns None σ' →
  kind ≠ aliasNone → kind ≠ aliasNegative → sound_step σ σ'.
Proof.
  intros H Hk1 Hk2 k Hk.
  destruct (addGroupAlias_writes _ _ _ _ _ H k Hk)
    as [[-> Hent] | (Hent & Hs & _)].
  - exists flag, kind. by rewrite Hent.
  - exists flag, aliasNegative. by rewrite Hent.
Qed.

(** ** [addShortcut] *)

Lemma flag_le_with_autoShortcut fc : flag_le fc (with_autoShortcut fc).
Proof.
  split; simpl; auto.
  unfold ptr_le. destruct (flag_autoShortcut fc); auto.
Qed.

Lemma addShortcut_Returns name flag σ r σ' :
  addShortcut name flag σ = Returns r σ' →
  ∃ fc, heap σ !! flag = Some fc ∧
    let σ1 := with_heap σ (<[flag := with_autoShortcut fc]> (heap σ)) in
    evolves σ σ1 ∧
    ((synthesizes (fg σ) fc name = false ∧ r = None ∧ σ' = σ1) ∨
     (synthesizes (fg σ) fc name = true ∧
      ∃ sc, shortcutOf (strings.Split name hyphen) = Some sc ∧
            (check addGroupAlias sc flag aliasShortcut in
             addNegativeAlias sc flag aliasShortcut) σ1 = Returns r σ')).
Proof.
  unfold addShortcut. intros H.
  apply bind_Returns in H as (fc & σ0 & Hl & H). minv Hl.
  exists fc. split; [done|]. cbn zeta.
  split; [apply (evolves_store _ _ fc); [done|];
          apply flag_le_with_autoShortcut|].
  apply bind_Returns in H as (u & σ1 & Hst & H). minv Hst.
  apply bind_Returns in H as (g & σ1 & Hg & H). minv Hg.
  apply bind_Returns in H as (enabled & σ1 & Hd & H).
  assert (enabled = autoShortcutOf (fg σ) fc ∧
          σ1 = with_heap σ (<[flag := with_autoShortcut fc]> (heap σ)))
    as [-> ->].
  { revert Hd. unfold autoShortcutOf, with_autoShortcut, with_heap.
    destruct (flag_autoShortcut fc); simpl; intros Hd; by minv Hd. }
  unfold synthesizes.
  destruct (autoShortcutOf (fg σ) fc); simpl in *.
  2: { minv H. by left. }
  destruct (bool_decide (flag_shorthand fc ≠ 0)
            && negb (strings.Contains name hyphen)); simpl in *.
  { minv H. by left. }
  right. split; [done|].
  destruct (shortcutOf (strings.Split name hyphen)) as [sc|]; [|done].
  by exists sc.
Qed.

Lemma addShortcut_evolves name flag σ r σ' :
  addShortcut name flag σ = Returns r σ' → evolves σ σ'.
Proof.
  intros (fc & Hfc & Hev1 & [(_ & _ & ->) | (_ & sc & _ & H)])
    %addShortcut_Returns; [done|].
  eapply evolves_trans; [exact Hev1|].
  apply try_Returns in H as [(e & H & ->) | (σ2 & H2 & H)].
  - by apply addGroupAlias_evolves in H as [? _].
  - apply addGroupAlias_evolves in H2 as [? _].
    apply addNegativeAlias_evolves in H as (_ & ? & _).
    by eapply evolves_trans.
Qed.

Lemma autoShortcutOf_le g fc fc' :
  flag_le fc fc' → autoShortcutOf g fc' = autoShortcutOf g fc.
Proof.
  intros Hle. unfold autoShortcutOf.
  by destruct (fl_ptr _ _ Hle) as [->|[-> ->]].
Qed.

Lemma synthesizes_le g fc fc' name :
  flag_le fc fc' → synthesizes g fc' name = synthesizes g fc name.
Proof.
  intros Hle. unfold synthesizes.
  by rewrite (autoShortcutOf_le _ _ _ Hle), (fl_shorthand _ _ Hle).
Qed.

(** What a successful [addShortcut] registers. *)
Lemma addShortcut_ok name flag σ σ' fc :
  addShortcut name flag σ = Returns None σ' →
  heap σ !! flag = Some fc → synthesizes (fg σ) fc name = true →
  ∃ sc, shortcutOf (strings.Split name hyphen) = Some sc ∧
        table_get (fg σ') sc = mkAlias (Some flag) aliasShortcut ∧
        (isSwitchValue (flag_value fc) = true →
         table_get (fg σ') ("no-" +:+ sc) = negativeOf flag ∧
         (shortName sc = true →
          table_get (fg σ') ("n" +:+ sc) = negativeOf flag)).
Proof.
  intros (fc' & Hfc' & Hev1 & [(Hs & _) | (_ & sc & Hsc & H)])
    %addShortcut_Returns Hfc Hsyn; simplify_eq; [congruence|].
  exists sc. split; [done|].
  apply try_Returns in H as [(e & _ & [=]) | (σ2 & H2 & H)].
  pose proof H2 as (_ & _ & Hent & _)%addGroupAlias_ok.
  pose proof H2 as [Hev2 _]%addGroupAlias_evolves.
  pose proof H as (_ & Hev3 & _)%addNegativeAlias_evolves.
  split; [by rewrite (ev_mono _ _ Hev3) by (by rewrite Hent)|].
  intros Hsw. apply (addNegativeAlias_ok _ _ _ _ _ H); [done|].
  apply (isSwitch_evolves _ _ flag (evolves_trans _ _ _ Hev1 Hev2)).
  by exists fc'.
Qed.

Lemma addShortcut_sound name flag σ σ' :
  addShortcut name flag σ = Returns None σ' → sound_step σ σ'.
Proof.
  intros (fc & Hfc & Hev1 & [(_ & _ & ->) | (_ & sc & _ & H)])
    %addShortcut_Returns; [by intros k Hk|].
  apply try_Returns in H as [(e & _ & [=]) | (σ2 & H2 & H)].
  eapply sound_step_trans; [exact Hev1 | by intros k Hk |].
  eapply sound_step_trans; [by apply addGroupAlias_evolves in H2 as [? _]|..].
  - by eapply addGroupAlias_sound.
  - by eapply addNegativeAlias_sound.
Qed.

(** ** The loops of [ensureAliases] *)

Lemma registered_evolves σ σ' k flag kind :
  evolves σ σ' → kind ≠ aliasNone →
  registered σ k flag kind → registered σ' k flag kind.
Proof.
  unfold registered. intros Hev Hk Hr.
  rewrite (ev_mono _ _ Hev); [done|]. by rewrite Hr.
Qed.

Lemma evolves_flag σ σ' flag fc :
  evolves σ σ' → heap σ !! flag = Some fc →
  ∃ fc', heap σ' !! flag = Some fc' ∧ flag_le fc fc'.
Proof.
  intros Hev Hfc. pose proof (ev_heap _ _ Hev flag) as Hh.
  rewrite Hfc in Hh. inversion Hh; eauto.
Qed.

Lemma synthesizes_evolves σ σ' flag fc fc' name :
  evolves σ σ' → heap σ !! flag = Some fc → heap σ' !! flag = Some fc' →
  synthesizes (fg σ') fc' name = synthesizes (fg σ) fc name.
Proof.
  intros Hev Hfc Hfc'.
  destruct (evolves_flag _ _ _ _ Hev Hfc) as (fc2 & ? & Hle). simplify_eq.
  rewrite (synthesizes_le _ _ _ _ Hle). unfold synthesizes, autoShortcutOf.
  by rewrite (ev_auto _ _ Hev).
Qed.

Lemma negatives_evolves σ σ' name flag :
  evolves σ σ' → negatives σ name flag → negatives σ' name flag.
Proof.
  intros Hev [H1 H2]. split; [|intros Hs; specialize (H2 Hs)];
    by eapply registered_evolves.
Qed.

Lemma spellingBuilt_evolves g fc σ σ' flag name :
  evolves σ σ' → spellingBuilt g fc σ flag name →
  spellingBuilt g fc σ' flag name.
Proof.
  intros Hev [H1 H2]. split.
  - intros Hs. by eapply negatives_evolves; eauto.
  - intros Hsyn. destruct (H2 Hsyn) as (sc & Hsc & H3 & H4).
    exists sc. split; [done|]. split.
    + by eapply registered_evolves.
    + intros Hs. by eapply negatives_evolves; eauto.
Qed.

Lemma ensureFlagAliases_evolves flag es σ r σ' :
  ensureFlagAliases flag es σ = Returns r σ' → evolves σ σ'.
Proof.
  revert σ. induction es as [|[alias kind] es IH]; intros σ H; simpl in H.
  { minv H. apply evolves_refl. }
  case_decide; [by apply IH|].
  apply try_Returns in H as [(e & H & ->) | (σ1 & H1 & H)].
  { by apply addGroupAlias_evolves in H as [? _]. }
  apply addGroupAlias_evolves in H1 as [Hev1 _].
  apply try_Returns in H as [(e & H & ->) | (σ2 & H2 & H)].
  { apply addShortcut_evolves in H. by eapply evolves_trans. }
  apply addShortcut_evolves in H2. apply IH in H.
  eapply evolves_trans; [exact Hev1|]. by eapply evolves_trans.
Qed.

Lemma ensureFlagAliases_sound flag es σ σ' :
  ensureFlagAliases flag es σ = Returns None σ' → sound_step σ σ'.
Proof.
  revert σ. induction es as [|[alias kind] es IH]; intros σ H; simpl in H.
  { minv H. apply sound_step_refl. }
  case_decide as Hk; [by apply IH|].
  assert (kind = aliasName) as -> by (by destruct (decide (kind = aliasName))).
  apply try_Returns in H as [(e & _ & [=]) | (σ1 & H1 & H)].
  apply try_Returns in H as [(e & _ & [=]) | (σ2 & H2 & H)].
  pose proof H1 as [Hev1 _]%addGroupAlias_evolves.
  pose proof H2 as Hev2%addShortcut_evolves.
  eapply sound_step_trans; [exact Hev1 | by eapply addGroupAlias_sound |].
  eapply sound_step_trans; [exact Hev2 | by eapply addShortcut_sound |].
  by apply IH.
Qed.

Lemma ensureFlagAliases_ok flag es σ σ' fc :
  ensureFlagAliases flag es σ = Returns None σ' →
  heap σ !! flag = Some fc →
  ∀ alias, (alias, aliasName) ∈ es →
    registered σ' alias flag aliasName ∧
    spellingBuilt (fg σ) fc σ' flag alias.
Proof.
  revert σ fc.
  induction es as [|[a kind] es IH]; intros σ fc H Hfc alias Hin.
  { by apply elem_of_nil in Hin. }
  simpl in H. case_decide as Hk.
  { apply elem_of_cons in Hin as [[= ? ?]|Hin]; [by subst|]. by eapply IH. }
  assert (kind = aliasName) as -> by (by destruct (decide (kind = aliasName))).
  apply try_Returns in H as [(e & _ & [=]) | (σ1 & H1 & H)].
  apply try_Returns in H as [(e & _ & [=]) | (σ2 & H2 & H)].
  pose proof H1 as [Hev1 _]%addGroupAlias_evolves.
  pose proof H2 as Hev2%addShortcut_evolves.
  pose proof H as Hev3%ensureFlagAliases_evolves.
  destruct (evolves_flag _ _ _ _ Hev1 Hfc) as (fc1 & Hfc1 & Hle1).
  destruct (evolves_flag _ _ _ _ Hev2 Hfc1) as (fc2 & Hfc2 & Hle2).
  apply elem_of_cons in Hin as [[= ->]|Hin].
  - pose proof H1 as (_ & _ & Hent & _ & σn & Hneg & Hevn & _)%addGroupAlias_ok.
    split.
    { eapply registered_evolves; [|done|exact Hent].
      by eapply evolves_trans. }
    eapply spellingBuilt_evolves; [exact Hev3|]. split.
    + intros Hsw. eapply negatives_evolves; [exact Hev2|].
      eapply negatives_evolves; [exact Hevn|].
      apply (addNegativeAlias_ok _ _ _ _ _ Hneg); [done | by exists fc].
    + intros Hsyn.
      destruct (addShortcut_ok _ _ _ _ fc1 H2 Hfc1) as (sc & Hsc & Hr & Hn).
      { by rewrite (synthesizes_evolves σ σ1 flag fc fc1). }
      exists sc. split; [done|]. split; [done|]. intros Hsw. apply Hn.
      by rewrite (fl_value _ _ Hle1).
  - destruct (IH σ2 fc2 H Hfc2 alias Hin) as [Hr [Hn Hs]].
    split; [done|]. split.
    + intros Hsw. apply Hn.
      by rewrite (fl_value _ _ Hle2), (fl_value _ _ Hle1).
    + intros Hsyn.
      destruct Hs as (sc & Hsc & Hr' & Hn').
      { rewrite (synthesizes_evolves σ1 σ2 flag fc1 fc2) by done.
        by rewrite (synthesizes_evolves σ σ1 flag fc fc1). }
      exists sc. split; [done|]. split; [done|]. intros Hsw. apply Hn'.
      by rewrite (fl_value _ _ Hle2), (fl_value _ _ Hle1).
Qed.

Lemma spellingBuilt_le g g' fc fc' σ' flag name :
  flag_le fc fc' → autoShortcut g' = autoShortcut g →
  spellingBuilt g' fc' σ' flag name → spellingBuilt g fc σ' flag name.
Proof.
  intros Hle Hg [H1 H2].
  assert (Hsyn : ∀ nm, synthesizes g' fc' nm = synthesizes g fc nm).
  { intros nm. rewrite (synthesizes_le _ _ _ _ Hle).
    unfold synthesizes, autoShortcutOf. by rewrite Hg. }
  split.
  - intros Hs. apply H1. by rewrite (fl_value _ _ Hle).
  - intros Hsc1. destruct H2 as (sc & Hsc & H3 & H4); [by rewrite Hsyn|].
    exists sc. split; [done|]. split; [done|].
    intros Hs. apply H4. by rewrite (fl_value _ _ Hle).
Qed.

Lemma flagBuilt_le g g' fc fc' σ' flag :
  flag_le fc fc' → autoShortcut g' = autoShortcut g →
  flagBuilt g' fc' σ' flag → flagBuilt g fc σ' flag.
Proof.
  intros Hle Hg [H1 H2]. split.
  - rewrite <- (fl_name _ _ Hle). by eapply spellingBuilt_le.
  - intros alias Hin. destruct (H2 alias) as [H3 H4].
    { destruct (fl_entries _ _ Hle) as [x ->]. apply elem_of_app. by left. }
    split; [done|]. by eapply spellingBuilt_le.
Qed.

Lemma flagBuilt_evolves g fc σ σ' flag :
  evolves σ σ' → flagBuilt g fc σ flag → flagBuilt g fc σ' flag.
Proof.
  intros Hev [H1 H2]. split; [by eapply spellingBuilt_evolves|].
  intros alias Hin. destruct (H2 alias Hin) as [H3 H4]. split.
  - by eapply registered_evolves.
  - by eapply spellingBuilt_evolves.
Qed.

Lemma ensureFlag_evolves flag σ r σ' :
  ensureFlag flag σ = Returns r σ' → evolves σ σ'.
Proof.
  unfold ensureFlag. intros H.
  apply bind_Returns in H as (fc & σ0 & Hl & H). minv Hl.
  apply try_Returns in H as [(e & H & ->) | (σ1 & H1 & H)].
  { by apply addShortcut_evolves in H. }
  apply addShortcut_evolves in H1.
  apply try_Returns in H as [(e & H & ->) | (σ2 & H2 & H)].
  { apply addNegativeAlias_evolves in H as (_ & ? & _).
    by eapply evolves_trans. }
  apply addNegativeAlias_evolves in H2 as (_ & H2 & _).
  apply bind_Returns in H as (fc' & σ3 & Hl' & H). minv Hl'.
  apply ensureFlagAliases_evolves in H.
  eapply evolves_trans; [exact H1|]. by eapply evolves_trans.
Qed.

Lemma ensureFlag_sound flag σ σ' :
  ensureFlag flag σ = Returns None σ' → sound_step σ σ'.
Proof.
  unfold ensureFlag. intros H.
  apply bind_Returns in H as (fc & σ0 & Hl & H). minv Hl.
  apply try_Returns in H as [(e & _ & [=]) | (σ1 & H1 & H)].
  apply try_Returns in H as [(e & _ & [=]) | (σ2 & H2 & H)].
  apply bind_Returns in H as (fc' & σ3 & Hl' & H). minv Hl'.
  pose proof H1 as Hev1%addShortcut_evolves.
  pose proof H2 as (_ & Hev2 & _)%addNegativeAlias_evolves.
  eapply sound_step_trans; [exact Hev1 | by eapply addShortcut_sound |].
  eapply sound_step_trans; [exact Hev2 | by eapply addNegativeAlias_sound |].
  by eapply ensureFlagAliases_sound.
Qed.

Lemma ensureFlag_ok flag σ σ' fc :
  ensureFlag flag σ = Returns None σ' → heap σ !! flag = Some fc →
  flagBuilt (fg σ) fc σ' flag.
Proof.
  unfold ensureFlag. intros H Hfc.
  apply bind_Returns in H as (fc0 & σ0 & Hl & H).
  apply load_Returns in Hl as [Hl ->]. rewrite Hfc in Hl. injection Hl as <-.
  apply try_Returns in H as [(e & _ & [=]) | (σ1 & H1 & H)].
  apply try_Returns in H as [(e & _ & [=]) | (σ2 & H2 & H)].
  apply bind_Returns in H as (fc2 & σ3 & Hfc2 & H). minv Hfc2.
  pose proof H1 as Hev1%addShortcut_evolves.
  pose proof H2 as (_ & Hev2 & _)%addNegativeAlias_evolves.
  pose proof H as Hev3%ensureFlagAliases_evolves.
  pose proof (evolves_trans _ _ _ Hev1 Hev2) as Hev12.
  destruct (evolves_flag _ _ _ _ Hev12 Hfc) as (fc2' & ? & Hle2).
  simplify_eq. split.
  - eapply spellingBuilt_evolves; [exact Hev3|]. split.
    + intros Hsw. apply (addNegativeAlias_ok _ _ _ _ _ H2); [done|].
      apply (isSwitch_evolves _ _ flag Hev1). by exists fc.
    + intros Hsyn.
      destruct (addShortcut_ok _ _ _ _ fc H1 Hfc Hsyn) as (sc & Hsc & Hr & Hn).
      exists sc. split; [done|]. split.
      * by eapply registered_evolves; [exact Hev2 | | exact Hr].
      * intros Hsw. eapply negatives_evolves; [exact Hev2|]. by apply Hn.
  - intros alias Hin.
    destruct (ensureFlagAliases_ok _ _ _ _ fc2 H Hfc2 alias) as [Hr Hs].
    { destruct (fl_entries _ _ Hle2) as [x Hx]. unfold entries in Hx.
      rewrite Hx. apply elem_of_app. by left. }
    split; [done|]. eapply spellingBuilt_le; [exact Hle2| |exact Hs].
    apply (ev_auto _ _ Hev12).
Qed.

Lemma ensureFlags_evolves flags σ r σ' :
  ensureFlags flags σ = Returns r σ' → evolves σ σ'.
Proof.
  revert σ. induction flags as [|flag flags IH]; intros σ H; simpl in H.
  { minv H. apply evolves_refl. }
  apply try_Returns in H as [(e & H & ->) | (σ1 & H1 & H)].
  { by apply ensureFlag_evolves in H. }
  apply ensureFlag_evolves in H1. apply IH in H. by eapply evolves_trans.
Qed.

Lemma ensureFlags_sound flags σ σ' :
  ensureFlags flags σ = Returns None σ' → sound_step σ σ'.
Proof.
  revert σ. induction flags as [|flag flags IH]; intros σ H; simpl in H.
  { minv H. apply sound_step_refl. }
  apply try_Returns in H as [(e & _ & [=]) | (σ1 & H1 & H)].
  eapply sound_step_trans; [by eapply ensureFlag_evolves
                           | by eapply ensureFlag_sound | by apply IH].
Qed.

Lemma ensureFlags_ok flags σ σ' :
  ensureFlags flags σ = Returns None σ' →
  ∀ flag fc, flag ∈ flags → heap σ !! flag = Some fc →
             flagBuilt (fg σ) fc σ' flag.
Proof.
  revert σ. induction flags as [|f flags IH]; intros σ H flag fc Hin Hfc.
  { by apply elem_of_nil in Hin. }
  simpl in H. apply try_Returns in H as [(e & _ & [=]) | (σ1 & H1 & H)].
  pose proof H1 as Hev1%ensureFlag_evolves.
  pose proof H as Hev2%ensureFlags_evolves.
  destruct (decide (flag ∈ flags)) as [Hin'|Hnin].
  - destruct (evolves_flag _ _ _ _ Hev1 Hfc) as (fc1 & Hfc1 & Hle).
    eapply flagBuilt_le; [exact Hle | apply (ev_auto _ _ Hev1) |].
    by eapply IH.
  - apply elem_of_cons in Hin as [->|?]; [|done].
    eapply flagBuilt_evolves; [exact Hev2|]. by apply ensureFlag_ok.
Qed.

Lemma ensureAliases_Returns σ r σ' :
  ensureAliases σ = Returns r σ' →
  (is_Some (aliases (fg σ)) ∧ r = None ∧ σ' = σ) ∨
  (aliases (fg σ) = None ∧
   ensureFlags (flagOrder (fg σ)) (with_empty_table σ) = Returns r σ').
Proof.
  unfold ensureAliases. intros H.
  apply bind_Returns in H as (g & σ0 & Hg & H). minv Hg.
  destruct (aliases (fg σ)) eqn:Ht.
  - minv H. left. eauto.
  - right. split; [done|].
    apply bind_Returns in H as (u & σ1 & Hs & H).
    unfold set_aliases in Hs. by injection Hs as <- <-.
Qed.

Lemma table_get_empty σ k : table_get (fg (with_empty_table σ)) k = zeroAlias.
Proof. unfold table_get; simpl. by rewrite lookup_empty. Qed.

Lemma table_get_nil σ k : aliases (fg σ) = None → table_get (fg σ) k = zeroAlias.
Proof. unfold table_get. by intros ->. Qed.

Lemma evolves_with_empty_table σ :
  aliases (fg σ) = None → evolves σ (with_empty_table σ).
Proof.
  intros Ht.
  assert (Hz : ∀ k, table_get (fg (with_empty_table σ)) k
                    = table_get (fg σ) k).
  { intros k. by rewrite table_get_empty, table_get_nil. }
  split.
  - done.
  - done.
  - done.
  - by eauto.
  - intros k _. apply Hz.
  - intros k Hk. by destruct Hk.
  - intros p. simpl. destruct (heap σ !! p); constructor. apply flag_le_refl.
Qed.

Lemma ensureAliases_evolves σ r σ' :
  ensureAliases σ = Returns r σ' → evolves σ σ'.
Proof.
  intros [(_ & _ & ->) | (Ht & H)]%ensureAliases_Returns.
  - apply evolves_refl.
  - eapply evolves_trans; [by apply evolves_with_empty_table|].
    by eapply ensureFlags_evolves.
Qed.

Lemma ensureAliases_built σ r σ' :
  ensureAliases σ = Returns r σ' → is_Some (aliases (fg σ')).
Proof.
  intros [(? & _ & ->) | (Ht & H)]%ensureAliases_Returns; [done|].
  apply ensureFlags_evolves in H. apply (ev_built _ _ H). simpl. eauto.
Qed.

(** A successful build from a table that is nil registers the forms of
    every flag of [flagOrder]. *)
Lemma ensureAliases_ok σ σ' :
  aliases (fg σ) = None → ensureAliases σ = Returns None σ' →
  ∀ flag fc, flag ∈ flagOrder (fg σ) → heap σ !! flag = Some fc →
             flagBuilt (fg σ) fc σ' flag.
Proof.
  intros Ht [([? ?] & _) | (_ & H)]%ensureAliases_Returns flag fc Hin Hfc;
    [congruence|].
  eapply (flagBuilt_le _ _ fc fc); [apply flag_le_refl | |
    by eapply (ensureFlags_ok _ _ _ H)].
  done.
Qed.

(** Every live entry of a table built from nil names a flag of the heap
    and lies outside the long names; a negative entry names a switch. *)
Lemma ensureAliases_sound σ σ' :
  aliases (fg σ) = None → ensureAliases σ = Returns None σ' →
  ∀ k, live (table_get (fg σ') k) →
       long (fg σ) !! k = None ∧
       ∃ p kd, table_get (fg σ') k = mkAlias (Some p) kd ∧ kd ≠ aliasNone ∧
               is_Some (heap σ !! p) ∧
               (kd = aliasNegative → isSwitch σ p).
Proof.
  intros Ht [([? ?] & _) | (_ & H)]%ensureAliases_Returns k Hk; [congruence|].
  pose proof H as Hev%ensureFlags_evolves.
  pose proof H as Hs%ensureFlags_sound.
  assert (table_get (fg σ') k ≠ table_get (fg (with_empty_table σ)) k) as Hne.
  { rewrite table_get_empty. intros E. rewrite E in Hk. by apply Hk. }
  destruct (ev_new _ _ Hev k Hne) as (Hl & p & kd & Hent & Hp).
  destruct (Hs k Hne) as (p' & kd' & Hent' & Hkd & Hsw).
  rewrite Hent in Hent'. simplify_eq. split; [done|].
  exists p', kd'. split; [done|]. split; [done|]. split; [done|].
  intros Hn. destruct (Hsw Hn) as (fc & Hfc & Hv). by exists fc.
Qed.

(** ** The example groups *)

Lemma toolGroup_builds : ensureAliases toolGroup = Returns None toolGroupBuilt.
Proof. vm_compute. reflexivity. Defined.

Lemma clashGroup_fails :
  ensureAliases clashGroup = Returns (Some clashError) clashGroupFailed.
Proof. vm_compute. reflexivity. Defined.

(** ** The properties of the specification *)

(** C1. Lookup precedence of [getFlagAlias], once the table of the group
    is there ([ensureAliases] returns no error): a spelling that is a
    canonical long name resolves to the flag registered under it, with no
    inversion, whatever the alias table holds for it; only a spelling that
    is no long name is looked up in the alias table, and then the invert
    signal is true exactly when the entry has the negative kind; a
    spelling that is neither resolves to no flag. *)
Theorem getFlagAlias_precedence (σ σ' : state) (name : string) :
  ensureAliases σ = Returns None σ' →
  (∀ flag, long (fg σ) !! name = Some flag →
     getFlagAlias name σ = Returns (mkResolved (Some flag) false None) σ') ∧
  (long (fg σ) !! name = None →
   ∀ flag kind, table_get (fg σ') name = mkAlias flag kind →
     kind ≠ aliasNone →
     getFlagAlias name σ =
       Returns (mkResolved flag (bool_decide (kind = aliasNegative)) None) σ') ∧
  (long (fg σ) !! name = None →
   alias_kind (table_get (fg σ') name) = aliasNone →
   getFlagAlias name σ = Returns (mkResolved None false None) σ').
Proof.
  intros H. pose proof (ev_long _ _ (ensureAliases_evolves _ _ _ H)) as Hlong.
  unfold getFlagAlias, bind. rewrite H. unfold group. rewrite Hlong.
  split; [|split].
  - intros flag ->. done.
  - intros -> flag kind -> Hk. simpl.
    by rewrite bool_decide_eq_true_2.
  - intros -> ->. done.
Qed.

Lemma getFlagAlias_precedence_witness :
  getFlagAlias "verbose" toolGroup
    = Returns (mkResolved (Some 0%nat) false None) toolGroupBuilt ∧
  getFlagAlias "no-dr" toolGroup
    = Returns (mkResolved (Some 1%nat) true None) toolGroupBuilt ∧
  getFlagAlias "loud" toolGroup
    = Returns (mkResolved (Some 0%nat) false None) toolGroupBuilt.
Proof.
  split; [|split].
  - apply (getFlagAlias_precedence toolGroup toolGroupBuilt "verbose"
             toolGroup_builds). reflexivity.
  - apply (proj1 (proj2 (getFlagAlias_precedence toolGroup toolGroupBuilt
                           "no-dr" toolGroup_builds)) eq_refl
             (Some 1%nat) aliasNegative).
    + vm_compute. reflexivity.
    + discriminate.
  - apply (proj1 (proj2 (getFlagAlias_precedence toolGroup toolGroupBuilt
                           "loud" toolGroup_builds)) eq_refl
             (Some 0%nat) aliasName).
    + vm_compute. reflexivity.
    + discriminate.
Defined.

(** C4. Registering a spelling that the table already maps to another
    flag, or to the same flag under another kind, returns an error that
    names the spelling, the flag being registered and the flag that holds
    the spelling (the flag of the long name when the spelling is one, else
    the flag of the table entry), and returns the state as it was: the
    entry of the spelling and every entry registered before stay. A build
    that stops on an error keeps every live entry it had. *)
Theorem addGroupAlias_conflict (σ : state) (name : string) (flag : loc)
    (kind : aliasKind) (g : loc) (k : aliasKind) (fc oc : FlagClause) :
  table_get (fg σ) name = mkAlias (Some g) k → k ≠ aliasNone →
  g ≠ flag ∨ k ≠ kind →
  heap σ !! flag = Some fc →
  heap σ !! (default g (long (fg σ) !! name)) = Some oc →
  addGroupAlias name flag kind σ
    = Returns (Some (errAssociated name (flag_name fc) (flag_name oc))) σ ∧
  ∀ flags r σ', ensureFlags flags σ = Returns r σ' →
    ∀ k', live (table_get (fg σ) k') →
          table_get (fg σ') k' = table_get (fg σ) k'.
Proof.
  intros Hent Hk Hdiff Hfc Hoc. split.
  - rewrite addGroupAlias_unfold. unfold addGroupAlias_body, bind, group.
    destruct (long (fg σ) !! name) as [e|]; simpl in Hoc.
    + unfold load, ret. by rewrite Hfc, Hoc.
    + cbn zeta. rewrite Hent. simpl.
      assert (bool_decide (k ≠ aliasNone)
              && (bool_decide (k ≠ kind) || bool_decide (Some g ≠ Some flag))
              = true) as ->.
      { rewrite andb_true_iff, orb_true_iff, !bool_decide_eq_true.
        split; [done|]. destruct Hdiff; [right; congruence | by left]. }
      unfold load, ret. by rewrite Hfc, Hoc.
  - intros flags r σ' H k' Hk'.
    by apply (ev_mono _ _ (ensureFlags_evolves _ _ _ _ H)).
Qed.

Lemma addGroupAlias_conflict_witness :
  addGroupAlias "ab" 1%nat aliasShortcut clashGroupFailed
    = Returns (Some clashError) clashGroupFailed.
Proof.
  apply (addGroupAlias_conflict clashGroupFailed "ab" 1%nat aliasShortcut
           0%nat aliasShortcut
           (mkFlag "apple-banana" 0 otherValue ptrGroup None)
           (mkFlag "alpha-beta" 0 (boolFlagValue true) ptrGroup
              (Some [("no-ab", aliasNegative); ("nab", aliasNegative);
                     ("ab", aliasShortcut); ("no-alpha-beta", aliasNegative)]))).
  - vm_compute. reflexivity.
  - discriminate.
  - left. discriminate.
  - vm_compute. reflexivity.
  - vm_compute. reflexivity.
Defined.

(** C5, as the code has it. When the lazy build of the table stops on a
    conflict, the resolution that ran the build returns the error with no
    flag; the table built so far stays in place and is taken for built: a
    later [ensureAliases] on the group returns no error and changes
    nothing, and a later resolution returns no error and resolves against
    the long names and the table built so far. *)
Theorem failed_build_is_not_remembered (σ σ1 : state) (e : string)
    (name : string) :
  ensureAliases σ = Returns (Some e) σ1 →
  getFlagAlias name σ = Returns (mkResolved None false (Some e)) σ1 ∧
  ensureAliases σ1 = Returns None σ1 ∧
  ∃ r, getFlagAlias name σ1 = Returns r σ1 ∧ res_err r = None ∧
       (∀ flag, long (fg σ1) !! name = Some flag → res_flag r = Some flag) ∧
       (long (fg σ1) !! name = None →
        live (table_get (fg σ1) name) →
        res_flag r = alias_flag (table_get (fg σ1) name)).
Proof.
  intros H.
  assert (ensureAliases σ1 = Returns None σ1) as Hagain.
  { destruct (ensureAliases_built _ _ _ H) as [t Ht].
    unfold ensureAliases, bind, group. by rewrite Ht. }
  split; [|split; [done|]].
  - unfold getFlagAlias, bind. by rewrite H.
  - unfold getFlagAlias, bind. rewrite Hagain. unfold group.
    destruct (long (fg σ1) !! name) as [flag|].
    + eexists. split; [done|]. split; [done|]. split; [|done].
      by intros ? [= ->].
    + cbn zeta. destruct (bool_decide _) eqn:Hl.
      * eexists. split; [done|]. split; [done|]. split; done.
      * eexists. split; [done|]. split; [done|]. split; [done|].
        intros _ Hlive. apply bool_decide_eq_false in Hl. by destruct Hl.
Qed.

Lemma failed_build_is_not_remembered_witness :
  getFlagAlias "apple-banana" clashGroup
    = Returns (mkResolved None false (Some clashError)) clashGroupFailed ∧
  ensureAliases clashGroupFailed = Returns None clashGroupFailed.
Proof.
  destruct (failed_build_is_not_remembered clashGroup clashGroupFailed
              clashError "apple-banana" clashGroup_fails) as (H1 & H2 & _).
  split; [exact H1 | exact H2].
Defined.

(** C5, as the claim states it, fails on the group whose shortcuts
    collide: the first resolution returns the error of the build, and the
    next ones on the state it leaves return no error; they resolve a long
    name and a shortcut of the table built before the conflict. *)
Lemma failed_build_then_resolves :
  getFlagAlias "apple-banana" clashGroup
    = Returns (mkResolved None false (Some clashError)) clashGroupFailed ∧
  getFlagAlias "apple-banana" clashGroupFailed
    = Returns (mkResolved (Some 1%nat) false None) clashGroupFailed ∧
  getFlagAlias "ab" clashGroupFailed
    = Returns (mkResolved (Some 0%nat) false None) clashGroupFailed.
Proof. repeat split; vm_compute; reflexivity. Qed.

Lemma tableInv_evolves σ σ' : evolves σ σ' → tableInv σ → tableInv σ'.
Proof.
  intros Hev Hinv k Hk.
  destruct (decide (table_get (fg σ') k = table_get (fg σ) k)) as [E|N].
  - rewrite E in Hk |- *. destruct (Hinv k Hk) as (Hl & p & Hp & Hh).
    split; [by rewrite (ev_long _ _ Hev)|]. exists p. split; [done|].
    by apply (evolves_heap_Some _ _ p Hev).
  - destruct (ev_new _ _ Hev k N) as (Hl & p & kd & Hent & Hh).
    split; [by rewrite (ev_long _ _ Hev)|]. exists p. rewrite Hent.
    split; [done|]. by apply (evolves_heap_Some _ _ p Hev).
Qed.

(** C8. In a table that built without error every live entry maps its
    spelling to one flag of the group's heap, and no spelling of the table
    is a canonical long name, so a spelling resolves through the long
    names or through the table, never both; every registration keeps this
    invariant. *)
Theorem alias_table_invariant (σ σ' : state) (name : string) (flag : loc)
    (kind : aliasKind) (r : error) :
  (aliases (fg σ) = None → ensureAliases σ = Returns None σ' → tableInv σ') ∧
  (tableInv σ → addGroupAlias name flag kind σ = Returns r σ' → tableInv σ') ∧
  (tableInv σ → ∀ k p, long (fg σ) !! k = Some p →
                       ¬ live (table_get (fg σ) k)).
Proof.
  split; [|split].
  - intros Ht H. apply (tableInv_evolves (with_empty_table σ)).
    + apply ensureAliases_Returns in H as [([? ?] & _) | (_ & H)];
        [congruence|]. by eapply ensureFlags_evolves.
    + intros k Hk. rewrite table_get_empty in Hk. by destruct Hk.
  - intros Hinv H. apply (tableInv_evolves σ); [|done].
    by apply addGroupAlias_evolves in H as [? _].
  - intros Hinv k p Hl Hlive.
    destruct (Hinv k Hlive) as [Hl' _]. congruence.
Qed.

Lemma alias_table_invariant_witness : tableInv toolGroupBuilt.
Proof.
  apply (proj1 (alias_table_invariant toolGroup toolGroupBuilt "" 0%nat
                  aliasNone None)).
  - reflexivity.
  - exact toolGroup_builds.
Defined.

(** ** Words of a name *)

Lemma Split_nonempty s sep : strings.Split s sep ≠ [].
Proof.
  induction s as [|c s IH]; simpl; [done|].
  case_decide; [done|]. by destruct (strings.Split s sep).
Qed.

Lemma shortcutOf_None words :
  shortcutOf words = None ↔ EmptyString ∈ words.
Proof.
  induction words as [|w ws IH]; simpl.
  - split; [done | by intros ?%elem_of_nil].
  - destruct w as [|c w].
    + split; [intros _; by left | done].
    + destruct (shortcutOf ws) as [s|].
      * split; [done|]. intros [?|Hin]%elem_of_cons; [done|].
        by apply IH in Hin.
      * split; [|done]. intros _. right. by apply IH.
Qed.

Lemma Split_app s t sep :
  strings.Split (s +:+ String sep t) sep
  = strings.Split s sep ++ strings.Split t sep.
Proof.
  induction s as [|c s IH].
  - change (EmptyString +:+ String sep t) with (String sep t).
    cbn [strings.Split]. by rewrite decide_True.
  - change (String c s +:+ String sep t) with (String c (s +:+ String sep t)).
    cbn [strings.Split]. rewrite IH. case_decide; [done|].
    destruct (strings.Split s sep) as [|w ws] eqn:E; [|done].
    by apply Split_nonempty in E.
Qed.

Lemma Contains_app s t sep : strings.Contains (s +:+ String sep t) sep = true.
Proof.
  induction s as [|c s IH].
  - change (EmptyString +:+ String sep t) with (String sep t).
    cbn [strings.Contains]. by rewrite decide_True.
  - change (String c s +:+ String sep t) with (String c (s +:+ String sep t)).
    cbn [strings.Contains]. by case_decide.
Qed.

Lemma hyphens_give_empty_word name :
  leadingHyphen name ∨ trailingHyphen name ∨ doubleHyphen name →
  EmptyString ∈ strings.Split name hyphen ∧
  strings.Contains name hyphen = true.
Proof.
  intros [[rest ->] | [[front ->] | (front & rest & ->)]].
  - split.
    + cbn [strings.Split]. rewrite decide_True by done. by left.
    + cbn [strings.Contains]. by rewrite decide_True.
  - change "-" with (String hyphen EmptyString).
    rewrite Split_app, Contains_app. split; [|done].
    apply elem_of_app. right. by left.
  - change ("--" +:+ rest) with (String hyphen (String hyphen rest)).
    rewrite Split_app, Contains_app. split; [|done].
    apply elem_of_app. right.
    cbn [strings.Split]. rewrite decide_True by done. by left.
Qed.

(** [addShortcut], run on a flag of the heap. *)
Lemma addShortcut_eq σ name flag fc :
  heap σ !! flag = Some fc →
  addShortcut name flag σ =
  let σ1 := with_heap σ (<[flag := with_autoShortcut fc]> (heap σ)) in
  if synthesizes (fg σ) fc name then
    match shortcutOf (strings.Split name hyphen) with
    | None => Panics IndexOutOfRange
    | Some sc => (check addGroupAlias sc flag aliasShortcut in
                  addNegativeAlias sc flag aliasShortcut) σ1
    end
  else Returns None σ1.
Proof.
  intros Hfc. unfold addShortcut, bind at 1, load. rewrite Hfc.
  unfold synthesizes, autoShortcutOf, with_autoShortcut, with_heap.
  destruct fc as [nm sh v p a]; simpl.
  unfold bind at 1, store. unfold bind at 1, group. simpl.
  destruct p as [|b|]; simpl; unfold bind at 1, ret; simpl.
  - destruct (autoShortcut (fg σ)); simpl; [|done].
    destruct (bool_decide (sh ≠ 0) && negb (strings.Contains name hyphen));
      simpl; [done|]. by destruct (shortcutOf _).
  - destruct b; simpl; [|done].
    destruct (bool_decide (sh ≠ 0) && negb (strings.Contains name hyphen));
      simpl; [done|]. by destruct (shortcutOf _).
  - destruct (autoShortcut (fg σ)); simpl; [|done].
    destruct (bool_decide (sh ≠ 0) && negb (strings.Contains name hyphen));
      simpl; [done|]. by destruct (shortcutOf _).
Qed.

(** [addShortcut] panics on a name with an empty word, when it gets to
    the synthesis. *)
Lemma addShortcut_empty_word σ name flag fc :
  heap σ !! flag = Some fc →
  synthesizes (fg σ) fc name = true →
  EmptyString ∈ strings.Split name hyphen →
  addShortcut name flag σ = Panics IndexOutOfRange.
Proof.
  intros Hfc Hsyn Hw. apply shortcutOf_None in Hw.
  rewrite (addShortcut_eq _ _ _ fc Hfc). cbn zeta. by rewrite Hsyn, Hw.
Qed.

(** C10. Shortcut synthesis returns a shortcut exactly when no word of
    the name is empty. On a name or alias with a leading hyphen, a
    trailing hyphen or two hyphens in a row, for a flag whose
    auto-shortcut setting is on, [addShortcut] panics with an index out of
    range and returns no error; so does the build of the table when it
    gets to such a flag name, and the loop over the aliases right after it
    has registered such an alias. *)
Theorem addShortcut_panics_on_empty_word (σ : state) (name : string)
    (flag : loc) (fc : FlagClause) :
  heap σ !! flag = Some fc →
  autoShortcutOf (fg σ) fc = true →
  leadingHyphen name ∨ trailingHyphen name ∨ doubleHyphen name →
  addShortcut name flag σ = Panics IndexOutOfRange ∧
  (flag_name fc = name → aliases (fg σ) = None →
   ∀ rest, flagOrder (fg σ) = flag :: rest →
           ensureAliases σ = Panics IndexOutOfRange) ∧
  (∀ σ1 es, addGroupAlias name flag aliasName σ = Returns None σ1 →
            ensureFlagAliases flag ((name, aliasName) :: es) σ
            = Panics IndexOutOfRange) ∧
  (∀ nm, is_Some (shortcutOf (strings.Split nm hyphen)) ↔
         EmptyString ∉ strings.Split nm hyphen).
Proof.
  intros Hfc Hauto [Hw Hc]%hyphens_give_empty_word.
  assert (Hsyn : ∀ g, autoShortcutOf g fc = true →
                      synthesizes g fc name = true).
  { intros g Hg. unfold synthesizes. rewrite Hg, Hc. simpl.
    by rewrite andb_false_r. }
  split; [by apply (addShortcut_empty_word _ _ _ fc); auto|].
  split; [|split].
  - intros Hname Ht rest Horder.
    unfold ensureAliases, bind, group. rewrite Ht. simpl. rewrite Horder.
    simpl. unfold try, bind, ensureFlag, bind, load. simpl. rewrite Hfc.
    unfold try, bind. rewrite Hname.
    by rewrite (addShortcut_empty_word _ name flag fc); auto.
  - intros σ1 es Hadd. cbn [ensureFlagAliases].
    destruct (decide (aliasName ≠ aliasName)); [done|].
    unfold try, bind. rewrite Hadd.
    pose proof Hadd as [Hev _]%addGroupAlias_evolves.
    destruct (evolves_flag _ _ _ _ Hev Hfc) as (fc1 & Hfc1 & Hle).
    rewrite (addShortcut_empty_word _ name flag fc1); [done|done| |done].
    rewrite (synthesizes_evolves σ σ1 flag fc fc1) by done. by apply Hsyn.
  - intros nm. rewrite <- shortcutOf_None.
    destruct (shortcutOf _); split; try done; try (by intros [? ?]);
      intros H; by destruct H.
Qed.

Lemma addShortcut_panics_on_empty_word_witness :
  addShortcut "dry--run" 0%nat hyphenGroup = Panics IndexOutOfRange ∧
  ensureAliases hyphenGroup = Panics IndexOutOfRange.
Proof.
  destruct (addShortcut_panics_on_empty_word hyphenGroup "dry--run" 0%nat
              hyphenFlag) as (H1 & H2 & _).
  - reflexivity.
  - reflexivity.
  - right; right. by exists "dry", "run".
  - split; [exact H1|]. by apply (H2 eq_refl eq_refl []).
Defined.

Lemma shortName_spec name :
  shortName name = true ↔
  (String.length name ≤ 3)%nat ∧ strings.Contains name hyphen = false.
Proof.
  unfold shortName.
  by rewrite andb_true_iff, bool_decide_eq_true, negb_true_iff.
Qed.

Lemma shortcutOf_initials words sc :
  shortcutOf words = Some sc → Forall asciiInitial words →
  sc = foldr (λ w acc, firstLetter w +:+ acc) EmptyString words.
Proof.
  revert sc. induction words as [|w ws IH]; intros sc H Hall; simpl in *.
  { by injection H as <-. }
  destruct w as [|c w]; [done|].
  destruct (shortcutOf ws) as [s|]; [|done]. injection H as <-.
  apply Forall_cons in Hall as [Hc Hall]. rewrite <- (IH s eq_refl Hall).
  unfold string_of_byte. rewrite decide_True; [done|]. by eapply Hc.
Qed.

(** C3, as the code has it. For a flag whose auto-shortcut setting is on
    (its own setting when configured, else the group's), a build that
    succeeds registers every alias declared on the flag as a positive
    alias and, for the long name and for each declared alias, the
    shortcut of that spelling as an auto-shortcut alias, unless the flag
    has a shorthand letter and the spelling has no hyphen. The shortcut is
    the concatenation, over the hyphen-separated words of the spelling, of
    Go's [string(word[0])]: the first letter of each word, when the words
    begin with ASCII bytes. *)
Theorem shortcuts_of_spellings (σ σ' : state) (flag : loc) (fc : FlagClause) :
  aliases (fg σ) = None → ensureAliases σ = Returns None σ' →
  flag ∈ flagOrder (fg σ) → heap σ !! flag = Some fc →
  autoShortcutOf (fg σ) fc = true →
  (∀ alias, (alias, aliasName) ∈ entries fc →
            registered σ' alias flag aliasName) ∧
  (∀ spelling,
     spelling = flag_name fc ∨ (spelling, aliasName) ∈ entries fc →
     flag_shorthand fc = 0 ∨ strings.Contains spelling hyphen = true →
     ∃ sc, shortcutOf (strings.Split spelling hyphen) = Some sc ∧
           registered σ' sc flag aliasShortcut ∧
           (Forall asciiInitial (strings.Split spelling hyphen) →
            sc = initials spelling)).
Proof.
  intros Ht H Hin Hfc Hauto.
  destruct (ensureAliases_ok _ _ Ht H flag fc Hin Hfc) as [Hname Halias].
  split; [intros alias Ha; by destruct (Halias alias Ha)|].
  intros spelling Hsp Hguard.
  assert (synthesizes (fg σ) fc spelling = true) as Hsyn.
  { unfold synthesizes. rewrite Hauto. simpl. apply negb_true_iff.
    destruct Hguard as [-> | ->]; [done|]. simpl. by rewrite andb_false_r. }
  assert (spellingBuilt (fg σ) fc σ' flag spelling) as [_ Hsc].
  { destruct Hsp as [->|Ha]; [done|]. by destruct (Halias spelling Ha). }
  destruct (Hsc Hsyn) as (sc & Hs & Hr & _).
  exists sc. split; [done|]. split; [done|].
  intros Hascii. by apply shortcutOf_initials.
Qed.

Lemma shortcuts_of_spellings_witness :
  registered toolGroupBuilt "loud" 0%nat aliasName ∧
  registered toolGroupBuilt "v" 0%nat aliasShortcut ∧
  registered toolGroupBuilt "l" 0%nat aliasShortcut.
Proof.
  destruct (shortcuts_of_spellings toolGroup toolGroupBuilt 0%nat
              verboseFlag) as [Ha Hs].
  - reflexivity.
  - exact toolGroup_builds.
  - left.
  - reflexivity.
  - reflexivity.
  - split; [apply Ha; left|]. split.
    + destruct (Hs "verbose") as (sc & Hsc & Hr & _);
        [by left | by left |]. injection Hsc as <-. exact Hr.
    + destruct (Hs "loud") as (sc & Hsc & Hr & _);
        [right; left | by left |]. injection Hsc as <-. exact Hr.
Defined.

(** C3, as the claim states it, fails on the flag [output] of the group
    above: its auto-shortcut setting is on and the build succeeds, yet the
    concatenation of the first letters of its name, [o], is not
    registered, because the flag has a shorthand letter and its name has
    no hyphen. *)
Lemma shorthand_flag_gets_no_shortcut :
  ensureAliases toolGroup = Returns None toolGroupBuilt ∧
  heap toolGroup !! 2%nat = Some outputFlag ∧
  autoShortcutOf (fg toolGroup) outputFlag = true ∧
  initials (flag_name outputFlag) = "o" ∧
  table_get (fg toolGroupBuilt) "o" = zeroAlias.
Proof. repeat split; vm_compute; reflexivity. Qed.

(** ** [ArgSummary] *)

Lemma append_assoc (s t u : string) : (s +:+ t) +:+ u = s +:+ (t +:+ u).
Proof.
  induction s as [|c s IH]; [done|].
  change (String c (s +:+ t +:+ u)) with (String c s +:+ (t +:+ u)).
  change ((String c s +:+ t) +:+ u) with (String c ((s +:+ t) +:+ u)).
  by rewrite IH.
Qed.

Lemma argSummaryLoop_spec args depth out :
  argSummaryLoop args depth out
  = ((depth + optionalCount args)%nat, out ++ map argItem args).
Proof.
  revert depth out. induction args as [|arg args IH]; intros depth out.
  { simpl. by rewrite Nat.add_0_r, app_nil_r. }
  simpl. unfold optionalCount, argItem.
  destruct (arg_Required arg) eqn:Hr; simpl; rewrite IH.
  - rewrite filter_cons_False by (by rewrite Hr).
    unfold argItem. by rewrite <- app_assoc.
  - rewrite filter_cons_True by done. simpl.
    unfold argItem. rewrite <- app_assoc. simpl.
    by rewrite Nat.add_succ_r.
Qed.

Lemma Join_snoc init x sep :
  strings.Join (init ++ [x]) sep =
  match init with
  | [] => x
  | _ => strings.Join init sep +:+ sep +:+ x
  end.
Proof.
  induction init as [|a init IH]; [done|].
  change ((a :: init) ++ [x]) with (a :: (init ++ [x])).
  destruct init as [|b init]; [done|].
  change (strings.Join (a :: (b :: init) ++ [x]) sep)
    with (a +:+ sep +:+ strings.Join ((b :: init) ++ [x]) sep).
  rewrite IH.
  change (strings.Join (a :: b :: init) sep)
    with (a +:+ sep +:+ strings.Join (b :: init) sep).
  by rewrite !append_assoc.
Qed.

Lemma Join_close init last sep closing :
  strings.Join (init ++ [last +:+ closing]) sep
  = strings.Join (init ++ [last]) sep +:+ closing.
Proof.
  rewrite !Join_snoc. destruct init; [done|]. by rewrite !append_assoc.
Qed.

(** C9. [ArgSummary] panics on an argument group without arguments, where
    [out[len(out)-1]] is out of range, and returns on every other one:
    the items of the arguments joined by spaces, an item being [<name>]
    with an opening bracket before it when the argument is not required,
    followed by as many closing brackets as brackets were opened. *)
Theorem ArgSummary_needs_an_argument :
  ArgSummary [] = None ∧
  ∀ arg rest,
    ArgSummary (arg :: rest)
    = Some (strings.Join (map argItem (arg :: rest)) " "
            +:+ strings.Repeat "]" (optionalCount (arg :: rest))).
Proof.
  split; [done|]. intros arg rest. unfold ArgSummary.
  rewrite argSummaryLoop_spec, app_nil_l, Nat.add_0_l.
  generalize (strings.Repeat "]" (optionalCount (arg :: rest))) as closing.
  intros closing.
  destruct (@exists_last _ (map argItem (arg :: rest)))
    as (init & last & Hitems); [done|].
  rewrite Hitems. rewrite length_app. simpl length.
  rewrite decide_True by lia.
  replace (Z.to_nat (Z.of_nat (length init + 1) - 1)) with (length init + 0)%nat
    by lia.
  rewrite lookup_app_r by lia.
  replace (length init + 0 - length init)%nat with 0%nat by lia. simpl.
  rewrite insert_app_r. simpl. by rewrite Join_close.
Qed.

(** ** Building again: every step is steady *)

Lemma heap_names_refl σ : heap_names σ σ.
Proof. intros p fc fc' H1 H2. congruence. Qed.

Lemma heap_names_trans σ1 σ2 σ3 :
  evolves σ1 σ2 → heap_names σ1 σ2 → heap_names σ2 σ3 → heap_names σ1 σ3.
Proof.
  intros Hev H12 H23 p fc fc3 H1 H3.
  destruct (evolves_flag _ _ _ _ Hev H1) as (fc2 & H2 & _).
  rewrite (H23 p fc2 fc3 H2 H3). by apply (H12 p).
Qed.

Lemma heap_covers_back σ σ' H :
  evolves σ σ' → heap_names σ σ' →
  heap_covers (heap σ') H → heap_covers (heap σ) H.
Proof.
  intros Hev Hn Hc p. pose proof (ev_heap _ _ Hev p) as Hle.
  pose proof (Hc p) as Hcp.
  inversion Hle as [fc fc' Hfl Hfc Hfc'|]; [|by rewrite <- H1 in Hcp].
  rewrite <- Hfc' in Hcp. inversion Hcp as [fc2 FC [Hfl' Hnm] E1 E2|].
  constructor. split; [by eapply flag_le_trans|].
  rewrite Hnm. by apply (Hn p).
Qed.

Lemma heap_covers_lookup h H p fc :
  heap_covers h H → h !! p = Some fc →
  ∃ FC, H !! p = Some FC ∧ covers fc FC.
Proof.
  intros Hc Hp. pose proof (Hc p) as Hcp. rewrite Hp in Hcp.
  inversion Hcp; eauto.
Qed.

Lemma amap_get_prefix m M k v :
  m `prefix_of` M → amap_get m k = Some v → amap_get M k = Some v.
Proof. intros [x ->] Hg. by rewrite amap_get_app, Hg. Qed.

Lemma with_aliases_id fc m :
  flag_aliases fc = Some m → with_aliases fc m = fc.
Proof. destruct fc; simpl. by intros ->. Qed.

Lemma with_heap_id σ : with_heap σ (heap σ) = σ.
Proof. by destruct σ. Qed.

Lemma filter_names_app (m x : amap) :
  filter (λ kv, kv.2 = aliasName) (m ++ x)
  = filter (λ kv, kv.2 = aliasName) m ++ filter (λ kv, kv.2 = aliasName) x.
Proof. apply filter_app. Qed.

(** [FlagClause.addAlias] keeps the declared aliases of the flags, when
    it is not given a new spelling as a declared alias, and runs again. *)
Lemma FlagClause_addAlias_steady f a k σ r σ' :
  FlagClause_addAlias f a k σ = Returns r σ' →
  (k = aliasName →
   ∃ fc, heap σ !! f = Some fc ∧ is_Some (amap_get (entries fc) a)) →
  heap_names σ σ' ∧ replays (FlagClause_addAlias f a k) σ r σ'.
Proof.
  intros H Hpre.
  apply FlagClause_addAlias_Returns in H as (fc & Hfc & Hcases).
  assert (Hrun : ∀ H FC m, H !! f = Some FC → flag_aliases FC = Some m →
            FlagClause_addAlias f a k (with_heap σ H) =
            match amap_get m a with
            | Some current =>
                if decide (current ≠ k)
                then Returns (Some (errAlreadyExist a)) (with_heap σ H)
                else Returns None
                       (with_heap σ (<[f := with_aliases FC (amap_set m a k)]> H))
            | None => Returns None
                        (with_heap σ (<[f := with_aliases FC (amap_set m a k)]> H))
            end).
  { intros H FC m HFC Hm.
    unfold FlagClause_addAlias, bind, load, store, with_heap.
    cbn [heap fg]. rewrite HFC, Hm. cbn [heap fg default from_option id].
    change (mkFlag (flag_name FC) (flag_shorthand FC) (flag_value FC)
              (flag_autoShortcut FC) (Some m)) with (with_aliases FC m).
    rewrite (with_aliases_id FC m Hm), (insert_id H f FC HFC).
    by destruct (amap_get m a) as [cur|]; [case_decide|]. }
  assert (Hnames : ∀ m, names (with_aliases fc m)
                        = filter (λ kv, kv.2 = aliasName) m) by done.
  assert (Hreplay : ∀ m, entries fc `prefix_of` m →
            (∀ M, m `prefix_of` M →
                  ∃ v, amap_get M a = Some v ∧
                       match r with
                       | Some e => v ≠ k ∧ e = errAlreadyExist a
                       | None => v = k
                       end) →
            σ' = with_heap σ (<[f := with_aliases fc m]> (heap σ)) →
            replays (FlagClause_addAlias f a k) σ r σ').
  { intros m Hpm Hget -> H Hc.
    destruct (heap_covers_lookup _ _ f (with_aliases fc m) Hc)
      as (FC & HFC & [Hle _]); [by simpl; rewrite lookup_insert_eq|].
    destruct (fl_made _ _ Hle) as [M HM]; [by simpl; eauto|].
    rewrite (Hrun H FC M HFC HM).
    destruct (Hget M) as (v & Hv & Hr).
    { pose proof (fl_entries _ _ Hle) as Hp. unfold entries in Hp.
      by rewrite HM in Hp. }
    rewrite Hv. destruct r as [e|].
    - destruct Hr as [Hne ->]. by rewrite decide_True.
    - subst v. rewrite decide_False by (by intros ?).
      rewrite amap_set_same by done. rewrite with_aliases_id by done.
      by rewrite insert_id. }
  destruct Hcases as [(k' & Hg & Hne & -> & Hσ) | [(Hg & -> & Hσ) | (Hg & -> & Hσ)]].
  - split.
    + subst σ'. intros p fc1 fc2 H1 H2. simpl in H2.
      destruct (decide (f = p)) as [<-|Hp].
      * rewrite lookup_insert_eq in H2. by simplify_eq.
      * rewrite lookup_insert_ne in H2 by done. congruence.
    + apply (Hreplay (entries fc)); [done| |done].
      intros M HM. exists k'. eauto using amap_get_prefix.
  - split.
    + subst σ'. intros p fc1 fc2 H1 H2. simpl in H2.
      destruct (decide (f = p)) as [<-|Hp].
      * rewrite lookup_insert_eq in H2. by simplify_eq.
      * rewrite lookup_insert_ne in H2 by done. congruence.
    + apply (Hreplay (entries fc)); [done| |done].
      intros M HM. exists k. eauto using amap_get_prefix.
  - split.
    + subst σ'. intros p fc1 fc2 H1 H2. simpl in H2.
      destruct (decide (f = p)) as [<-|Hp].
      * rewrite lookup_insert_eq in H2. simplify_eq.
        rewrite Hnames, filter_names_app.
        destruct (decide (k = aliasName)) as [->|Hk].
        { destruct (Hpre eq_refl) as (fc' & ? & [v Hv]). simplify_eq. }
        rewrite filter_cons_False by (simpl; congruence).
        by rewrite filter_nil, app_nil_r.
      * rewrite lookup_insert_ne in H2 by done. congruence.
    + apply (Hreplay (entries fc ++ [(a, k)])); [by apply prefix_app_r| |done].
      intros M HM. exists k. split; [|done].
      apply (amap_get_prefix _ _ _ _ HM). rewrite amap_get_app, Hg. simpl.
      by rewrite decide_True.
Qed.

Lemma covers_refl fc : covers fc fc.
Proof. split; [apply flag_le_refl | done]. Qed.

Lemma covers_trans a b c : covers a b → covers b c → covers a c.
Proof.
  intros [H1 N1] [H2 N2]. split; [by eapply flag_le_trans | congruence].
Qed.

Lemma heap_covers_refl h : heap_covers h h.
Proof. intros p. destruct (h !! p); constructor. apply covers_refl. Qed.

Lemma heap_covers_trans h1 h2 h3 :
  heap_covers h1 h2 → heap_covers h2 h3 → heap_covers h1 h3.
Proof.
  intros H12 H23 p. pose proof (H12 p) as Ha. pose proof (H23 p) as Hb.
  destruct (h1 !! p), (h2 !! p), (h3 !! p);
    inversion Ha; inversion Hb; subst; constructor.
  by eapply covers_trans.
Qed.

Lemma heap_covers_of σ σ' :
  evolves σ σ' → heap_names σ σ' → heap_covers (heap σ) (heap σ').
Proof.
  intros Hev Hn p. pose proof (ev_heap _ _ Hev p) as Hle.
  destruct (heap σ !! p) as [fc|] eqn:E1, (heap σ' !! p) as [fc'|] eqn:E2;
    inversion Hle; subst; constructor.
  split; [done|]. by apply (Hn p).
Qed.

Lemma steady_ext {A} (P : state → Prop) (m m' : M A) :
  (∀ σ, m σ = m' σ) → steady P m → steady P m'.
Proof.
  intros Heq Hm σ r σ' HP H. rewrite <- Heq in H.
  destruct (Hm σ r σ' HP H) as [Hc Hr]. split; [done|].
  intros h Hh. rewrite <- Heq. by apply Hr.
Qed.

Lemma steady_weaken {A} (P Q : state → Prop) (m : M A) :
  (∀ σ, Q σ → P σ) → steady P m → steady Q m.
Proof. intros HPQ Hm σ r σ' HQ. apply Hm. auto. Qed.

Lemma steady_ret {A} (P : state → Prop) (a : A) : steady P (ret a).
Proof.
  intros σ r σ' _ [= <- <-]. split; [apply heap_covers_refl | done].
Qed.

Lemma steady_panics {A} (P : state → Prop) p : steady P (@panics A p).
Proof. by intros σ r σ' _ H. Qed.

Lemma steady_group (P : state → Prop) : steady P group.
Proof.
  intros σ r σ' _ [= <- <-]. split; [apply heap_covers_refl | done].
Qed.

Lemma steady_bind {A B} (P : state → Prop) (Q : A → state → Prop)
    (m : M A) (k : A → M B) :
  steady P m → (∀ a, steady (Q a) (k a)) →
  (∀ σ a σ', P σ → m σ = Returns a σ' →
             heap_covers (heap σ) (heap σ') → Q a σ') →
  steady P (bind m k).
Proof.
  intros Hm Hk HQ σ r σ' HP H.
  apply bind_Returns in H as (a & σ1 & H1 & H2).
  destruct (Hm σ a σ1 HP H1) as [Hc1 Hr1].
  destruct (Hk a σ1 r σ' (HQ σ a σ1 HP H1 Hc1) H2) as [Hc2 Hr2].
  split; [by eapply heap_covers_trans|].
  intros h Hh. unfold bind.
  rewrite (Hr1 h) by (by eapply heap_covers_trans). by apply Hr2.
Qed.

Lemma steady_try (P Q : state → Prop) (m k : M error) :
  steady P m → steady Q k →
  (∀ σ σ', P σ → m σ = Returns None σ' →
           heap_covers (heap σ) (heap σ') → Q σ') →
  steady P (try m k).
Proof.
  intros Hm Hk HQ. unfold try.
  apply (steady_bind P (λ err σ, match err with
                                 | Some _ => True
                                 | None => Q σ
                                 end)); [done| |].
  - intros [e|]; [apply steady_ret | done].
  - intros σ [e|] σ' HP H Hc; [done | by eapply HQ].
Qed.

(** Reading a field that the marks of a build leave alone. *)
Lemma steady_load {A B} (P : state → Prop) (Q : B → state → Prop)
    (p : loc) (f : FlagClause → B) (k : B → M A) :
  (∀ fc FC, covers fc FC → f FC = f fc) →
  (∀ b, steady (Q b) (k b)) →
  (∀ σ fc, P σ → heap σ !! p = Some fc → Q (f fc) σ) →
  steady P (let* fc := load p in k (f fc)).
Proof.
  intros Hf Hk HQ σ r σ' HP H.
  apply bind_Returns in H as (fc & σ1 & Hl & H).
  apply load_Returns in Hl as [Hfc ->].
  destruct (Hk (f fc) σ r σ' (HQ σ fc HP Hfc) H) as [Hc Hr].
  split; [done|]. intros h Hh.
  destruct (heap_covers_lookup _ _ p fc (heap_covers_trans _ _ _ Hc Hh) Hfc)
    as (FC & HFC & Hcov).
  unfold bind, load. simpl. rewrite HFC. rewrite (Hf fc FC Hcov).
  by apply Hr.
Qed.

Lemma steady_load_opt {A B} (P : state → Prop) (Q : B → state → Prop)
    (p : option loc) (f : FlagClause → B) (k : B → M A) :
  (∀ fc FC, covers fc FC → f FC = f fc) →
  (∀ b, steady (Q b) (k b)) →
  (∀ σ fc q, P σ → p = Some q → heap σ !! q = Some fc → Q (f fc) σ) →
  steady P (let* fc := load_opt p in k (f fc)).
Proof.
  intros Hf Hk HQ. destruct p as [q|]; simpl.
  - apply (steady_load P Q q f k); eauto.
  - by intros σ r σ' _ H.
Qed.

Lemma steady_table_set (P : state → Prop) name a :
  steady P (table_set name a).
Proof.
  intros σ r σ' _ H. pose proof H as (t & Ht & ->)%table_set_Returns.
  split; [apply heap_covers_refl|].
  intros h _. unfold table_set, bind, group, set_aliases, with_heap. simpl.
  rewrite Ht. by destruct r.
Qed.

Lemma keeps_covers f a k σ σ' :
  heap_covers (heap σ) (heap σ') → keeps f a k σ → keeps f a k σ'.
Proof.
  intros Hc Hk E. destruct (Hk E) as (fc & Hfc & [v Hv]).
  destruct (heap_covers_lookup _ _ f fc Hc Hfc) as (FC & HFC & [Hle _]).
  exists FC. split; [done|]. exists v.
  by apply (amap_get_prefix _ _ _ _ (fl_entries _ _ Hle)).
Qed.

Lemma steady_FlagClause_addAlias f a k :
  steady (keeps f a k) (FlagClause_addAlias f a k).
Proof.
  intros σ r σ' HP H.
  destruct (FlagClause_addAlias_steady _ _ _ _ _ _ H HP) as [Hn Hr].
  split; [|done]. apply heap_covers_of; [|done].
  by apply FlagClause_addAlias_evolves in H as [? _].
Qed.

Lemma covers_name fc FC : covers fc FC → flag_name FC = flag_name fc.
Proof. intros [Hle _]. apply Hle. Qed.

Lemma covers_value fc FC : covers fc FC → flag_value FC = flag_value fc.
Proof. intros [Hle _]. apply Hle. Qed.

Lemma steady_addNegativeAlias_with g name flag kind :
  (∀ nm, steady always (g nm flag aliasNegative)) →
  steady always (addNegativeAlias_with g name flag kind).
Proof.
  intros Hg. unfold addNegativeAlias_with.
  apply (steady_load always (λ _, always) flag flag_value
           (λ v, if bool_decide (kind ≠ aliasNegative) && isSwitchValue v
                 then
                   check g ("no-" +:+ name) flag aliasNegative in
                   if bool_decide (String.length name ≤ 3)%nat
                      && negb (strings.Contains name hyphen)
                   then check g ("n" +:+ name) flag aliasNegative in ret None
                   else ret None
                 else ret None)); [apply covers_value | | done].
  intros v. destruct (_ && _); [|apply steady_ret].
  apply (steady_try always always); [apply Hg | | done].
  destruct (_ && _); [|apply steady_ret].
  apply (steady_try always always); [apply Hg | apply steady_ret | done].
Qed.

Lemma steady_addGroupAlias_body neg name flag kind :
  steady always (neg name flag kind) →
  steady (keeps flag name kind) (addGroupAlias_body neg name flag kind).
Proof.
  intros Hneg. unfold addGroupAlias_body.
  apply (steady_bind _ (λ _, keeps flag name kind)); [apply steady_group| |].
  2: { by intros σ g σ' HP [= <- <-] _. }
  intros g. destruct (long g !! name) as [existing|].
  { apply (steady_load _ (λ _, always) flag flag_name
             (λ fn, let* ec := load existing in
                    ret (Some (errAssociated name fn (flag_name ec)))));
      [apply covers_name | | done].
    intros fn.
    apply (steady_load _ (λ _, always) existing flag_name
             (λ en, ret (Some (errAssociated name fn en))));
      [apply covers_name | intros; apply steady_ret | done]. }
  cbn zeta. destruct (_ && _).
  { apply (steady_load _ (λ _, always) flag flag_name
             (λ fn, let* ac := load_opt (alias_flag (table_get g name)) in
                    ret (Some (errAssociated name fn (flag_name ac)))));
      [apply covers_name | | done].
    intros fn.
    apply (steady_load_opt _ (λ _, always) _ flag_name
             (λ an, ret (Some (errAssociated name fn an))));
      [apply covers_name | intros; apply steady_ret | done]. }
  apply (steady_try _ (keeps flag name kind));
    [by eapply steady_weaken; [|exact Hneg] | |
     intros σ σ' HP _ Hc; by eapply keeps_covers].
  apply (steady_bind _ (λ _, keeps flag name kind));
    [apply steady_table_set | |
     intros σ a σ' HP _ Hc; by eapply keeps_covers].
  intros _.
  apply (steady_bind _ (λ _, always));
    [apply steady_FlagClause_addAlias | | done].
  intros [e|]; [|apply steady_ret].
  apply (steady_load _ (λ _, always) flag flag_name
           (λ fn, ret (Some (errUnable name fn e))));
    [apply covers_name | intros; apply steady_ret | done].
Qed.

Lemma steady_addGroupAlias_fuel n name flag kind :
  steady (keeps flag name kind) (addGroupAlias_fuel n name flag kind).
Proof.
  revert name kind. induction n as [|n IH]; intros name kind.
  { by intros σ r σ' _ H. }
  cbn [addGroupAlias_fuel]. apply steady_addGroupAlias_body.
  apply steady_addNegativeAlias_with. intros nm.
  eapply steady_weaken; [|apply IH]. by intros σ _ ?.
Qed.

Lemma steady_addGroupAlias name flag kind :
  steady (keeps flag name kind) (addGroupAlias name flag kind).
Proof. apply steady_addGroupAlias_fuel. Qed.

Lemma steady_addNegativeAlias name flag kind :
  steady always (addNegativeAlias name flag kind).
Proof.
  apply steady_addNegativeAlias_with. intros nm.
  eapply steady_weaken; [|apply steady_addGroupAlias]. by intros σ _ ?.
Qed.

Lemma covers_with_autoShortcut fc : covers fc (with_autoShortcut fc).
Proof. split; [apply flag_le_with_autoShortcut | done]. Qed.

Lemma with_autoShortcut_covered fc FC :
  covers (with_autoShortcut fc) FC → with_autoShortcut FC = FC.
Proof.
  intros [Hle _]. pose proof (fl_ptr _ _ Hle) as Hp.
  unfold with_autoShortcut in *. simpl in Hp. destruct FC as [n s v p a].
  simpl in *. f_equal.
  destruct Hp as [<-|[Hnil ->]]; [|done].
  by destruct (flag_autoShortcut fc).
Qed.

Lemma heap_covers_insert h p fc fc' :
  h !! p = Some fc → covers fc fc' → heap_covers h (<[p := fc']> h).
Proof.
  intros Hp Hc q. destruct (decide (p = q)) as [<-|Hne].
  - rewrite lookup_insert_eq, Hp. by constructor.
  - rewrite lookup_insert_ne by done. destruct (h !! q); constructor.
    apply covers_refl.
Qed.

Lemma steady_addShortcut name flag : steady always (addShortcut name flag).
Proof.
  intros σ r σ' _ H.
  pose proof H as (fc & Hfc & _ & Hcases)%addShortcut_Returns.
  set (σ1 := with_heap σ (<[flag := with_autoShortcut fc]> (heap σ))) in *.
  assert (heap_covers (heap σ) (heap σ1)) as Hc1.
  { apply (heap_covers_insert _ _ fc); [done|].
    apply covers_with_autoShortcut. }
  assert (Hrun : ∀ h, heap_covers (heap σ1) h →
            addShortcut name flag (with_heap σ h) =
            if synthesizes (fg σ) fc name then
              match shortcutOf (strings.Split name hyphen) with
              | None => Panics IndexOutOfRange
              | Some sc => (check addGroupAlias sc flag aliasShortcut in
                            addNegativeAlias sc flag aliasShortcut)
                             (with_heap σ1 h)
              end
            else Returns None (with_heap σ1 h)).
  { intros h Hh.
    destruct (heap_covers_lookup _ _ flag (with_autoShortcut fc) Hh)
      as (FC & HFC & Hcov); [by simpl; rewrite lookup_insert_eq|].
    rewrite (addShortcut_eq _ _ _ FC) by done. cbn zeta.
    rewrite (with_autoShortcut_covered _ _ Hcov).
    unfold with_heap at 2 4. simpl. rewrite (insert_id h flag FC HFC).
    replace (synthesizes (fg σ) FC name) with (synthesizes (fg σ) fc name);
      [done|].
    destruct Hcov as [Hle _]. rewrite (synthesizes_le _ _ _ _ Hle).
    by rewrite (synthesizes_le _ _ _ _ (flag_le_with_autoShortcut fc)). }
  destruct Hcases as [(Hsyn & -> & ->) | (Hsyn & sc & Hsc & Hrest)].
  - split; [done|]. intros h Hh. rewrite (Hrun h Hh). by rewrite Hsyn.
  - assert (steady always
              (check addGroupAlias sc flag aliasShortcut in
               addNegativeAlias sc flag aliasShortcut)) as Hst.
    { apply (steady_try always always);
        [| apply steady_addNegativeAlias | done].
      eapply steady_weaken; [|apply steady_addGroupAlias]. by intros s _ ?. }
    destruct (Hst σ1 r σ' I Hrest) as [Hc2 Hr2].
    split; [by eapply heap_covers_trans|].
    intros h Hh. rewrite (Hrun h) by (by eapply heap_covers_trans).
    rewrite Hsyn, Hsc. by apply Hr2.
Qed.

Lemma steady_ensureFlagAliases flag es :
  steady (declared flag es) (ensureFlagAliases flag es).
Proof.
  induction es as [|[alias kind] es IH]; cbn [ensureFlagAliases].
  { apply steady_ret. }
  assert (∀ σ, declared flag ((alias, kind) :: es) σ → declared flag es σ)
    as Htail.
  { intros σ Hd a Ha. apply Hd. by right. }
  case_decide as Hk; [by eapply steady_weaken; [apply Htail|]|].
  assert (kind = aliasName) as -> by (by destruct (decide (kind = aliasName))).
  apply (steady_try _ (declared flag es)).
  - eapply steady_weaken; [|apply steady_addGroupAlias].
    intros σ Hd. apply Hd. by left.
  - apply (steady_try _ (declared flag es)); [|exact IH|].
    + eapply steady_weaken; [|apply steady_addShortcut]. done.
    + intros σ σ' Hd _ Hc a Ha. eapply keeps_covers; [exact Hc|]. by apply Hd.
  - intros σ σ' Hd _ Hc a Ha. eapply keeps_covers; [exact Hc|].
    apply Hd. by right.
Qed.

Lemma try_ext (m k k' : M error) σ :
  (∀ s, k s = k' s) → try m k σ = try m k' σ.
Proof.
  intros Hk. unfold try, bind. destruct (m σ) as [[e|] s| |]; auto.
Qed.

(** The loop over the aliases only looks at the declared ones. *)
Lemma ensureFlagAliases_names flag es σ :
  ensureFlagAliases flag es σ
  = ensureFlagAliases flag (filter (λ kv, kv.2 = aliasName) es) σ.
Proof.
  revert σ. induction es as [|[alias kind] es IH]; intros σ; [done|].
  cbn [ensureFlagAliases]. case_decide as Hk.
  - rewrite filter_cons_False by done. apply IH.
  - assert (kind = aliasName) as ->
      by (by destruct (decide (kind = aliasName))).
    rewrite filter_cons_True by done. cbn [ensureFlagAliases].
    rewrite decide_False by (by intros ?).
    apply try_ext. intros s. apply try_ext. apply IH.
Qed.

Lemma covers_names fc FC : covers fc FC → names FC = names fc.
Proof. by intros [_ ?]. Qed.

Lemma steady_ensureFlag flag : steady always (ensureFlag flag).
Proof.
  unfold ensureFlag.
  apply (steady_load always (λ _, always) flag flag_name
           (λ nm, check addShortcut nm flag in
                  check addNegativeAlias nm flag aliasNone in
                  let* fc' := load flag in
                  ensureFlagAliases flag (default [] (flag_aliases fc'))));
    [apply covers_name | | done].
  intros nm.
  apply (steady_try always always); [apply steady_addShortcut | | done].
  apply (steady_try always always); [apply steady_addNegativeAlias | | done].
  apply (steady_ext always
           (let* fc' := load flag in ensureFlagAliases flag (names fc'))).
  { intros σ. unfold bind. destruct (load flag σ) as [fc s| |]; [|done..].
    symmetry. apply ensureFlagAliases_names. }
  apply (steady_load always (λ ns, declared flag ns) flag names
           (λ ns, ensureFlagAliases flag ns));
    [apply covers_names | intros ns; apply steady_ensureFlagAliases |].
  intros σ fc _ Hfc a Ha _. exists fc. split; [done|].
  apply (amap_get_elem_of _ _ aliasName).
  unfold names in Ha. by apply list_elem_of_filter in Ha as [_ ?].
Qed.

Lemma steady_ensureFlags flags : steady always (ensureFlags flags).
Proof.
  induction flags as [|flag flags IH]; cbn [ensureFlags].
  - apply steady_ret.
  - by apply (steady_try always always); [apply steady_ensureFlag | |].
Qed.

Lemma resetAliases_eq σ :
  resetAliases σ = ensureFlags (flagOrder (fg σ)) (with_empty_table σ).
Proof. done. Qed.

(** ** Short-flag bundles *)

Lemma expandBundle_unresolved short front c rest following :
  allSwitches short front = true → short !! c = None →
  expandBundle short (front +:+ String c rest) following = UnresolvedLetter c.
Proof.
  intros Hfront Hc. induction front as [|a front IH].
  - change (EmptyString +:+ String c rest) with (String c rest).
    simpl. by rewrite Hc.
  - change (String a front +:+ String c rest)
      with (String a (front +:+ String c rest)).
    simpl in Hfront |- *. destruct (short !! a) as [f|]; [|done].
    apply andb_true_iff in Hfront as [-> Hfront]. by rewrite IH.
Qed.

(** C6. When the expansion of a bundle gets to a letter that does not
    resolve (the letters before it resolve to switches) and unmanaged
    mode is on, the whole original token is appended to the unmanaged
    tokens, nothing of the stream after the token is consumed, and the
    bound values are those from before the token: no letter resolved
    earlier in the bundle is bound. With unmanaged mode off the token is
    an unrecognized-flag error. *)
Theorem unresolved_bundle_is_unmanaged (short : gmap ascii shortFlag)
    (front : string) (c : ascii) (rest : string) (ctx : parseContext) :
  allSwitches short front = true → short !! c = None →
  parseShortToken true short (front +:+ String c rest) ctx
  = inl (mkContext (bound ctx)
           (Unmanaged ctx ++ ["-" +:+ front +:+ String c rest])
           (stream ctx)) ∧
  ∃ e, parseShortToken false short (front +:+ String c rest) ctx = inr e.
Proof.
  intros Hfront Hc. unfold parseShortToken.
  rewrite (expandBundle_unresolved _ _ _ _ _ Hfront Hc). eauto.
Qed.

Lemma unresolved_bundle_is_unmanaged_witness :
  parseShortToken true testShorts "abcdef" (mkContext [] [] ["-ABCDEF"])
  = inl (mkContext [] ["-abcdef"] ["-ABCDEF"]).
Proof.
  apply (unresolved_bundle_is_unmanaged testShorts "abcde" "f"%char ""
           (mkContext [] [] ["-ABCDEF"])).
  - vm_compute. reflexivity.
  - vm_compute. reflexivity.
Defined.

(** The model on the cases of [TestUnmanaged]: "All shorts", "Normal"
    ([-Dy]) and "Bad switch mixed" ([-cX]). *)
Example parseShortToken_all_shorts :
  parseShortToken false testShorts "abcde" (mkContext [] [] ["-ABCDE"])
  = inl (mkContext [("bool-1", "true"); ("bool-2", "true");
                    ("bool-3", "true"); ("bool-4", "true");
                    ("bool-5", "true")] [] ["-ABCDE"]) ∧
  parseShortToken false testShorts "ABCDE" (mkContext [] [] [])
  = inl (mkContext [("string-1", "BCDE")] [] []) ∧
  parseShortToken false testShorts "Dy" (mkContext [] [] [])
  = inl (mkContext [("string-4", "y")] [] []) ∧
  parseShortToken true testShorts "cX" (mkContext [] [] ["-de"])
  = inl (mkContext [] ["-cX"] ["-de"]).
Proof. repeat split; vm_compute; reflexivity. Qed.

(** ** The declaration methods of a flag *)

Lemma amap_get_snoc_ne m a k b :
  b ≠ a → amap_get (m ++ [(a, k)]) b = amap_get m b.
Proof.
  intros Hne. rewrite amap_get_app. destruct (amap_get m b); [done|].
  simpl. by rewrite decide_False by congruence.
Qed.

Lemma amap_get_snoc_eq m a k :
  amap_get m a = None → amap_get (m ++ [(a, k)]) a = Some k.
Proof. intros Hg. rewrite amap_get_app, Hg. simpl. by rewrite decide_True. Qed.

(** X1. [FlagClause.addAlias] on a flag always returns. A spelling that
    the flag's map holds under another kind gives the error
    [Alias <spelling> already exist] and keeps its kind; otherwise the
    call returns nil and the map holds the spelling under the kind. No
    other spelling, no other flag and nothing of the group changes, and a
    second call with the same arguments returns the same result and
    changes nothing more. *)
Theorem addAlias_round_trip (σ : state) (f : loc) (fc : FlagClause)
    (a : string) (k : aliasKind) :
  heap σ !! f = Some fc →
  ∃ r σ' fc',
    FlagClause_addAlias f a k σ = Returns r σ' ∧
    heap σ' !! f = Some fc' ∧ fg σ' = fg σ ∧
    (∀ p, p ≠ f → heap σ' !! p = heap σ !! p) ∧
    (∀ b, b ≠ a → amap_get (entries fc') b = amap_get (entries fc) b) ∧
    (r = None ↔ amap_get (entries fc) a = None
                ∨ amap_get (entries fc) a = Some k) ∧
    (r = None → amap_get (entries fc') a = Some k) ∧
    (∀ e, r = Some e →
          e = errAlreadyExist a ∧
          amap_get (entries fc') a = amap_get (entries fc) a) ∧
    FlagClause_addAlias f a k σ' = Returns r σ'.
Proof.
  intros Hfc.
  assert (Hrun : ∀ h fc0, h !! f = Some fc0 →
    FlagClause_addAlias f a k (mkState h (fg σ)) =
    match amap_get (entries fc0) a with
    | Some k' =>
        if decide (k' ≠ k)
        then Returns (Some (errAlreadyExist a))
               (mkState (<[f := with_aliases fc0 (entries fc0)]> h) (fg σ))
        else Returns None
               (mkState (<[f := with_aliases fc0 (entries fc0)]> h) (fg σ))
    | None =>
        Returns None
          (mkState (<[f := with_aliases fc0 (entries fc0 ++ [(a, k)])]> h)
             (fg σ))
    end).
  { intros h fc0 Hh. unfold FlagClause_addAlias, bind, load, store.
    cbn [heap fg]. rewrite Hh. fold (entries fc0).
    destruct (amap_get (entries fc0) a) as [k'|] eqn:Hg.
    - case_decide as Hk; [done|]. unfold ret. cbn [heap fg].
      rewrite insert_insert_eq. assert (k' = k) as ->
        by (by destruct (decide (k' = k))).
      by rewrite amap_set_same.
    - unfold ret. cbn [heap fg]. rewrite insert_insert_eq.
      by rewrite amap_set_new. }
  assert (Hother : ∀ fc1 p, p ≠ f →
            (<[f := fc1]> (heap σ)) !! p = heap σ !! p).
  { intros fc1 p Hp. by rewrite lookup_insert_ne. }
  destruct σ as [h g]. cbn [heap fg] in *.
  pose proof (Hrun h fc Hfc) as H1.
  destruct (amap_get (entries fc) a) as [k'|] eqn:Hg.
  - destruct (decide (k' ≠ k)) as [Hk|Hk].
    + exists (Some (errAlreadyExist a)),
        (mkState (<[f := with_aliases fc (entries fc)]> h) g),
        (with_aliases fc (entries fc)).
      split; [done|]. cbn [heap fg]. rewrite lookup_insert_eq.
      split; [done|]. split; [done|]. split; [by apply Hother|].
      split; [done|]. split.
      { split; [done|]. intros [?|[= ?]]; done. }
      split; [done|]. split; [by intros e [= <-]|].
      rewrite (Hrun _ (with_aliases fc (entries fc)))
        by (by rewrite lookup_insert_eq).
      unfold entries at 1. cbn [with_aliases flag_aliases default from_option id].
      rewrite Hg, decide_True by done. by rewrite insert_insert_eq.
    + assert (k' = k) as -> by (by destruct (decide (k' = k))).
      exists None, (mkState (<[f := with_aliases fc (entries fc)]> h) g),
        (with_aliases fc (entries fc)).
      split; [done|]. cbn [heap fg]. rewrite lookup_insert_eq.
      split; [done|]. split; [done|]. split; [by apply Hother|].
      split; [done|]. split; [by split; auto|].
      split; [done|]. split; [done|].
      rewrite (Hrun _ (with_aliases fc (entries fc)))
        by (by rewrite lookup_insert_eq).
      unfold entries at 1. cbn [with_aliases flag_aliases default from_option id].
      rewrite Hg, decide_False by (by intros ?). by rewrite insert_insert_eq.
  - exists None,
      (mkState (<[f := with_aliases fc (entries fc ++ [(a, k)])]> h) g),
      (with_aliases fc (entries fc ++ [(a, k)])).
    split; [done|]. cbn [heap fg]. rewrite lookup_insert_eq.
    split; [done|]. split; [done|]. split; [by apply Hother|].
    split; [intros b Hb; by apply amap_get_snoc_ne|].
    split; [by split; auto|].
    split; [intros _; by apply amap_get_snoc_eq|]. split; [done|].
    rewrite (Hrun _ (with_aliases fc (entries fc ++ [(a, k)])))
      by (by rewrite lookup_insert_eq).
    unfold entries at 1. cbn [with_aliases flag_aliases default from_option id].
    rewrite amap_get_snoc_eq by done. rewrite decide_False by (by intros ?).
    rewrite insert_insert_eq. unfold entries at 2.
    by cbn [with_aliases flag_aliases default from_option id].
Qed.

Lemma addAlias_round_trip_witness :
  ∃ r σ', FlagClause_addAlias 0%nat "loud" aliasShortcut toolGroup
          = Returns r σ' ∧ r = Some (errAlreadyExist "loud").
Proof.
  destruct (addAlias_round_trip toolGroup 0%nat verboseFlag "loud"
              aliasShortcut eq_refl)
    as (r & σ' & fc' & Hrun & _ & _ & _ & _ & Hnil & _ & Herr & _).
  exists r, σ'. split; [exact Hrun|].
  destruct r as [e|].
  - destruct (Herr e eq_refl) as [-> _]. reflexivity.
  - destruct (proj1 Hnil eq_refl) as [Hn|Hn]; vm_compute in Hn; discriminate.
Defined.

(** [FlagClause.addAlias], run on a flag of the heap. *)
Lemma FlagClause_addAlias_eq σ f fc a k :
  heap σ !! f = Some fc →
  FlagClause_addAlias f a k σ =
  match amap_get (entries fc) a with
  | Some k' =>
      Returns (if decide (k' ≠ k) then Some (errAlreadyExist a) else None)
        (with_heap σ (<[f := with_aliases fc (entries fc)]> (heap σ)))
  | None =>
      Returns None
        (with_heap σ (<[f := with_aliases fc (entries fc ++ [(a, k)])]> (heap σ)))
  end.
Proof.
  intros Hfc. unfold FlagClause_addAlias, bind, load, store, with_heap.
  rewrite Hfc. cbn [heap fg]. fold (entries fc).
  destruct (amap_get (entries fc) a) as [k'|] eqn:Hg.
  - case_decide as Hk; [done|]. unfold ret. cbn [heap fg].
    rewrite insert_insert_eq. assert (k' = k) as ->
      by (by destruct (decide (k' = k))).
    by rewrite amap_set_same.
  - unfold ret. cbn [heap fg]. rewrite insert_insert_eq.
    by rewrite amap_set_new.
Qed.

Lemma AliasLoop_spec l σ f fc :
  heap σ !! f = Some fc →
  ∃ σ' fc',
    AliasLoop f l σ = Returns tt σ' ∧
    heap σ' !! f = Some fc' ∧ fg σ' = fg σ ∧
    (∀ p, p ≠ f → heap σ' !! p = heap σ !! p) ∧
    same_declaration fc fc' ∧
    ∀ a, amap_get (entries fc') a =
         match amap_get (entries fc) a with
         | Some k => Some k
         | None => if decide (a ∈ l) then Some aliasName else None
         end.
Proof.
  revert σ fc. induction l as [|x l IH]; intros σ fc Hfc.
  { exists σ, fc. split; [done|]. split; [done|]. split; [done|].
    split; [done|]. split; [done|]. intros a.
    destruct (amap_get (entries fc) a); [done|].
    rewrite decide_False; [done|]. by intros ?%elem_of_nil. }
  cbn [AliasLoop]. unfold bind. rewrite (FlagClause_addAlias_eq _ _ fc) by done.
  assert (∀ m, (∀ a, amap_get m a =
                 match amap_get (entries fc) a with
                 | Some k => Some k
                 | None => if decide (a = x) then Some aliasName else None
                 end) →
          ∃ σ' fc',
            AliasLoop f l (with_heap σ (<[f := with_aliases fc m]> (heap σ)))
            = Returns tt σ' ∧
            heap σ' !! f = Some fc' ∧ fg σ' = fg σ ∧
            (∀ p, p ≠ f → heap σ' !! p = heap σ !! p) ∧
            same_declaration fc fc' ∧
            ∀ a, amap_get (entries fc') a =
                 match amap_get (entries fc) a with
                 | Some k => Some k
                 | None => if decide (a ∈ x :: l) then Some aliasName else None
                 end) as Hstep.
  { intros m Hm.
    destruct (IH (with_heap σ (<[f := with_aliases fc m]> (heap σ)))
                (with_aliases fc m))
      as (σ' & fc' & Hrun & Hf' & Hfg & Hoth & Hsame & Hget).
    { by simpl; rewrite lookup_insert_eq. }
    exists σ', fc'. split; [done|]. split; [done|]. split; [done|].
    split.
    { intros p Hp. rewrite (Hoth p Hp). simpl. by rewrite lookup_insert_ne. }
    split; [done|]. intros a. rewrite Hget.
    change (entries (with_aliases fc m)) with m. rewrite Hm.
    destruct (amap_get (entries fc) a); [done|].
    destruct (decide (a = x)) as [->|Hne].
    - rewrite decide_True; [done | by left].
    - destruct (decide (a ∈ l)) as [Hin|Hnin].
      + rewrite decide_True; [done | by right].
      + rewrite decide_False; [done|]. by intros [?|?]%elem_of_cons. }
  destruct (amap_get (entries fc) x) as [k'|] eqn:Hg.
  - apply Hstep. intros a. destruct (amap_get (entries fc) a) eqn:Ha; [done|].
    rewrite decide_False; [done|]. intros ->. congruence.
  - apply Hstep. intros a. destruct (decide (a = x)) as [->|Hne].
    + by rewrite amap_get_snoc_eq, Hg.
    + rewrite amap_get_snoc_ne by done. by destruct (amap_get (entries fc) a).
Qed.

(** X2. [Alias] with a list of spellings always returns on a flag and
    changes nothing but the flag's own map: a spelling the map held keeps
    its kind, also when the list names it and the kind is not that of a
    declared alias; a spelling of the list that the map did not hold is
    held as a declared alias; no other spelling is added. [Alias] without
    arguments sets the map to nil and declares nothing. *)
Theorem Alias_declares (σ : state) (f : loc) (fc : FlagClause)
    (l : list string) :
  heap σ !! f = Some fc →
  (∃ σ' fc',
     Alias f (Some l) σ = Returns tt σ' ∧
     heap σ' !! f = Some fc' ∧ fg σ' = fg σ ∧
     (∀ p, p ≠ f → heap σ' !! p = heap σ !! p) ∧
     same_declaration fc fc' ∧
     ∀ a, amap_get (entries fc') a =
          match amap_get (entries fc) a with
          | Some k => Some k
          | None => if decide (a ∈ l) then Some aliasName else None
          end) ∧
  Alias f None σ
  = Returns tt
      (with_heap σ
         (<[f := mkFlag (flag_name fc) (flag_shorthand fc) (flag_value fc)
                   (flag_autoShortcut fc) None]> (heap σ))).
Proof.
  intros Hfc. split.
  - unfold Alias, bind, ret. simpl. by apply AliasLoop_spec.
  - unfold Alias, bind, load, store, with_heap. by rewrite Hfc.
Qed.

Lemma Alias_declares_witness :
  ∃ σ' fc', Alias 0%nat (Some ["noisy"; "loud"]) toolGroup = Returns tt σ' ∧
            heap σ' !! 0%nat = Some fc' ∧
            amap_get (entries fc') "noisy" = Some aliasName.
Proof.
  destruct (proj1 (Alias_declares toolGroup 0%nat verboseFlag
                     ["noisy"; "loud"] eq_refl))
    as (σ' & fc' & Hrun & Hf & _ & _ & _ & Hget).
  exists σ', fc'. split; [exact Hrun|]. split; [exact Hf|].
  rewrite Hget. vm_compute. reflexivity.
Defined.

(** ** Lookups in a built table *)

Lemma getFlagAlias_eq σ σ' name :
  ensureAliases σ = Returns None σ' →
  getFlagAlias name σ =
  Returns
    match long (fg σ') !! name with
    | Some flag => mkResolved (Some flag) false None
    | None =>
        if bool_decide (alias_kind (table_get (fg σ') name) ≠ aliasNone)
        then mkResolved (alias_flag (table_get (fg σ') name))
               (bool_decide (alias_kind (table_get (fg σ') name)
                             = aliasNegative)) None
        else mkResolved None false None
    end σ'.
Proof.
  intros H. unfold getFlagAlias, bind. rewrite H. unfold group.
  destruct (long (fg σ') !! name); [done|]. cbn zeta.
  by destruct (bool_decide _).
Qed.

(** A spelling that a build registered resolves to its flag. *)
Lemma getFlagAlias_registered σ σ' k flag kind :
  aliases (fg σ) = None → ensureAliases σ = Returns None σ' →
  registered σ' k flag kind → kind ≠ aliasNone →
  getFlagAlias k σ =
  Returns (mkResolved (Some flag) (bool_decide (kind = aliasNegative)) None) σ'.
Proof.
  intros Ht H Hreg Hk. rewrite (getFlagAlias_eq _ _ _ H).
  destruct (ensureAliases_sound _ _ Ht H k) as [Hl _].
  { unfold live. by rewrite Hreg. }
  rewrite (ev_long _ _ (ensureAliases_evolves _ _ _ H)), Hl, Hreg. simpl.
  by rewrite bool_decide_eq_true_2.
Qed.

(** X3. After a build that succeeds, every spelling the build derives
    from a flag of the group resolves to that flag: a declared alias and
    the shortcut of the name without inversion, and, for a switch, the
    [no-] forms of the name and of each declared alias with the invert
    signal set. *)
Theorem declared_spellings_resolve (σ σ' : state) (flag : loc)
    (fc : FlagClause) :
  aliases (fg σ) = None → ensureAliases σ = Returns None σ' →
  flag ∈ flagOrder (fg σ) → heap σ !! flag = Some fc →
  (∀ alias, (alias, aliasName) ∈ entries fc →
     getFlagAlias alias σ
     = Returns (mkResolved (Some flag) false None) σ' ∧
     (isSwitchValue (flag_value fc) = true →
      getFlagAlias ("no-" +:+ alias) σ
      = Returns (mkResolved (Some flag) true None) σ')) ∧
  (isSwitchValue (flag_value fc) = true →
   getFlagAlias ("no-" +:+ flag_name fc) σ
   = Returns (mkResolved (Some flag) true None) σ') ∧
  (synthesizes (fg σ) fc (flag_name fc) = true →
   ∃ sc, shortcutOf (strings.Split (flag_name fc) hyphen) = Some sc ∧
         getFlagAlias sc σ = Returns (mkResolved (Some flag) false None) σ').
Proof.
  intros Ht H Hin Hfc.
  destruct (ensureAliases_ok _ _ Ht H flag fc Hin Hfc) as [[Hneg Hsc] Halias].
  split; [|split].
  - intros alias Ha. destruct (Halias alias Ha) as [Hr [Hn _]]. split.
    + by apply (getFlagAlias_registered _ _ _ _ aliasName Ht H Hr).
    + intros Hsw. destruct (Hn Hsw) as [Hno _].
      by apply (getFlagAlias_registered _ _ _ _ aliasNegative Ht H Hno).
  - intros Hsw. destruct (Hneg Hsw) as [Hno _].
    by apply (getFlagAlias_registered _ _ _ _ aliasNegative Ht H Hno).
  - intros Hsyn. destruct (Hsc Hsyn) as (sc & Hs & Hr & _).
    exists sc. split; [done|].
    by apply (getFlagAlias_registered _ _ _ _ aliasShortcut Ht H Hr).
Qed.

Lemma declared_spellings_resolve_witness :
  getFlagAlias "loud" toolGroup
  = Returns (mkResolved (Some 0%nat) false None) toolGroupBuilt ∧
  getFlagAlias "no-loud" toolGroup
  = Returns (mkResolved (Some 0%nat) true None) toolGroupBuilt ∧
  getFlagAlias "no-verbose" toolGroup
  = Returns (mkResolved (Some 0%nat) true None) toolGroupBuilt.
Proof.
  destruct (declared_spellings_resolve toolGroup toolGroupBuilt 0%nat
              verboseFlag) as (Ha & Hn & _).
  - reflexivity.
  - exact toolGroup_builds.
  - left.
  - reflexivity.
  - destruct (Ha "loud") as [H1 H2]; [left|].
    split; [exact H1|]. split; [exact (H2 eq_refl) | exact (Hn eq_refl)].
Defined.

(** X4. [getFlagAlias] on a group whose table is not built yet sets the
    invert signal only together with a flag, with no error, and only for
    a flag that is a switch. *)
Theorem invert_only_for_switches (σ σ' : state) (name : string)
    (r : resolved) :
  aliases (fg σ) = None → getFlagAlias name σ = Returns r σ' →
  res_invert r = true →
  res_err r = None ∧ ∃ flag, res_flag r = Some flag ∧ isSwitch σ flag.
Proof.
  intros Ht H Hinv. unfold getFlagAlias in H.
  apply bind_Returns in H as (err & σ1 & Hens & H).
  destruct err as [e|].
  { injection H as <- <-. done. }
  apply bind_Returns in H as (g & σ2 & Hg & H).
  apply group_Returns in Hg as [-> ->].
  destruct (long (fg σ1) !! name).
  { injection H as <- <-. done. }
  cbn zeta in H. destruct (bool_decide _) eqn:Hlive.
  2: { injection H as <- <-. done. }
  injection H as <- <-. simpl in *.
  apply bool_decide_eq_true in Hlive, Hinv.
  destruct (ensureAliases_sound _ _ Ht Hens name Hlive)
    as (_ & p & kd & Hent & _ & _ & Hsw).
  rewrite Hent in Hinv |- *. simpl in *. split; [done|].
  exists p. split; [done|]. by apply Hsw.
Qed.

Lemma invert_only_for_switches_witness :
  ∃ flag, Some 1%nat = Some flag ∧ isSwitch toolGroup flag.
Proof.
  destruct (invert_only_for_switches toolGroup toolGroupBuilt "ndr"
              (mkResolved (Some 1%nat) true None)) as [_ H].
  - reflexivity.
  - vm_compute. reflexivity.
  - reflexivity.
  - exact H.
Defined.

(** X5. Lookups do not disturb a group: after a [getFlagAlias] that
    returned, every further lookup returns without error and leaves the
    state as it is, and repeating a lookup that returned no error gives
    the same flag and invert signal again. *)
Theorem lookups_are_stable (σ σ' : state) (name : string) (r : resolved) :
  getFlagAlias name σ = Returns r σ' →
  (∀ other, ∃ r', getFlagAlias other σ' = Returns r' σ' ∧ res_err r' = None) ∧
  (res_err r = None → getFlagAlias name σ' = Returns r σ').
Proof.
  intros H. unfold getFlagAlias in H.
  apply bind_Returns in H as (err & σ1 & Hens & H).
  assert (ensureAliases σ1 = Returns None σ1) as Hagain.
  { destruct (ensureAliases_built _ _ _ Hens) as [t Hs].
    unfold ensureAliases, bind, group. by rewrite Hs. }
  assert (σ' = σ1) as ->.
  { destruct err; [by injection H as _ ->|].
    apply bind_Returns in H as (g & σ2 & Hg & H).
    apply group_Returns in Hg as [-> ->].
    destruct (long (fg σ1) !! name); [by injection H as _ ->|].
    cbn zeta in H. by destruct (bool_decide _); injection H as _ ->. }
  split.
  - intros other. rewrite (getFlagAlias_eq _ _ other Hagain).
    eexists. split; [done|].
    destruct (long (fg σ1) !! other); [done|]. by destruct (bool_decide _).
  - intros Herr. rewrite (getFlagAlias_eq _ _ name Hagain). f_equal.
    destruct err as [e|]; [injection H as <-; done|].
    apply bind_Returns in H as (g & σ2 & Hg & H).
    apply group_Returns in Hg as [-> ->].
    destruct (long (fg σ1) !! name); [by injection H as <-|].
    cbn zeta in H. by destruct (bool_decide _); injection H as <-.
Qed.

Lemma lookups_are_stable_witness :
  getFlagAlias "nv" toolGroupBuilt
  = Returns (mkResolved (Some 0%nat) true None) toolGroupBuilt.
Proof.
  apply (lookups_are_stable toolGroup toolGroupBuilt "nv"
           (mkResolved (Some 0%nat) true None)).
  - vm_compute. reflexivity.
  - reflexivity.
Defined.

(** ** What a step writes, whatever it returns *)

Lemma addGroupAlias_negative_writes name flag σ r σ' :
  addGroupAlias name flag aliasNegative σ = Returns r σ' →
  ∀ k, table_get (fg σ') k ≠ table_get (fg σ) k →
       k = name ∧ table_get (fg σ') k = negativeOf flag.
Proof.
  rewrite addGroupAlias_unfold. unfold addGroupAlias_body. intros H k Hk.
  apply bind_Returns in H as (g & σ0 & Hg & H).
  apply group_Returns in Hg as [-> ->].
  destruct (long (fg σ) !! name).
  { apply bind_Returns in H as (? & ? & [_ ->]%load_Returns & H).
    apply bind_Returns in H as (? & ? & [_ ->]%load_Returns & H).
    injection H as _ <-. done. }
  destruct (_ && _).
  { apply bind_Returns in H as (? & ? & [_ ->]%load_Returns & H).
    apply bind_Returns in H as (? & ? & (? & _ & _ & ->)%load_opt_Returns & H).
    injection H as _ <-. done. }
  assert (∀ s σ1, addNegativeAlias name flag aliasNegative σ = Returns s σ1 →
                  σ1 = σ) as Hsame.
  { intros s σ1 Hs.
    destruct (addNegativeAlias_evolves _ _ _ _ _ _ Hs) as (_ & _ & _ & E).
    by apply E. }
  apply try_Returns in H as [(e & Hneg & ->)|(σ1 & Hneg & H)].
  { rewrite (Hsame _ _ Hneg) in Hk. done. }
  rewrite (Hsame _ _ Hneg) in H. clear Hsame Hneg σ1.
  apply bind_Returns in H as (u & σ2 & Hset & H).
  apply table_set_Returns in Hset as (t & Ht & ->).
  apply bind_Returns in H as (err & σ3 & Hadd & H).
  destruct (FlagClause_addAlias_evolves _ _ _ _ _ _ Hadd) as [_ Hfg].
  assert (fg σ' = fg σ3) as Hfg'.
  { destruct err.
    - apply bind_Returns in H as (? & ? & [_ ->]%load_Returns & H).
      by injection H as _ <-.
    - by injection H as _ <-. }
  rewrite Hfg', Hfg in Hk |- *. cbn [fg] in Hk |- *.
  rewrite (table_get_set _ t) in Hk |- * by done.
  case_decide; [by subst|done].
Qed.

Lemma addNegativeAlias_writes_any name flag kind σ r σ' :
  addNegativeAlias name flag kind σ = Returns r σ' →
  ∀ k, table_get (fg σ') k ≠ table_get (fg σ) k →
       table_get (fg σ') k = negativeOf flag ∧ isSwitch σ flag ∧
       kind ≠ aliasNegative ∧
       (k = "no-" +:+ name ∨ (k = "n" +:+ name ∧ shortName name = true)).
Proof.
  unfold addNegativeAlias, addNegativeAlias_with. intros H k Hk.
  apply bind_Returns in H as (fc & σ0 & Hl & H).
  apply load_Returns in Hl as [Hfc ->].
  destruct (bool_decide (kind ≠ aliasNegative)) eqn:Hkind; simpl in H;
    [|injection H as _ <-; done].
  destruct (isSwitchValue (flag_value fc)) eqn:Hsw;
    [|injection H as _ <-; done].
  apply bool_decide_eq_true in Hkind.
  assert (isSwitch σ flag) as Hswitch by (by exists fc).
  change (bool_decide (String.length name ≤ 3)%nat
          && negb (strings.Contains name hyphen)) with (shortName name) in H.
  apply try_Returns in H as [(e & H1 & ->)|(σ1 & H1 & H)].
  { destruct (addGroupAlias_negative_writes _ _ _ _ _ H1 k Hk) as [-> Hent].
    auto. }
  assert (∀ s, addGroupAlias ("n" +:+ name) flag aliasNegative σ1
               = Returns s σ' → shortName name = true →
               table_get (fg σ') k = negativeOf flag ∧
               (k = "no-" +:+ name
                ∨ (k = "n" +:+ name ∧ shortName name = true))) as Hsecond.
  { intros s H2 Hshort.
    destruct (decide (table_get (fg σ') k = table_get (fg σ1) k)) as [E|N].
    - rewrite E in Hk |- *.
      destruct (addGroupAlias_negative_writes _ _ _ _ _ H1 k Hk) as [-> Hent].
      auto.
    - destruct (addGroupAlias_negative_writes _ _ _ _ _ H2 k N) as [-> Hent].
      auto. }
  destruct (shortName name) eqn:Hshort.
  - apply try_Returns in H as [(e & H2 & ->)|(σ2 & H2 & H)].
    + destruct (Hsecond _ H2 eq_refl) as [? ?]. auto.
    + injection H as _ <-. destruct (Hsecond _ H2 eq_refl) as [? ?]. auto.
  - injection H as _ <-.
    destruct (addGroupAlias_negative_writes _ _ _ _ _ H1 k Hk) as [-> Hent].
    auto.
Qed.

Lemma addGroupAlias_writes_any name flag kind σ r σ' :
  addGroupAlias name flag kind σ = Returns r σ' →
  ∀ k, table_get (fg σ') k ≠ table_get (fg σ) k →
       (k = name ∧ table_get (fg σ') k = mkAlias (Some flag) kind) ∨
       (table_get (fg σ') k = negativeOf flag ∧ isSwitch σ flag ∧
        kind ≠ aliasNegative ∧
        (k = "no-" +:+ name ∨ (k = "n" +:+ name ∧ shortName name = true))).
Proof.
  rewrite addGroupAlias_unfold. unfold addGroupAlias_body. intros H k Hk.
  apply bind_Returns in H as (g & σ0 & Hg & H).
  apply group_Returns in Hg as [-> ->].
  destruct (long (fg σ) !! name).
  { apply bind_Returns in H as (? & ? & [_ ->]%load_Returns & H).
    apply bind_Returns in H as (? & ? & [_ ->]%load_Returns & H).
    injection H as _ <-. done. }
  destruct (_ && _).
  { apply bind_Returns in H as (? & ? & [_ ->]%load_Returns & H).
    apply bind_Returns in H as (? & ? & (? & _ & _ & ->)%load_opt_Returns & H).
    injection H as _ <-. done. }
  apply try_Returns in H as [(e & Hneg & ->)|(σ1 & Hneg & H)].
  { right. by apply (addNegativeAlias_writes_any _ _ _ _ _ _ Hneg). }
  apply bind_Returns in H as (u & σ2 & Hset & H).
  apply table_set_Returns in Hset as (t & Ht & ->).
  apply bind_Returns in H as (err & σ3 & Hadd & H).
  destruct (FlagClause_addAlias_evolves _ _ _ _ _ _ Hadd) as [_ Hfg].
  assert (fg σ' = fg σ3) as Hfg'.
  { destruct err.
    - apply bind_Returns in H as (? & ? & [_ ->]%load_Returns & H).
      by injection H as _ <-.
    - by injection H as _ <-. }
  destruct (addNegativeAlias_evolves _ _ _ _ _ _ Hneg) as (_ & Hev1 & _).
  rewrite Hfg', Hfg. rewrite Hfg', Hfg in Hk. cbn [fg] in Hk |- *.
  rewrite (table_get_set _ t) in Hk |- * by done.
  case_decide; [left; by subst|right].
  destruct (addNegativeAlias_writes_any _ _ _ _ _ _ Hneg k Hk)
    as (? & ? & ? & ?). auto.
Qed.

(** ** The built table holds only what the flags give rise to *)

Lemma names_elem_of fc a : (a, aliasName) ∈ names fc ↔ (a, aliasName) ∈ entries fc.
Proof. unfold names. rewrite list_elem_of_filter. simpl. split; [by intros [_ ?]|done]. Qed.

Lemma spelling_covers fc FC name :
  covers fc FC → spelling FC name ↔ spelling fc name.
Proof.
  intros Hc. unfold spelling. rewrite (covers_name _ _ Hc).
  rewrite <- (names_elem_of FC), <- (names_elem_of fc).
  by rewrite (covers_names _ _ Hc).
Qed.

Lemma synthesizes_covers g g' fc FC name :
  covers fc FC → autoShortcut g' = autoShortcut g →
  synthesizes g' FC name = synthesizes g fc name.
Proof.
  intros [Hle _] Ha. rewrite <- (synthesizes_le g fc FC name Hle).
  unfold synthesizes, autoShortcutOf. by rewrite Ha.
Qed.

Lemma justified_refl P g h σ : justified P g h σ σ.
Proof. intros k Hk. done. Qed.

Lemma justified_trans P g h σ1 σ2 σ3 :
  justified P g h σ1 σ2 → justified P g h σ2 σ3 → justified P g h σ1 σ3.
Proof.
  intros H12 H23 k Hk.
  destruct (decide (table_get (fg σ3) k = table_get (fg σ2) k)) as [He|Hne].
  - rewrite He in Hk |- *. by apply H12.
  - by apply H23.
Qed.

Lemma justified_weaken (P Q : loc → Prop) g h σ σ' :
  (∀ p, P p → Q p) → justified P g h σ σ' → justified Q g h σ σ'.
Proof.
  intros HPQ H k Hk. destruct (H k Hk) as (p & fc & kd & Hp & ?).
  exists p, fc, kd. split; [by apply HPQ|done].
Qed.

Lemma since_step g h σ σ' :
  since g h σ → evolves σ σ' → heap_covers (heap σ) (heap σ') →
  since g h σ'.
Proof.
  intros [Hc Ha] Hev Hcov. split.
  - by eapply heap_covers_trans.
  - by rewrite (ev_auto _ _ Hev).
Qed.

Lemma since_lookup g h σ flag fc :
  since g h σ → h !! flag = Some fc →
  ∃ FC, heap σ !! flag = Some FC ∧ covers fc FC.
Proof. intros [Hc _]. by apply heap_covers_lookup. Qed.

Lemma addNegativeAlias_justified g h name flag kind σ r σ' fc :
  since g h σ → h !! flag = Some fc →
  spelling fc name ∨ shortcutFor g fc name →
  addNegativeAlias name flag kind σ = Returns r σ' →
  justified (eq flag) g h σ σ'.
Proof.
  intros Hs Hfc Hbase H k Hk.
  destruct (addNegativeAlias_writes_any _ _ _ _ _ _ H k Hk)
    as (Hent & (fcs & Hfcs & Hsw) & _ & Hform).
  destruct (since_lookup _ _ _ _ _ Hs Hfc) as (FC & HFC & Hcov).
  rewrite HFC in Hfcs. injection Hfcs as <-.
  rewrite (covers_value _ _ Hcov) in Hsw.
  exists flag, fc, aliasNegative. split; [done|]. split; [done|].
  split; [done|]. exists name. split; [done|]. by split.
Qed.

Lemma addGroupAlias_justified g h name flag kind σ r σ' fc :
  since g h σ → h !! flag = Some fc →
  generated g fc name kind → kind ≠ aliasNegative →
  addGroupAlias name flag kind σ = Returns r σ' →
  justified (eq flag) g h σ σ'.
Proof.
  intros Hs Hfc Hgen Hkind H k Hk.
  destruct (addGroupAlias_writes_any _ _ _ _ _ _ H k Hk)
    as [[-> Hent]|(Hent & (fcs & Hfcs & Hsw) & _ & Hform)].
  - by exists flag, fc, kind.
  - destruct (since_lookup _ _ _ _ _ Hs Hfc) as (FC & HFC & Hcov).
    rewrite HFC in Hfcs. injection Hfcs as <-.
    rewrite (covers_value _ _ Hcov) in Hsw.
    exists flag, fc, aliasNegative. split; [done|]. split; [done|].
    split; [done|]. exists name. split; [|by split].
    destruct kind; simpl in Hgen; try done.
    + left. by right.
    + by right.
Qed.

Lemma addShortcut_justified g h name flag σ r σ' fc :
  since g h σ → h !! flag = Some fc → spelling fc name →
  addShortcut name flag σ = Returns r σ' →
  justified (eq flag) g h σ σ'.
Proof.
  intros Hs Hfc Hsp H.
  destruct (addShortcut_Returns _ _ _ _ _ H) as (FC & HFC & Hev1 & Hcase).
  destruct (since_lookup _ _ _ _ _ Hs Hfc) as (FC' & HFC' & Hcov).
  rewrite HFC in HFC'. injection HFC' as <-.
  set (σ1 := with_heap σ (<[flag := with_autoShortcut FC]> (heap σ))) in *.
  assert (since g h σ1) as Hs1.
  { apply (since_step _ _ σ); [done..|].
    apply heap_covers_insert with FC; [done|apply covers_with_autoShortcut]. }
  destruct Hcase as [(_ & _ & ->)|(Hsyn & sc & Hsc & Hrun)].
  { intros k Hk. done. }
  apply (justified_trans _ _ _ σ σ1); [intros k Hk; done|].
  rewrite (synthesizes_covers g _ fc FC name Hcov (proj2 Hs)) in Hsyn.
  assert (shortcutFor g fc sc) as Hfor by (by exists name).
  apply try_Returns in Hrun as [(e & Hadd & _)|(σ2 & Hadd & Hneg)].
  { by apply (addGroupAlias_justified g h sc flag aliasShortcut σ1
                (Some e) σ' fc). }
  assert (since g h σ2) as Hs2.
  { apply (since_step _ _ σ1); [done| |].
    - by destruct (addGroupAlias_evolves _ _ _ _ _ _ Hadd).
    - apply (steady_addGroupAlias sc flag aliasShortcut σ1 None σ2);
        [|done]. intros [=]. }
  apply (justified_trans _ _ _ σ1 σ2).
  - by apply (addGroupAlias_justified g h sc flag aliasShortcut σ1 None σ2
                fc).
  - apply (addNegativeAlias_justified g h sc flag aliasShortcut σ2 r σ' fc);
      [done|done|by right|done].
Qed.

Lemma addShortcut_since g h name flag σ r σ' :
  since g h σ → addShortcut name flag σ = Returns r σ' → since g h σ'.
Proof.
  intros Hs H. apply (since_step _ _ σ); [done| |].
  - by apply (addShortcut_evolves _ _ _ _ _ H).
  - by apply (steady_addShortcut name flag σ r σ').
Qed.

Lemma ensureFlagAliases_justified g h flag es σ r σ' fc :
  since g h σ → h !! flag = Some fc →
  (∀ a, (a, aliasName) ∈ es → (a, aliasName) ∈ entries fc) →
  ensureFlagAliases flag es σ = Returns r σ' →
  justified (eq flag) g h σ σ'.
Proof.
  revert σ. induction es as [|[alias kind] es IH]; intros σ Hs Hfc Hes H.
  { injection H as _ <-. apply justified_refl. }
  cbn [ensureFlagAliases] in H. destruct (decide (kind ≠ aliasName)) as [|Hk].
  { apply IH; [done|done| |done]. intros a Ha. apply Hes. by right. }
  assert (kind = aliasName) as ->
    by (destruct (decide (kind = aliasName)); [done|contradiction]).
  assert ((alias, aliasName) ∈ entries fc) as Hin by (apply Hes; left).
  apply try_Returns in H as [(e & Hadd & _)|(σ1 & Hadd & H)].
  { by apply (addGroupAlias_justified g h alias flag aliasName σ (Some e) σ'
                fc). }
  assert (keeps flag alias aliasName σ) as Hkeeps.
  { intros _. destruct (since_lookup _ _ _ _ _ Hs Hfc) as (FC & HFC & Hcov).
    exists FC. split; [done|]. apply amap_get_elem_of with aliasName.
    apply names_elem_of. rewrite (covers_names _ _ Hcov).
    by apply names_elem_of. }
  assert (since g h σ1) as Hs1.
  { apply (since_step _ _ σ); [done| |].
    - by destruct (addGroupAlias_evolves _ _ _ _ _ _ Hadd).
    - by apply (steady_addGroupAlias alias flag aliasName σ None σ1). }
  apply (justified_trans _ _ _ σ σ1).
  { by apply (addGroupAlias_justified g h alias flag aliasName σ None σ1
                fc). }
  apply try_Returns in H as [(e & Hsc & _)|(σ2 & Hsc & H)].
  { apply (addShortcut_justified g h alias flag σ1 (Some e) σ' fc);
      [done..|by right|done]. }
  apply (justified_trans _ _ _ σ1 σ2).
  { apply (addShortcut_justified g h alias flag σ1 None σ2 fc);
      [done..|by right|done]. }
  apply IH; [by apply (addShortcut_since g h alias flag σ1 None)|done| |done].
  intros a Ha. apply Hes. by right.
Qed.

Lemma ensureFlag_justified g h flag σ r σ' :
  since g h σ → ensureFlag flag σ = Returns r σ' →
  since g h σ' ∧ justified (eq flag) g h σ σ'.
Proof.
  intros Hs H. split.
  { apply (since_step _ _ σ); [done| |].
    - by apply (ensureFlag_evolves _ _ _ _ H).
    - by apply (steady_ensureFlag flag σ r σ'). }
  unfold ensureFlag in H.
  apply bind_Returns in H as (FC & σ0 & Hl & H).
  apply load_Returns in Hl as [HFC ->].
  pose proof (proj1 Hs flag) as Hrel. rewrite HFC in Hrel.
  inversion Hrel as [fc FC' Hcov Hfc|]; subst.
  symmetry in Hfc.
  assert (spelling fc (flag_name FC)) as Hname.
  { left. by apply covers_name. }
  apply try_Returns in H as [(e & Hsc & _)|(σ1 & Hsc & H)].
  { by apply (addShortcut_justified g h (flag_name FC) flag σ (Some e) σ'
                fc). }
  apply (justified_trans _ _ _ σ σ1).
  { by apply (addShortcut_justified g h (flag_name FC) flag σ None σ1 fc). }
  assert (since g h σ1) as Hs1
    by (by apply (addShortcut_since g h (flag_name FC) flag σ None)).
  apply try_Returns in H as [(e & Hneg & _)|(σ2 & Hneg & H)].
  { apply (addNegativeAlias_justified g h (flag_name FC) flag aliasNone
             σ1 (Some e) σ' fc); [done|done|by left|done]. }
  apply bind_Returns in H as (FC2 & σ3 & Hl & H).
  apply load_Returns in Hl as [HFC2 ->].
  assert (since g h σ2) as Hs2.
  { apply (since_step _ _ σ1); [done| |].
    - by destruct (addNegativeAlias_evolves _ _ _ _ _ _ Hneg) as (_ & ? & _).
    - by apply (steady_addNegativeAlias (flag_name FC) flag aliasNone
                  σ1 None σ2). }
  apply (justified_trans _ _ _ σ1 σ2).
  { apply (addNegativeAlias_justified g h (flag_name FC) flag aliasNone
             σ1 None σ2 fc); [done|done|by left|done]. }
  apply (ensureFlagAliases_justified g h flag
           (default [] (flag_aliases FC2)) σ2 r σ' fc); [done..| |done].
  intros a Hin.
  destruct (since_lookup _ _ _ _ _ Hs2 Hfc) as (FC3 & HFC3 & Hcov3).
  rewrite HFC2 in HFC3. injection HFC3 as <-.
  apply names_elem_of. rewrite <- (covers_names _ _ Hcov3).
  by apply names_elem_of.
Qed.

Lemma ensureFlags_justified g h flags σ r σ' :
  since g h σ → ensureFlags flags σ = Returns r σ' →
  justified (λ p, p ∈ flags) g h σ σ'.
Proof.
  revert σ. induction flags as [|flag flags IH]; intros σ Hs H.
  { injection H as _ <-. apply justified_refl. }
  cbn [ensureFlags] in H.
  apply try_Returns in H as [(e & Hone & _)|(σ1 & Hone & H)].
  { destruct (ensureFlag_justified g h flag σ (Some e) σ' Hs Hone)
      as [_ Hj].
    apply (justified_weaken (eq flag)); [|done]. intros p <-. left. }
  destruct (ensureFlag_justified g h flag σ None σ1 Hs Hone) as [Hs1 Hj].
  apply (justified_trans _ _ _ σ σ1).
  - apply (justified_weaken (eq flag)); [|done]. intros p <-. left.
  - apply (justified_weaken (λ p, p ∈ flags)); [|by apply IH].
    intros p Hp. by right.
Qed.

(** Every live entry of a table built from nil is derived from a flag of
    the group, also when the build returns an error. *)
Lemma ensureAliases_justified σ r σ' :
  aliases (fg σ) = None → ensureAliases σ = Returns r σ' →
  ∀ k, live (table_get (fg σ') k) →
       ∃ p fc kd, p ∈ flagOrder (fg σ) ∧ heap σ !! p = Some fc ∧
                  table_get (fg σ') k = mkAlias (Some p) kd ∧
                  generated (fg σ) fc k kd.
Proof.
  intros Ht H k Hlive.
  destruct (ensureAliases_Returns _ _ _ H) as [([t Hsome] & _)|[_ Hrun]].
  { by rewrite Ht in Hsome. }
  apply (ensureFlags_justified (fg σ) (heap σ)) in Hrun.
  - apply (Hrun k). rewrite table_get_empty. intros Heq.
    unfold live in Hlive. by rewrite Heq in Hlive.
  - split; [apply heap_covers_refl|done].
Qed.

Lemma ensureAliases_generated σ σ' :
  aliases (fg σ) = None → ensureAliases σ = Returns None σ' →
  ∀ k, live (table_get (fg σ') k) →
       ∃ p fc kd, p ∈ flagOrder (fg σ) ∧ heap σ !! p = Some fc ∧
                  table_get (fg σ') k = mkAlias (Some p) kd ∧
                  generated (fg σ) fc k kd.
Proof. apply ensureAliases_justified. Qed.

Lemma flagBuilt_spelling g fc σ' flag name :
  flagBuilt g fc σ' flag → spelling fc name →
  spellingBuilt g fc σ' flag name.
Proof.
  intros [Hname Halias] [->|Hin]; [done|]. by destruct (Halias name Hin).
Qed.

Lemma flagBuilt_shortcut g fc σ' flag sc :
  flagBuilt g fc σ' flag → shortcutFor g fc sc →
  registered σ' sc flag aliasShortcut ∧
  (isSwitchValue (flag_value fc) = true → negatives σ' sc flag).
Proof.
  intros Hb (name & Hsp & Hsyn & Hsc).
  destruct (flagBuilt_spelling _ _ _ _ _ Hb Hsp) as [_ Hs].
  destruct (Hs Hsyn) as (sc' & Hsc' & Hreg & Hneg).
  rewrite Hsc in Hsc'. by injection Hsc' as <-.
Qed.

(** A build that succeeds registers every spelling a flag of the group
    gives rise to. *)
Lemma ensureAliases_registers σ σ' p fc k kd :
  aliases (fg σ) = None → ensureAliases σ = Returns None σ' →
  p ∈ flagOrder (fg σ) → heap σ !! p = Some fc →
  generated (fg σ) fc k kd → registered σ' k p kd.
Proof.
  intros Ht H Hin Hfc Hgen.
  pose proof (ensureAliases_ok _ _ Ht H p fc Hin Hfc) as Hb.
  destruct kd; simpl in Hgen.
  - done.
  - by destruct (proj2 Hb k Hgen).
  - destruct Hgen as (base & Hbase & Hsw & Hform).
    assert (negatives σ' base p) as [Hno Hn].
    { destruct Hbase as [Hsp|Hfor].
      - by apply (flagBuilt_spelling _ _ _ _ _ Hb Hsp).
      - by apply (flagBuilt_shortcut _ _ _ _ _ Hb Hfor). }
    destruct Hform as [->|[-> Hshort]]; [done|by apply Hn].
  - by apply (flagBuilt_shortcut _ _ _ _ _ Hb Hgen).
Qed.

Lemma generated_live g fc k kd : generated g fc k kd → kd ≠ aliasNone.
Proof. by destruct kd. Qed.

(** X6. The table a successful build makes from nil holds exactly the
    spellings the flags of the group give rise to: a spelling is
    registered for a flag under a kind if and only if the flag is in
    [flagOrder] and the spelling is, for that kind, a declared alias of
    the flag, the shortcut of its name or of a declared alias, or a
    negative form ([no-], and [n] for a short base) of such a spelling or
    shortcut of a switch. *)
Theorem built_table_is_exact (σ σ' : state) (k : string) (p : loc)
    (kd : aliasKind) :
  aliases (fg σ) = None → ensureAliases σ = Returns None σ' →
  kd ≠ aliasNone →
  registered σ' k p kd ↔
  ∃ fc, p ∈ flagOrder (fg σ) ∧ heap σ !! p = Some fc ∧
        generated (fg σ) fc k kd.
Proof.
  intros Ht H Hkd. split.
  - intros Hreg.
    destruct (ensureAliases_generated _ _ Ht H k)
      as (p' & fc & kd' & Hin & Hfc & Hent & Hgen).
    { unfold live. by rewrite Hreg. }
    unfold registered in Hreg. rewrite Hent in Hreg.
    injection Hreg as -> ->. by exists fc.
  - intros (fc & Hin & Hfc & Hgen).
    by apply (ensureAliases_registers σ σ' p fc).
Qed.

Lemma built_table_is_exact_witness :
  ∃ fc, 0%nat ∈ flagOrder (fg toolGroup) ∧ heap toolGroup !! 0%nat = Some fc ∧
        generated (fg toolGroup) fc "nv" aliasNegative.
Proof.
  apply (built_table_is_exact toolGroup toolGroupBuilt "nv" 0%nat
           aliasNegative).
  - reflexivity.
  - exact toolGroup_builds.
  - discriminate.
  - vm_compute. reflexivity.
Defined.

(** X7. A build that succeeds is unambiguous: a spelling a flag of the
    group gives rise to is no long name of the group, and no other flag
    of the group, and no other kind, gives rise to the same spelling. *)
Theorem successful_build_is_unambiguous (σ σ' : state) (p : loc)
    (fc : FlagClause) (k : string) (kd : aliasKind) :
  aliases (fg σ) = None → ensureAliases σ = Returns None σ' →
  p ∈ flagOrder (fg σ) → heap σ !! p = Some fc →
  generated (fg σ) fc k kd →
  long (fg σ) !! k = None ∧
  ∀ q fc' kd', q ∈ flagOrder (fg σ) → heap σ !! q = Some fc' →
               generated (fg σ) fc' k kd' → q = p ∧ kd' = kd.
Proof.
  intros Ht H Hin Hfc Hgen.
  pose proof (ensureAliases_registers _ _ _ _ _ _ Ht H Hin Hfc Hgen) as Hreg.
  split.
  - apply (ensureAliases_sound _ _ Ht H k). unfold live. rewrite Hreg.
    by apply (generated_live (fg σ) fc k).
  - intros q fc' kd' Hin' Hfc' Hgen'.
    pose proof (ensureAliases_registers _ _ _ _ _ _ Ht H Hin' Hfc' Hgen')
      as Hreg'.
    unfold registered in *. rewrite Hreg in Hreg'. by injection Hreg' as -> ->.
Qed.

Lemma successful_build_is_unambiguous_witness :
  long (fg toolGroup) !! "l" = None.
Proof.
  apply (successful_build_is_unambiguous toolGroup toolGroupBuilt 0%nat
           verboseFlag "l" aliasShortcut).
  - reflexivity.
  - exact toolGroup_builds.
  - left.
  - reflexivity.
  - exists "loud". split; [right; left|]. split; reflexivity.
Defined.

Lemma setAutoShortcut_Returns f b σ u σ' fc :
  heap σ !! f = Some fc → setAutoShortcut f b σ = Returns u σ' →
  σ' = with_heap σ
         (<[f := mkFlag (flag_name fc) (flag_shorthand fc) (flag_value fc)
                   (ptrOwn b) (flag_aliases fc)]> (heap σ)).
Proof.
  intros Hfc H. unfold setAutoShortcut, bind, load, store in H.
  rewrite Hfc in H. by injection H as _ <-.
Qed.

(** X8. The setting of a flag overrides that of its group. After
    [NoAutoShortcut] a successful build registers no shortcut for the
    flag, whatever the group's setting. After [AutoShortcut] it registers
    the shortcut of the name and of each declared alias of the flag,
    unless the flag has a shorthand and the spelling no hyphen, also when
    the group's setting is off. In every successful build a flag with a
    shortcut has the setting in effect turned on. *)
Theorem flag_setting_overrides_group (σ0 : state) (f : loc)
    (fc : FlagClause) :
  heap σ0 !! f = Some fc → aliases (fg σ0) = None →
  (∀ σ σ', NoAutoShortcut f σ0 = Returns tt σ →
           ensureAliases σ = Returns None σ' →
           ∀ k, ¬ registered σ' k f aliasShortcut) ∧
  (∀ σ σ', AutoShortcut f σ0 = Returns tt σ →
           ensureAliases σ = Returns None σ' →
           f ∈ flagOrder (fg σ0) →
           ∀ name, spelling fc name →
                   flag_shorthand fc = 0
                   ∨ strings.Contains name hyphen = true →
                   ∃ sc, shortcutOf (strings.Split name hyphen) = Some sc ∧
                         registered σ' sc f aliasShortcut) ∧
  (∀ σ' k, ensureAliases σ0 = Returns None σ' →
           registered σ' k f aliasShortcut →
           autoShortcutOf (fg σ0) fc = true).
Proof.
  intros Hfc Ht. split; [|split].
  - intros σ σ' Hset H k Hreg.
    apply (setAutoShortcut_Returns _ _ _ _ _ _ Hfc) in Hset.
    assert (aliases (fg σ) = None) as Htσ by (by rewrite Hset).
    destruct (ensureAliases_generated _ _ Htσ H k)
      as (p & fc' & kd & _ & Hfc' & Hent & Hgen).
    { unfold live. by rewrite Hreg. }
    unfold registered in Hreg. rewrite Hent in Hreg. injection Hreg as -> ->.
    rewrite Hset in Hfc'. cbn [with_heap heap] in Hfc'.
    rewrite lookup_insert_eq in Hfc'.
    injection Hfc' as <-. destruct Hgen as (name & _ & Hsyn & _).
    unfold synthesizes, autoShortcutOf in Hsyn. by simpl in Hsyn.
  - intros σ σ' Hset H Hin name Hsp Hshape.
    apply (setAutoShortcut_Returns _ _ _ _ _ _ Hfc) in Hset.
    set (fc1 := mkFlag (flag_name fc) (flag_shorthand fc) (flag_value fc)
                  (ptrOwn true) (flag_aliases fc)) in *.
    assert (aliases (fg σ) = None) as Htσ by (by rewrite Hset).
    assert (f ∈ flagOrder (fg σ)) as Hinσ by (by rewrite Hset).
    assert (heap σ !! f = Some fc1) as Hfc1
      by (rewrite Hset; apply lookup_insert_eq).
    pose proof (ensureAliases_ok _ _ Htσ H f fc1 Hinσ Hfc1) as Hb.
    destruct (flagBuilt_spelling _ _ _ _ name Hb Hsp) as [_ Hs].
    destruct Hs as (sc & Hsc & Hreg & _); [|by exists sc].
    unfold synthesizes, autoShortcutOf. cbn.
    destruct Hshape as [->| ->]; [done|].
    by rewrite andb_false_r.
  - intros σ' k H Hreg.
    destruct (ensureAliases_generated _ _ Ht H k)
      as (p & fc' & kd & _ & Hfc' & Hent & Hgen).
    { unfold live. by rewrite Hreg. }
    unfold registered in Hreg. rewrite Hent in Hreg. injection Hreg as -> ->.
    rewrite Hfc in Hfc'. injection Hfc' as <-.
    destruct Hgen as (name & _ & Hsyn & _).
    unfold synthesizes in Hsyn. by apply andb_true_iff in Hsyn as [? _].
Qed.

Lemma flag_setting_overrides_group_witness :
  table_get
    (fg match (let* _ := NoAutoShortcut 0%nat in ensureAliases) toolGroup with
        | Returns _ σ => σ
        | _ => toolGroup
        end) "v"
  ≠ mkAlias (Some 0%nat) aliasShortcut.
Proof.
  destruct (flag_setting_overrides_group toolGroup 0%nat verboseFlag)
    as (Hno & _); [reflexivity..|].
  eapply Hno; vm_compute; reflexivity.
Defined.

Lemma generated_reordered g fc fc' k kd :
  same_declaration fc fc' → entries fc ≡ₚ entries fc' →
  generated g fc k kd → generated g fc' k kd.
Proof.
  intros (Hn & Hs & Hv & Hp) Hperm.
  assert (∀ name, spelling fc name → spelling fc' name) as Hsp.
  { intros name [->|Hin]; [by left|right]. by rewrite <- Hperm. }
  assert (∀ name, synthesizes g fc' name = synthesizes g fc name) as Hsyn.
  { intros name. unfold synthesizes, autoShortcutOf. by rewrite Hs, Hp. }
  assert (∀ sc, shortcutFor g fc sc → shortcutFor g fc' sc) as Hfor.
  { intros sc (name & ? & ? & ?). exists name.
    split; [by apply Hsp|]. by rewrite Hsyn. }
  destruct kd; simpl; [done| | |by apply Hfor].
  - intros Hin. by rewrite <- Hperm.
  - intros (base & Hbase & Hsw & Hform). exists base. split.
    + destruct Hbase; [left; by apply Hsp|right; by apply Hfor].
    + split; [by rewrite Hv|done].
Qed.

Lemma reordered_sym h h' : reordered h h' → reordered h' h.
Proof.
  intros H p. destruct (H p) as [fc fc' [(Hn & Hs & Hv & Hp) Hperm]|];
    constructor. by repeat split.
Qed.

(** An entry of a built table that is not live is the zero value. *)
Lemma ensureAliases_dead σ σ' k :
  aliases (fg σ) = None → ensureAliases σ = Returns None σ' →
  ¬ live (table_get (fg σ') k) → table_get (fg σ') k = zeroAlias.
Proof.
  intros Ht H Hdead.
  destruct (ensureAliases_Returns _ _ _ H) as [([t Hsome] & _)|[_ Hrun]].
  { by rewrite Ht in Hsome. }
  destruct (decide (table_get (fg σ') k = zeroAlias)) as [|Hne]; [done|].
  destruct (ensureFlags_sound _ _ _ Hrun k) as (p & kd & Hent & Hkd & _).
  { by rewrite table_get_empty. }
  exfalso. apply Hdead. unfold live. by rewrite Hent.
Qed.

Lemma reordered_registered σ τ σ' τ' k p kd :
  aliases (fg σ) = None → fg τ = fg σ → reordered (heap σ) (heap τ) →
  ensureAliases σ = Returns None σ' → ensureAliases τ = Returns None τ' →
  kd ≠ aliasNone →
  registered σ' k p kd → registered τ' k p kd.
Proof.
  intros Ht Hfg Hre Hσ Hτ Hkd Hreg.
  destruct (ensureAliases_generated _ _ Ht Hσ k)
    as (p' & fc & kd' & Hin & Hfc & Hent & Hgen).
  { unfold live. by rewrite Hreg. }
  unfold registered in Hreg. rewrite Hent in Hreg. injection Hreg as -> ->.
  pose proof (Hre p) as Hp. rewrite Hfc in Hp.
  inversion Hp as [? fc' [Hsame Hperm] E1 E2|]; subst.
  symmetry in E2.
  apply (ensureAliases_registers τ τ' p fc').
  - by rewrite Hfg.
  - done.
  - by rewrite Hfg.
  - done.
  - rewrite Hfg. by apply (generated_reordered _ fc).
Qed.

(** X9. The order in which the range over a flag's own map produces the
    declared aliases does not show in the result of a successful build:
    two groups that differ in that order only, and whose builds both
    succeed, get the same table, so that every lookup gives the same
    flag, invert signal and error on both. *)
Theorem build_result_ignores_range_order (σ τ σ' τ' : state) :
  aliases (fg σ) = None → fg τ = fg σ → reordered (heap σ) (heap τ) →
  ensureAliases σ = Returns None σ' → ensureAliases τ = Returns None τ' →
  (∀ k, table_get (fg τ') k = table_get (fg σ') k) ∧
  ∀ name, ∃ r, getFlagAlias name σ = Returns r σ' ∧
               getFlagAlias name τ = Returns r τ'.
Proof.
  intros Ht Hfg Hre Hσ Hτ.
  assert (aliases (fg τ) = None) as Ht' by (by rewrite Hfg).
  assert (fg σ = fg τ) as Hfg' by done.
  assert (∀ k, table_get (fg τ') k = table_get (fg σ') k) as Htab.
  { intros k.
    destruct (decide (alias_kind (table_get (fg σ') k) = aliasNone))
      as [Hd|Hl].
    - rewrite (ensureAliases_dead σ σ' k Ht Hσ) by (by intros ?).
      apply (ensureAliases_dead τ τ' k Ht' Hτ). intros Hl.
      destruct (ensureAliases_sound _ _ Ht' Hτ k Hl)
        as (_ & p & kd & Hent & Hkd & _).
      pose proof (reordered_registered τ σ τ' σ' k p kd Ht' Hfg'
                    (reordered_sym _ _ Hre) Hτ Hσ Hkd Hent) as Hreg.
      unfold registered in Hreg. rewrite Hreg in Hd. by simpl in Hd.
    - destruct (ensureAliases_sound _ _ Ht Hσ k Hl)
        as (_ & p & kd & Hent & Hkd & _).
      rewrite Hent.
      by apply (reordered_registered σ τ σ' τ' k p kd). }
  split; [done|]. intros name. eexists. split.
  - apply (getFlagAlias_eq _ _ _ Hσ).
  - rewrite (getFlagAlias_eq _ _ _ Hτ).
    rewrite (ev_long _ _ (ensureAliases_evolves _ _ _ Hτ)), Hfg.
    rewrite <- (ev_long _ _ (ensureAliases_evolves _ _ _ Hσ)).
    by rewrite Htab.
Qed.

Lemma build_result_ignores_range_order_witness :
  table_get
    (fg (final ensureAliases
           (chattyGroup [("chatty", aliasName); ("loud", aliasName)]))) "nc"
  = table_get
      (fg (final ensureAliases
             (chattyGroup [("loud", aliasName); ("chatty", aliasName)]))) "nc".
Proof.
  apply (build_result_ignores_range_order
           (chattyGroup [("loud", aliasName); ("chatty", aliasName)])
           (chattyGroup [("chatty", aliasName); ("loud", aliasName)])).
  - reflexivity.
  - reflexivity.
  - intros p. cbn [chattyGroup heap].
    destruct (decide (p = 0%nat)) as [->|Hp].
    + rewrite !lookup_insert_eq. constructor. split.
      * repeat split.
      * apply perm_swap.
    + rewrite !lookup_insert_ne by done. rewrite !lookup_empty. constructor.
  - vm_compute. reflexivity.
  - vm_compute. reflexivity.
Defined.

(** ** The build returns unless a word is empty *)

Lemma returns_bind {A B} (m : M A) (k : A → M B) σ :
  returns m σ → (∀ a σ', m σ = Returns a σ' → returns (k a) σ') →
  returns (bind m k) σ.
Proof.
  intros (a & σ' & H) Hk. destruct (Hk a σ' H) as (b & σ'' & H').
  exists b, σ''. unfold bind. by rewrite H.
Qed.

Lemma returns_try (m k : M error) σ :
  returns m σ → (∀ σ', m σ = Returns None σ' → returns k σ') →
  returns (try m k) σ.
Proof.
  intros Hm Hk. apply returns_bind; [done|].
  intros [e|] σ' H; [by exists (Some e), σ'|by apply Hk].
Qed.

Lemma returns_load p σ : is_Some (heap σ !! p) → returns (load p) σ.
Proof. intros [fc H]. exists fc, σ. unfold load. by rewrite H. Qed.

Lemma returns_ret {A} (a : A) σ : returns (ret a) σ.
Proof. by exists a, σ. Qed.

Lemma ready_evolves σ σ' : evolves σ σ' → ready σ → ready σ'.
Proof.
  intros Hev (Hb & Hinv & Hl). split; [by apply (ev_built _ _ Hev)|].
  split; [by apply (tableInv_evolves σ)|].
  intros k p Hk. rewrite (ev_long _ _ Hev) in Hk.
  apply (evolves_heap_Some _ _ p Hev). by apply (Hl k).
Qed.

Lemma addNegativeAlias_with_returns g name flag kind σ :
  (∀ nm s, ready s → is_Some (heap s !! flag) →
           returns (g nm flag aliasNegative) s) →
  (∀ nm s r s', g nm flag aliasNegative s = Returns r s' → evolves s s') →
  ready σ → is_Some (heap σ !! flag) →
  returns (addNegativeAlias_with g name flag kind) σ.
Proof.
  intros Hg Hev Hr Hf. unfold addNegativeAlias_with.
  apply returns_bind; [by apply returns_load|].
  intros fc σ0 Hl. apply load_Returns in Hl as [_ ->].
  destruct (_ && _); [|apply returns_ret].
  apply returns_try; [by apply Hg|]. intros σ1 H1.
  destruct (_ && _); [|apply returns_ret].
  apply returns_try; [|intros; apply returns_ret].
  pose proof (Hev _ _ _ _ H1) as Hev1.
  apply Hg; [by apply (ready_evolves σ)|].
  by apply (evolves_heap_Some _ _ flag Hev1).
Qed.

Lemma addGroupAlias_body_returns neg name flag kind σ :
  (∀ s, ready s → is_Some (heap s !! flag) → returns (neg name flag kind) s) →
  (∀ s r s', neg name flag kind s = Returns r s' → evolves s s') →
  ready σ → is_Some (heap σ !! flag) →
  returns (addGroupAlias_body neg name flag kind) σ.
Proof.
  intros Hneg Hev Hr Hf. unfold addGroupAlias_body.
  apply returns_bind; [by exists (fg σ), σ|].
  intros g σ0 Hg. apply group_Returns in Hg as [-> ->].
  destruct Hr as (Hb & Hinv & Hl).
  destruct (long (fg σ) !! name) as [existing|] eqn:Hlong.
  { apply returns_bind; [by apply returns_load|].
    intros fc σ0 H0. apply load_Returns in H0 as [_ ->].
    apply returns_bind; [apply returns_load; by apply (Hl name)|].
    intros; apply returns_ret. }
  destruct (_ && _) eqn:Hc.
  { apply conflict_spec in Hc as [Hlive _].
    destruct (Hinv name Hlive) as (_ & p & Hp & Hh).
    apply returns_bind; [by apply returns_load|].
    intros fc σ0 H0. apply load_Returns in H0 as [_ ->].
    rewrite Hp. apply returns_bind; [by apply returns_load|].
    intros; apply returns_ret. }
  apply returns_try; [by apply Hneg|]. intros σ1 H1.
  pose proof (Hev _ _ _ H1) as Hev1.
  destruct (ev_built _ _ Hev1 Hb) as [t Ht].
  assert (is_Some (heap σ1 !! flag)) as [fc1 Hfc1]
    by (by apply (evolves_heap_Some _ _ flag Hev1)).
  apply returns_bind.
  { eexists tt, _. unfold table_set, bind, group. rewrite Ht. done. }
  intros u σ2 H2. apply table_set_Returns in H2 as (t' & _ & ->).
  apply returns_bind.
  { unfold returns. rewrite (FlagClause_addAlias_eq _ flag fc1) by done.
    destruct (amap_get _ _); by eexists _, _. }
  intros err σ3 H3. destruct err; [|apply returns_ret].
  apply returns_bind; [|intros; apply returns_ret].
  apply returns_load.
  destruct (FlagClause_addAlias_evolves _ _ _ _ _ _ H3) as [Hev3 _].
  apply (evolves_heap_Some _ _ flag Hev3). by exists fc1.
Qed.

Lemma addGroupAlias_negative_returns name flag σ :
  ready σ → is_Some (heap σ !! flag) →
  returns (addGroupAlias name flag aliasNegative) σ.
Proof.
  intros Hr Hf. unfold returns. rewrite addGroupAlias_unfold.
  apply addGroupAlias_body_returns; [| |done..].
  - intros s _ Hs. unfold returns, addNegativeAlias.
    rewrite addNegativeAlias_with_negative.
    apply returns_bind; [by apply returns_load|]. intros; apply returns_ret.
  - intros s r s' H. by destruct (addNegativeAlias_evolves _ _ _ _ _ _ H)
      as (_ & ? & _).
Qed.

Lemma addNegativeAlias_returns name flag kind σ :
  ready σ → is_Some (heap σ !! flag) →
  returns (addNegativeAlias name flag kind) σ.
Proof.
  apply addNegativeAlias_with_returns.
  - intros nm s. apply addGroupAlias_negative_returns.
  - intros nm s r s' H. by destruct (addGroupAlias_evolves _ _ _ _ _ _ H).
Qed.

Lemma addGroupAlias_returns name flag kind σ :
  ready σ → is_Some (heap σ !! flag) →
  returns (addGroupAlias name flag kind) σ.
Proof.
  intros Hr Hf. unfold returns. rewrite addGroupAlias_unfold.
  apply addGroupAlias_body_returns; [| |done..].
  - intros s. apply addNegativeAlias_returns.
  - intros s r s' H. by destruct (addNegativeAlias_evolves _ _ _ _ _ _ H)
      as (_ & ? & _).
Qed.

Lemma addShortcut_returns name flag σ fc :
  ready σ → heap σ !! flag = Some fc →
  (synthesizes (fg σ) fc name = true →
   EmptyString ∉ strings.Split name hyphen) →
  returns (addShortcut name flag) σ.
Proof.
  intros Hr Hfc Hw. unfold returns. rewrite (addShortcut_eq _ _ _ _ Hfc).
  cbn zeta. destruct (synthesizes (fg σ) fc name); [|by eexists _, _].
  destruct (shortcutOf _) as [sc|] eqn:Hsc.
  2: { apply shortcutOf_None in Hsc. by destruct Hw. }
  set (σ1 := with_heap σ (<[flag := with_autoShortcut fc]> (heap σ))).
  assert (evolves σ σ1) as Hev1
    by (apply evolves_store with fc; [done|apply flag_le_with_autoShortcut]).
  assert (is_Some (heap σ1 !! flag)) as Hf1
    by (apply (evolves_heap_Some _ _ flag Hev1); by exists fc).
  apply returns_try.
  { apply addGroupAlias_returns; [by apply (ready_evolves σ)|done]. }
  intros σ2 H2. destruct (addGroupAlias_evolves _ _ _ _ _ _ H2) as [Hev2 _].
  apply addNegativeAlias_returns.
  - apply (ready_evolves σ1); [done|]. by apply (ready_evolves σ).
  - by apply (evolves_heap_Some _ _ flag Hev2).
Qed.

Lemma ensureFlagAliases_returns flag es σ fc :
  ready σ → heap σ !! flag = Some fc →
  (∀ a, (a, aliasName) ∈ es → synthesizes (fg σ) fc a = true →
        EmptyString ∉ strings.Split a hyphen) →
  returns (ensureFlagAliases flag es) σ.
Proof.
  revert σ fc. induction es as [|[alias kind] es IH]; intros σ fc Hr Hfc Hw.
  { apply returns_ret. }
  cbn [ensureFlagAliases]. destruct (decide (kind ≠ aliasName)) as [|Hk].
  { apply (IH σ fc); [done..|]. intros a Ha. apply Hw. by right. }
  assert (kind = aliasName) as ->
    by (destruct (decide (kind = aliasName)); [done|contradiction]).
  apply returns_try.
  { apply addGroupAlias_returns; [done|by exists fc]. }
  intros σ1 H1. destruct (addGroupAlias_evolves _ _ _ _ _ _ H1) as [Hev1 _].
  destruct (evolves_flag _ _ _ _ Hev1 Hfc) as (fc1 & Hfc1 & Hle1).
  pose proof (ready_evolves _ _ Hev1 Hr) as Hr1.
  apply returns_try.
  { apply (addShortcut_returns alias flag σ1 fc1); [done..|].
    rewrite (synthesizes_evolves σ σ1 flag fc fc1) by done.
    apply Hw. left. }
  intros σ2 H2. pose proof (addShortcut_evolves _ _ _ _ _ H2) as Hev2.
  destruct (evolves_flag _ _ _ _ Hev2 Hfc1) as (fc2 & Hfc2 & Hle2).
  apply (IH σ2 fc2); [by apply (ready_evolves σ1)|done|].
  intros a Ha.
  rewrite (synthesizes_evolves σ1 σ2 flag fc1 fc2) by done.
  rewrite (synthesizes_evolves σ σ1 flag fc fc1) by done.
  apply Hw. by right.
Qed.

Lemma wordsOk_covers g g' fc FC :
  covers fc FC → autoShortcut g' = autoShortcut g →
  wordsOk g fc → wordsOk g' FC.
Proof.
  intros Hc Ha Hw name Hsp Hsyn. apply Hw.
  - by apply (spelling_covers fc FC).
  - by rewrite <- (synthesizes_covers g g' fc FC name).
Qed.

Lemma ensureFlag_returns flag σ fc :
  ready σ → heap σ !! flag = Some fc → wordsOk (fg σ) fc →
  returns (ensureFlag flag) σ.
Proof.
  intros Hr Hfc Hw. unfold ensureFlag.
  apply returns_bind; [apply returns_load; by exists fc|].
  intros fc0 σ0 H0. apply load_Returns in H0 as [Hfc0 ->].
  rewrite Hfc in Hfc0. injection Hfc0 as <-.
  apply returns_try.
  { apply (addShortcut_returns _ flag σ fc); [done..|]. apply Hw. by left. }
  intros σ1 H1. pose proof (addShortcut_evolves _ _ _ _ _ H1) as Hev1.
  pose proof (proj1 (steady_addShortcut _ flag σ None σ1 I H1)) as Hc1.
  pose proof (ready_evolves _ _ Hev1 Hr) as Hr1.
  apply returns_try.
  { apply addNegativeAlias_returns; [done|].
    apply (evolves_heap_Some _ _ flag Hev1). by exists fc. }
  intros σ2 H2.
  destruct (addNegativeAlias_evolves _ _ _ _ _ _ H2) as (_ & Hev2 & _).
  pose proof (proj1 (steady_addNegativeAlias _ flag aliasNone σ1 None σ2 I H2))
    as Hc2.
  pose proof (heap_covers_trans _ _ _ Hc1 Hc2) as Hc.
  destruct (heap_covers_lookup _ _ _ _ Hc Hfc) as (fc2 & Hfc2 & Hcov).
  apply returns_bind; [apply returns_load; by exists fc2|].
  intros fc' σ' H'. apply load_Returns in H' as [Hfc' ->].
  rewrite Hfc2 in Hfc'. injection Hfc' as <-.
  apply (ensureFlagAliases_returns flag _ σ2 fc2);
    [by apply (ready_evolves σ1)|done|].
  intros a Ha Hsyn.
  apply (wordsOk_covers (fg σ) (fg σ2) fc fc2); [done| |done|by right|done].
  by rewrite (ev_auto _ _ Hev2), (ev_auto _ _ Hev1).
Qed.

Lemma ensureFlags_returns flags σ :
  ready σ →
  (∀ p, p ∈ flags → ∃ fc, heap σ !! p = Some fc ∧ wordsOk (fg σ) fc) →
  returns (ensureFlags flags) σ.
Proof.
  revert σ. induction flags as [|flag flags IH]; intros σ Hr Hw.
  { apply returns_ret. }
  cbn [ensureFlags]. destruct (Hw flag) as (fc & Hfc & Hok); [left|].
  apply returns_try; [by apply (ensureFlag_returns flag σ fc)|].
  intros σ1 H1. pose proof (ensureFlag_evolves _ _ _ _ H1) as Hev1.
  pose proof (proj1 (steady_ensureFlag flag σ None σ1 I H1)) as Hc1.
  apply IH; [by apply (ready_evolves σ)|].
  intros p Hp. destruct (Hw p) as (fcp & Hfcp & Hokp); [by right|].
  destruct (heap_covers_lookup _ _ _ _ Hc1 Hfcp) as (FC & HFC & Hcov).
  exists FC. split; [done|].
  apply (wordsOk_covers (fg σ) (fg σ1) fcp FC); [done| |done].
  by rewrite (ev_auto _ _ Hev1).
Qed.

Lemma ensureAliases_returns σ :
  wellFormed σ →
  (∀ p fc, p ∈ flagOrder (fg σ) → heap σ !! p = Some fc →
           wordsOk (fg σ) fc) →
  returns ensureAliases σ.
Proof.
  intros [Horder Hlong] Hw. unfold returns, ensureAliases, bind, group.
  destruct (aliases (fg σ)) eqn:Ht; [by eexists _, _|].
  unfold set_aliases. fold (with_empty_table σ).
  apply ensureFlags_returns.
  - split; [by eexists|]. split; [|done].
    intros k Hk. unfold live in Hk. by rewrite table_get_empty in Hk.
  - intros p Hp. destruct (Horder p Hp) as [fc Hfc]. exists fc.
    split; [done|]. by apply (Hw p).
Qed.

(** X10. The build panics in no other way than on an empty word. On a
    group whose pointers are pointers to flags, and in which no spelling
    that gets a shortcut has an empty word, [ensureAliases] returns, with
    or without an error, and so do [resetAliases] and every
    [getFlagAlias]: no nil pointer is dereferenced, no nil map is
    written, no index is out of range, and the calls of [addGroupAlias]
    and [addNegativeAlias] to each other end. *)
Theorem build_returns (σ : state) :
  wellFormed σ →
  (∀ p fc, p ∈ flagOrder (fg σ) → heap σ !! p = Some fc →
           wordsOk (fg σ) fc) →
  (∃ r σ', ensureAliases σ = Returns r σ') ∧
  (∃ r σ', resetAliases σ = Returns r σ') ∧
  ∀ name, ∃ r σ', getFlagAlias name σ = Returns r σ'.
Proof.
  intros Hwf Hw. split; [by apply ensureAliases_returns|]. split.
  - unfold resetAliases. apply returns_bind; [by eexists tt, _|].
    intros u σ0 H0. injection H0 as <- <-.
    apply ensureAliases_returns; [exact Hwf|exact Hw].
  - intros name. unfold getFlagAlias.
    apply returns_bind; [by apply ensureAliases_returns|].
    intros [e|] σ1 _; [apply returns_ret|].
    apply returns_bind; [by eexists _, _|].
    intros g σ2 _. destruct (long g !! name); [apply returns_ret|].
    cbn zeta. destruct (bool_decide _); apply returns_ret.
Qed.

Lemma build_returns_witness : ∃ r σ', ensureAliases clashGroup = Returns r σ'.
Proof.
  apply (build_returns clashGroup).
  - split.
    + intros p Hp. cbn in Hp.
      repeat (apply elem_of_cons in Hp as [->|Hp]); [by eexists..|].
      by apply elem_of_nil in Hp.
    + intros k p Hk. cbn in Hk.
      apply lookup_insert_Some in Hk as [[_ <-]|[_ Hk]]; [by eexists|].
      apply lookup_insert_Some in Hk as [[_ <-]|[_ Hk]]; [by eexists|].
      by rewrite lookup_empty in Hk.
  - intros p fc Hp Hfc name Hsp _. cbn in Hp.
    repeat (apply elem_of_cons in Hp as [->|Hp]).
    + injection Hfc as <-. destruct Hsp as [->|Hin].
      * vm_compute. intros Hin. repeat (apply elem_of_cons in Hin as [[=]|Hin]).
        by apply elem_of_nil in Hin.
      * by apply elem_of_nil in Hin.
    + injection Hfc as <-. destruct Hsp as [->|Hin].
      * vm_compute. intros Hin. repeat (apply elem_of_cons in Hin as [[=]|Hin]).
        by apply elem_of_nil in Hin.
      * by apply elem_of_nil in Hin.
    + by apply elem_of_nil in Hp.
Defined.

(** ** The model of a flag *)

Lemma modelLoop_spec es aliases negatives :
  modelLoop es aliases negatives
  = (aliases ++ (filter (λ kv, kv.2 ≠ aliasNegative) es).*1,
     negatives ++ (filter (λ kv, kv.2 = aliasNegative) es).*1).
Proof.
  revert aliases negatives.
  induction es as [|[a k] es IH]; intros aliases negatives; simpl.
  { by rewrite !app_nil_r. }
  case_decide as Hk.
  - rewrite IH, filter_cons_False, filter_cons_True by (simpl; auto).
    simpl. by rewrite <- app_assoc.
  - rewrite IH, filter_cons_True, filter_cons_False by (simpl; auto).
    simpl. by rewrite <- app_assoc.
Qed.

Lemma FlagClause_Model_eq fc :
  FlagClause_Model fc
  = mkFlagModel (flag_name fc) (flag_shorthand fc)
      (sort.Strings (filter (λ kv, kv.2 ≠ aliasNegative) (entries fc)).*1)
      (sort.Strings (filter (λ kv, kv.2 = aliasNegative) (entries fc)).*1)
      (flag_value fc).
Proof. unfold FlagClause_Model. by rewrite modelLoop_spec. Qed.

Lemma Strings_elem_of x a : a ∈ sort.Strings x ↔ a ∈ x.
Proof. unfold sort.Strings. by rewrite merge_sort_Permutation. Qed.

Lemma Strings_Permutation x y : x ≡ₚ y → sort.Strings x = sort.Strings y.
Proof.
  intros Hp. unfold sort.Strings.
  apply (Sorted_unique String.le); [apply Sorted_merge_sort, _..|].
  by rewrite !merge_sort_Permutation.
Qed.

Lemma amap_get_Some_elem_of m k v : amap_get m k = Some v → (k, v) ∈ m.
Proof.
  induction m as [|[k' v'] m IH]; simpl; [done|].
  case_decide as E.
  - intros [= ->]. subst. left.
  - intros H. right. by apply IH.
Qed.

Lemma Model_negative fc a :
  a ∈ fm_NegativeAliases (FlagClause_Model fc)
  ↔ (a, aliasNegative) ∈ entries fc.
Proof.
  rewrite FlagClause_Model_eq. cbn [fm_NegativeAliases].
  rewrite Strings_elem_of, list_elem_of_fmap. split.
  - intros ([a' k] & -> & [Hk Hin]%list_elem_of_filter). simpl in *. by subst.
  - intros Hin. exists (a, aliasNegative). split; [done|].
    by apply list_elem_of_filter.
Qed.

Lemma Model_alias fc a :
  a ∈ fm_Aliases (FlagClause_Model fc)
  ↔ ∃ k, k ≠ aliasNegative ∧ (a, k) ∈ entries fc.
Proof.
  rewrite FlagClause_Model_eq. cbn [fm_Aliases].
  rewrite Strings_elem_of, list_elem_of_fmap. split.
  - intros ([a' k] & -> & [Hk Hin]%list_elem_of_filter). simpl in *.
    by exists k.
  - intros (k & Hk & Hin). exists (a, k). split; [done|].
    by apply list_elem_of_filter.
Qed.

(** X11. [Model] lists every spelling of the flag's own map once: under
    [NegativeAliases] the spellings of the negative kind, under
    [Aliases] all others, the shortcuts among them. Both lists are in
    increasing order, and the model does not depend on the order in
    which the range over the map produces the entries. *)
Theorem Model_lists_the_spellings (fc : FlagClause) :
  let m := FlagClause_Model fc in
  (∀ a, a ∈ fm_NegativeAliases m ↔ (a, aliasNegative) ∈ entries fc) ∧
  (∀ a, a ∈ fm_Aliases m ↔ ∃ k, k ≠ aliasNegative ∧ (a, k) ∈ entries fc) ∧
  fm_Aliases m ++ fm_NegativeAliases m ≡ₚ (entries fc).*1 ∧
  Sorted String.le (fm_Aliases m) ∧
  Sorted String.le (fm_NegativeAliases m) ∧
  ∀ fc', same_declaration fc fc' → entries fc ≡ₚ entries fc' →
         FlagClause_Model fc' = m.
Proof.
  cbn zeta. split; [apply Model_negative|]. split; [apply Model_alias|].
  rewrite FlagClause_Model_eq. cbn [fm_Aliases fm_NegativeAliases].
  split; [|split; [apply Sorted_merge_sort, _|
                   split; [apply Sorted_merge_sort, _|]]].
  - unfold sort.Strings. rewrite !merge_sort_Permutation.
    rewrite <- fmap_app. apply fmap_Permutation.
    induction (entries fc) as [|[a k] es IH]; [done|].
    destruct (decide (k = aliasNegative)) as [Hk|Hk].
    + rewrite filter_cons_False, filter_cons_True by (simpl; auto).
      rewrite <- Permutation_middle. by constructor.
    + rewrite filter_cons_True, filter_cons_False by (simpl; auto).
      simpl. by constructor.
  - intros fc' (Hn & Hs & Hv & _) Hperm. rewrite FlagClause_Model_eq.
    rewrite Hn, Hs, Hv. f_equal; apply Strings_Permutation;
      apply fmap_Permutation; by rewrite Hperm.
Qed.

(** ** The build records what it registers in the flags *)

Lemma recorded_refl σ : recorded σ σ.
Proof. by intros k Hk. Qed.

Lemma recorded_trans σ1 σ2 σ3 :
  recorded σ1 σ2 → evolves σ2 σ3 → recorded σ2 σ3 → recorded σ1 σ3.
Proof.
  intros H12 Hev H23 k Hk.
  destruct (decide (table_get (fg σ3) k = table_get (fg σ2) k)) as [E|N];
    [|by apply H23].
  rewrite E in Hk |- *.
  destruct (H12 k Hk) as (p & kd & fc2 & Hent & Hfc2 & Hget).
  destruct (evolves_flag _ _ _ _ Hev Hfc2) as (fc3 & Hfc3 & Hle).
  exists p, kd, fc3. split; [done|]. split; [done|].
  by apply (amap_get_prefix (entries fc2)); [apply (fl_entries _ _ Hle)|].
Qed.

Lemma addNegativeAlias_steps name flag kind σ σ' :
  addNegativeAlias name flag kind σ = Returns None σ' →
  σ' = σ ∨
  ∃ σ1, addGroupAlias ("no-" +:+ name) flag aliasNegative σ = Returns None σ1 ∧
        (σ' = σ1 ∨
         addGroupAlias ("n" +:+ name) flag aliasNegative σ1 = Returns None σ').
Proof.
  unfold addNegativeAlias, addNegativeAlias_with. intros H.
  apply bind_Returns in H as (fc & σ0 & Hl & H).
  apply load_Returns in Hl as [_ ->].
  destruct (_ && _); [|injection H as <-; by left].
  apply try_Returns in H as [(e & _ & [=])|(σ1 & H1 & H)].
  right. exists σ1. split; [done|].
  destruct (_ && _); [|injection H as <-; by left].
  apply try_Returns in H as [(e & _ & [=])|(σ2 & H2 & H)].
  injection H as <-. by right.
Qed.

Lemma addGroupAlias_negative_recorded name flag σ σ' :
  addGroupAlias name flag aliasNegative σ = Returns None σ' → recorded σ σ'.
Proof.
  intros H k Hk.
  destruct (addGroupAlias_ok _ _ _ _ _ H) as (_ & _ & _ & (fc' & Hfc' & Hget) & _).
  destruct (addGroupAlias_writes _ _ _ _ _ H k Hk)
    as [[-> Hent]|(_ & _ & Hkind & _)]; [|done].
  by exists flag, aliasNegative, fc'.
Qed.

Lemma addNegativeAlias_recorded name flag kind σ σ' :
  addNegativeAlias name flag kind σ = Returns None σ' → recorded σ σ'.
Proof.
  intros [->|(σ1 & H1 & [->|H2])]%addNegativeAlias_steps.
  - apply recorded_refl.
  - by eapply addGroupAlias_negative_recorded.
  - apply (recorded_trans _ σ1).
    + by eapply addGroupAlias_negative_recorded.
    + by destruct (addGroupAlias_evolves _ _ _ _ _ _ H2).
    + by eapply addGroupAlias_negative_recorded.
Qed.

Lemma addGroupAlias_recorded name flag kind σ σ' :
  addGroupAlias name flag kind σ = Returns None σ' → recorded σ σ'.
Proof.
  intros H k Hk.
  destruct (addGroupAlias_ok _ _ _ _ _ H)
    as (_ & _ & Hent & (fc' & Hfc' & Hget) & σ1 & Hneg & Hev1 & Hfr).
  destruct (decide (k = name)) as [->|Hne]; [by exists flag, kind, fc'|].
  rewrite (Hfr k Hne) in Hk |- *.
  destruct (addNegativeAlias_recorded _ _ _ _ _ Hneg k Hk)
    as (p & kd & fc1 & Hent1 & Hfc1 & Hget1).
  destruct (evolves_flag _ _ _ _ Hev1 Hfc1) as (fc2 & Hfc2 & Hle).
  exists p, kd, fc2. split; [done|]. split; [done|].
  by apply (amap_get_prefix (entries fc1)); [apply (fl_entries _ _ Hle)|].
Qed.

Lemma addShortcut_recorded name flag σ σ' :
  addShortcut name flag σ = Returns None σ' → recorded σ σ'.
Proof.
  intros (fc & Hfc & Hev1 & [(_ & _ & ->) | (_ & sc & _ & H)])
    %addShortcut_Returns; [by intros k Hk|].
  apply try_Returns in H as [(e & _ & [=]) | (σ2 & H2 & H)].
  intros k Hk. revert k Hk.
  change (recorded
            (with_heap σ (<[flag := with_autoShortcut fc]> (heap σ))) σ').
  apply (recorded_trans _ σ2).
  - by eapply addGroupAlias_recorded.
  - by destruct (addNegativeAlias_evolves _ _ _ _ _ _ H) as (_ & ? & _).
  - by eapply addNegativeAlias_recorded.
Qed.

Lemma ensureFlagAliases_recorded flag es σ σ' :
  ensureFlagAliases flag es σ = Returns None σ' → recorded σ σ'.
Proof.
  revert σ. induction es as [|[alias kind] es IH]; intros σ H; simpl in H.
  { injection H as <-. apply recorded_refl. }
  case_decide as Hk; [by apply IH|].
  assert (kind = aliasName) as -> by (by destruct (decide (kind = aliasName))).
  apply try_Returns in H as [(e & _ & [=]) | (σ1 & H1 & H)].
  apply try_Returns in H as [(e & _ & [=]) | (σ2 & H2 & H)].
  apply (recorded_trans _ σ1);
    [by eapply addGroupAlias_recorded
    |by apply (evolves_trans _ σ2);
       [apply (addShortcut_evolves _ _ _ _ _ H2)
       |apply (ensureFlagAliases_evolves _ _ _ _ _ H)]|].
  apply (recorded_trans _ σ2);
    [by eapply addShortcut_recorded
    |by apply (ensureFlagAliases_evolves _ _ _ _ _ H)|by apply IH].
Qed.

Lemma ensureFlag_recorded flag σ σ' :
  ensureFlag flag σ = Returns None σ' → recorded σ σ'.
Proof.
  unfold ensureFlag. intros H.
  apply bind_Returns in H as (fc & σ0 & Hl & H).
  apply load_Returns in Hl as [_ ->].
  apply try_Returns in H as [(e & _ & [=]) | (σ1 & H1 & H)].
  apply try_Returns in H as [(e & _ & [=]) | (σ2 & H2 & H)].
  apply bind_Returns in H as (fc' & σ3 & Hl' & H).
  apply load_Returns in Hl' as [_ ->].
  pose proof (ensureFlagAliases_evolves _ _ _ _ _ H) as Hev3.
  destruct (addNegativeAlias_evolves _ _ _ _ _ _ H2) as (_ & Hev2 & _).
  apply (recorded_trans _ σ1);
    [by eapply addShortcut_recorded|by apply (evolves_trans _ σ2)|].
  apply (recorded_trans _ σ2);
    [by eapply addNegativeAlias_recorded|done|].
  by eapply ensureFlagAliases_recorded.
Qed.

Lemma ensureFlags_recorded flags σ σ' :
  ensureFlags flags σ = Returns None σ' → recorded σ σ'.
Proof.
  revert σ. induction flags as [|flag flags IH]; intros σ H; simpl in H.
  { injection H as <-. apply recorded_refl. }
  apply try_Returns in H as [(e & _ & [=]) | (σ1 & H1 & H)].
  apply (recorded_trans _ σ1);
    [by eapply ensureFlag_recorded
    |by apply (ensureFlags_evolves _ _ _ _ H)|by apply IH].
Qed.

(** X12. What a successful build registers for a flag shows in the
    flag's model: a spelling the table maps to a flag is held by the
    flag's own map under the same kind, and [Model] lists it under
    [NegativeAliases] when the kind is negative and under [Aliases]
    otherwise. *)
Theorem registered_spellings_in_Model (σ σ' : state) (k : string) (p : loc)
    (kd : aliasKind) :
  aliases (fg σ) = None → ensureAliases σ = Returns None σ' →
  registered σ' k p kd → kd ≠ aliasNone →
  ∃ fc', heap σ' !! p = Some fc' ∧
         amap_get (entries fc') k = Some kd ∧
         if decide (kd = aliasNegative)
         then k ∈ fm_NegativeAliases (FlagClause_Model fc')
         else k ∈ fm_Aliases (FlagClause_Model fc').
Proof.
  intros Ht H Hreg Hkd.
  destruct (ensureAliases_Returns _ _ _ H) as [([t Hsome] & _)|[_ Hrun]].
  { by rewrite Ht in Hsome. }
  destruct (ensureFlags_recorded _ _ _ Hrun k)
    as (p' & kd' & fc' & Hent & Hfc' & Hget).
  { rewrite table_get_empty, Hreg. by intros [=]. }
  unfold registered in Hreg. rewrite Hent in Hreg. injection Hreg as -> ->.
  exists fc'. split; [done|]. split; [done|].
  apply amap_get_Some_elem_of in Hget. case_decide as Hneg.
  - subst kd. by apply Model_negative.
  - apply Model_alias. by exists kd.
Qed.

Lemma registered_spellings_in_Model_witness :
  ∃ fc', heap toolGroupBuilt !! 1%nat = Some fc' ∧
         amap_get (entries fc') "ndr" = Some aliasNegative ∧
         "ndr" ∈ fm_NegativeAliases (FlagClause_Model fc').
Proof.
  apply (registered_spellings_in_Model toolGroup toolGroupBuilt "ndr" 1%nat
           aliasNegative).
  - reflexivity.
  - exact toolGroup_builds.
  - vm_compute. reflexivity.
  - discriminate.
Defined.

(** ** The commands [FlattenedCommands] returns *)

Lemma flattenLoop_app cs out :
  flattenLoop cs out = out ++ flattenLoop cs [].
Proof.
  revert out. induction cs as [|c cs IH]; intros out; simpl.
  { by rewrite app_nil_r. }
  rewrite IH. rewrite (IH (_ ++ flattenCmd c)).
  destruct (length (cmd_Commands c) =? 0)%nat; simpl;
    by rewrite <- ?app_assoc.
Qed.

Lemma flattenCmd_eq cmd : flattenCmd cmd = FlattenedCommands (cmd_Commands cmd).
Proof.
  destruct cmd as [n cs]. unfold FlattenedCommands. simpl.
  match goal with
  | |- ?loop cs [] = _ =>
      enough (∀ out, loop cs out = flattenLoop cs out) as H by apply H
  end.
  induction cs as [|c cs IH]; intros out; [done|]. simpl. apply IH.
Qed.

Lemma FlattenedCommands_cons c cs :
  FlattenedCommands (c :: cs)
  = (if (length (cmd_Commands c) =? 0)%nat then [c] else [])
    ++ FlattenedCommands (cmd_Commands c) ++ FlattenedCommands cs.
Proof.
  unfold FlattenedCommands at 1. simpl. rewrite flattenLoop_app.
  rewrite flattenCmd_eq. fold (FlattenedCommands cs).
  destruct (length (cmd_Commands c) =? 0)%nat; simpl;
    by rewrite <- ?app_assoc.
Qed.

Lemma leaf_spec c : (length (cmd_Commands c) =? 0)%nat = true ↔ leaf c.
Proof.
  unfold leaf. rewrite Nat.eqb_eq. by destruct (cmd_Commands c).
Qed.

Lemma CmdModel_rect' (P : CmdModel → Prop) :
  (∀ n cs, Forall P cs → P (mkCmd n cs)) → ∀ c, P c.
Proof.
  intros Hstep. fix IH 1. intros [n cs]. apply Hstep.
  induction cs as [|c cs IHcs]; constructor; [apply IH|apply IHcs].
Qed.

Lemma within_nil c : ¬ within c [].
Proof. intros H. inversion H as [cs Hin|d cs Hin _]; by apply elem_of_nil in Hin. Qed.

Lemma within_cons c d cs :
  within c (d :: cs) ↔ c = d ∨ within c (cmd_Commands d) ∨ within c cs.
Proof.
  split.
  - intros H. inversion H as [cs' Hin|e cs' Hin Hbelow]; subst.
    + apply elem_of_cons in Hin as [->|Hin]; [by left|].
      right; right. by constructor.
    + apply elem_of_cons in Hin as [->|Hin]; [by right; left|].
      right; right. by apply within_below with e.
  - intros [->|[H|H]].
    + constructor. left.
    + apply within_below with d; [left|done].
    + inversion H as [cs' Hin|e cs' Hin Hbelow]; subst.
      * constructor. by right.
      * apply within_below with e; [by right|done].
Qed.

Lemma FlattenedCommands_elem_of_step cs :
  Forall (λ d, ∀ c, c ∈ FlattenedCommands (cmd_Commands d)
                    ↔ within c (cmd_Commands d) ∧ leaf c) cs →
  ∀ c, c ∈ FlattenedCommands cs ↔ within c cs ∧ leaf c.
Proof.
  induction 1 as [|d cs IHd _ IHcs]; intros c.
  { split; [by intros ?%elem_of_nil|]. by intros [?%within_nil _]. }
  rewrite FlattenedCommands_cons, !elem_of_app, IHd, IHcs, within_cons.
  destruct (length (cmd_Commands d) =? 0)%nat eqn:E.
  - apply leaf_spec in E. rewrite list_elem_of_singleton. split.
    + intros [->|[[? ?]|[? ?]]]; split; auto.
    + intros [[->|[?|?]] ?]; auto.
  - assert (¬ leaf d) as Hn by (intros Hl%leaf_spec; by rewrite Hl in E).
    rewrite elem_of_nil. split.
    + intros [[]|[[? ?]|[? ?]]]; split; auto.
    + intros [[->|[?|?]] ?]; [done|auto..].
Qed.

Lemma FlattenedCommands_elem_of_below d c :
  c ∈ FlattenedCommands (cmd_Commands d)
  ↔ within c (cmd_Commands d) ∧ leaf c.
Proof.
  revert c. induction d as [n ds IH] using CmdModel_rect'.
  by apply FlattenedCommands_elem_of_step.
Qed.

Lemma FlattenedCommands_elem_of cs c :
  c ∈ FlattenedCommands cs ↔ within c cs ∧ leaf c.
Proof.
  apply FlattenedCommands_elem_of_step, Forall_forall.
  intros d _. apply FlattenedCommands_elem_of_below.
Qed.

Lemma FlattenedCommands_app cs1 cs2 :
  FlattenedCommands (cs1 ++ cs2)
  = FlattenedCommands cs1 ++ FlattenedCommands cs2.
Proof.
  induction cs1 as [|c cs1 IH]; [done|].
  rewrite <- app_comm_cons, !FlattenedCommands_cons, IH.
  by rewrite <- !app_assoc.
Qed.

(** X13. [FlattenedCommands] returns the commands without commands of
    their own, and only those: a command is in the result if and only if
    it is one of the group's commands or lies below one of them and has
    no commands itself. A group of such commands is returned as it is,
    the result for commands side by side is the results one after the
    other, and a command with commands of its own gives what its commands
    give. *)
Theorem FlattenedCommands_are_the_leaves (cs : list CmdModel) :
  (∀ c, c ∈ FlattenedCommands cs ↔ within c cs ∧ leaf c) ∧
  (Forall leaf cs → FlattenedCommands cs = cs) ∧
  (∀ cs', FlattenedCommands (cs ++ cs')
          = FlattenedCommands cs ++ FlattenedCommands cs') ∧
  (∀ n, cs ≠ [] →
        FlattenedCommands [mkCmd n cs] = FlattenedCommands cs).
Proof.
  split; [apply FlattenedCommands_elem_of|]. split; [|split].
  - induction 1 as [|c cs Hc _ IH]; [done|].
    rewrite FlattenedCommands_cons, IH.
    rewrite (proj2 (leaf_spec c) Hc). unfold leaf in Hc. by rewrite Hc.
  - apply FlattenedCommands_app.
  - intros n Hne. rewrite FlattenedCommands_cons. simpl.
    destruct cs; [done|]. simpl. by rewrite app_nil_r.
Qed.

(** ** The brackets of [ArgSummary] *)

Lemma ArgSummary_cons arg rest :
  ArgSummary (arg :: rest)
  = Some (strings.Join (map argItem (arg :: rest)) " "
          +:+ strings.Repeat "]" (optionalCount (arg :: rest))).
Proof.
  unfold ArgSummary.
  rewrite argSummaryLoop_spec, app_nil_l, Nat.add_0_l.
  generalize (strings.Repeat "]" (optionalCount (arg :: rest))) as closing.
  intros closing.
  destruct (@exists_last _ (map argItem (arg :: rest)))
    as (init & last & Hitems); [done|].
  rewrite Hitems. rewrite length_app. simpl length.
  rewrite decide_True by lia.
  replace (Z.to_nat (Z.of_nat (length init + 1) - 1)) with (length init + 0)%nat
    by lia.
  rewrite lookup_app_r by lia.
  replace (length init + 0 - length init)%nat with 0%nat by lia. simpl.
  rewrite insert_app_r. simpl. by rewrite Join_close.
Qed.

Lemma countByte_app b s t :
  countByte b (s +:+ t) = (countByte b s + countByte b t)%nat.
Proof. induction s as [|c s IH]; simpl; [done|]. rewrite IH. lia. Qed.

Lemma countByte_Repeat b c n :
  countByte b (strings.Repeat (String c EmptyString) n)
  = if decide (c = b) then n else 0%nat.
Proof.
  induction n as [|n IH]; [by case_decide|].
  cbn [strings.Repeat]. rewrite countByte_app, IH. simpl.
  repeat case_decide; lia.
Qed.

Lemma countByte_Join b items :
  b ≠ " "%char →
  countByte b (strings.Join items " ")
  = foldr (λ s n, (countByte b s + n)%nat) 0%nat items.
Proof.
  intros Hb. induction items as [|s items IH]; [done|].
  destruct items as [|t items]; [simpl; lia|].
  change (strings.Join (s :: t :: items) " ")
    with (s +:+ " " +:+ strings.Join (t :: items) " ").
  rewrite !countByte_app, IH. simpl. case_decide; [by subst|]. lia.
Qed.

(** X14. The brackets of an argument summary balance: when the names of
    the arguments hold no bracket, the summary of a group with an
    argument opens one bracket for each argument that is not required
    and closes as many. *)
Theorem ArgSummary_brackets_balance (args : list ArgModel) :
  args ≠ [] →
  (∀ arg, arg ∈ args →
          countByte "[" (arg_Name arg) = 0%nat ∧
          countByte "]" (arg_Name arg) = 0%nat) →
  ∃ s, ArgSummary args = Some s ∧
       countByte "[" s = optionalCount args ∧
       countByte "]" s = optionalCount args.
Proof.
  intros Hne Hnames. destruct args as [|arg rest]; [done|].
  eexists. split; [apply ArgSummary_cons|].
  rewrite !countByte_app, !countByte_Join by done.
  rewrite !(countByte_Repeat _ "]").
  rewrite decide_False, decide_True by done.
  generalize dependent (arg :: rest). clear. intros args _ Hnames.
  induction args as [|a args IH]; [done|].
  destruct (Hnames a) as [Ho Hc]; [left|].
  destruct IH as [IHo IHc]; [intros b Hb; apply Hnames; by right|].
  rewrite Nat.add_0_r in IHo. simpl in IHc.
  unfold optionalCount in *. simpl.
  unfold argItem at 1 3. destruct (arg_Required a) eqn:Hreq.
  - rewrite filter_cons_False by (by rewrite Hreq).
    rewrite !countByte_app, Ho, Hc. simpl. split; lia.
  - rewrite filter_cons_True by done.
    rewrite !countByte_app, Ho, Hc. simpl. split; lia.
Qed.

Lemma ArgSummary_brackets_balance_witness :
  ∃ s, ArgSummary [mkArg "src" true; mkArg "dst" false; mkArg "mode" false]
       = Some s ∧
       countByte "[" s = 2%nat ∧ countByte "]" s = 2%nat.
Proof.
  apply (ArgSummary_brackets_balance
           [mkArg "src" true; mkArg "dst" false; mkArg "mode" false]).
  - discriminate.
  - intros arg Harg.
    repeat (apply elem_of_cons in Harg as [->|Harg]); [by split..|].
    by apply elem_of_nil in Harg.
Defined.

(** X15. Also a build that fails leaves a table that holds only what
    the flags give rise to: whatever [ensureAliases] returns, every live
    entry of the table it leaves is no long name of the group and maps a
    spelling to a flag of [flagOrder] that gives rise to it under the
    kind of the entry. So a later lookup, which uses the table as it is,
    resolves a spelling that is no long name only to a flag that gives
    rise to it, and inverts only for a negative form. *)
Theorem partial_table_is_sound (σ σ' : state) (r : error) :
  aliases (fg σ) = None → ensureAliases σ = Returns r σ' →
  (∀ k, live (table_get (fg σ') k) →
        long (fg σ) !! k = None ∧
        ∃ p fc kd, p ∈ flagOrder (fg σ) ∧ heap σ !! p = Some fc ∧
                   table_get (fg σ') k = mkAlias (Some p) kd ∧
                   generated (fg σ) fc k kd) ∧
  ∀ name res p,
    getFlagAlias name σ' = Returns res σ' →
    long (fg σ) !! name = None → res_flag res = Some p →
    ∃ fc kd, p ∈ flagOrder (fg σ) ∧ heap σ !! p = Some fc ∧
             generated (fg σ) fc name kd ∧
             res_invert res = bool_decide (kd = aliasNegative).
Proof.
  intros Ht H.
  pose proof (ensureAliases_evolves _ _ _ H) as Hev.
  assert (∀ k, live (table_get (fg σ') k) →
               long (fg σ) !! k = None ∧
               ∃ p fc kd, p ∈ flagOrder (fg σ) ∧ heap σ !! p = Some fc ∧
                          table_get (fg σ') k = mkAlias (Some p) kd ∧
                          generated (fg σ) fc k kd) as Hsound.
  { intros k Hlive. split; [|by apply (ensureAliases_justified σ r σ')].
    apply (ev_new _ _ Hev k). rewrite (table_get_nil σ k Ht).
    intros E. unfold live in Hlive. by rewrite E in Hlive. }
  split; [done|]. intros name res p Hget Hlong Hp.
  assert (ensureAliases σ' = Returns None σ') as Hagain.
  { destruct (ensureAliases_built _ _ _ H) as [t Hs].
    unfold ensureAliases, bind, group. by rewrite Hs. }
  rewrite (getFlagAlias_eq _ _ name Hagain) in Hget.
  rewrite (ev_long _ _ Hev), Hlong in Hget.
  destruct (bool_decide (alias_kind (table_get (fg σ') name) ≠ aliasNone))
    eqn:Hlive; injection Hget as <-; [|done].
  apply bool_decide_eq_true in Hlive.
  destruct (Hsound name Hlive) as (_ & q & fc & kd & Hin & Hfc & Hent & Hgen).
  rewrite Hent in Hp |- *. simpl in Hp |- *. injection Hp as <-.
  by exists fc, kd.
Qed.

Lemma partial_table_is_sound_witness :
  ∃ p fc kd, p ∈ flagOrder (fg clashGroup) ∧ heap clashGroup !! p = Some fc ∧
             table_get (fg clashGroupFailed) "ab" = mkAlias (Some p) kd ∧
             generated (fg clashGroup) fc "ab" kd.
Proof.
  apply (partial_table_is_sound clashGroup clashGroupFailed (Some clashError)
           eq_refl clashGroup_fails).
  vm_compute. discriminate.
Defined.

(** X16. An alias declared after the table is built takes effect with
    the next [resetAliases] only. On a group whose table is built, after
    [Alias] has declared a new spelling for a flag of the group, a lookup
    of the spelling still finds nothing; after a [resetAliases] that
    succeeds it finds the flag. *)
Theorem late_alias_needs_reset (σ : state) (f : loc) (fc : FlagClause)
    (a : string) :
  is_Some (aliases (fg σ)) → heap σ !! f = Some fc →
  f ∈ flagOrder (fg σ) → long (fg σ) !! a = None →
  ¬ live (table_get (fg σ) a) → amap_get (entries fc) a = None →
  ∃ σ1, Alias f (Some [a]) σ = Returns tt σ1 ∧
        getFlagAlias a σ1 = Returns (mkResolved None false None) σ1 ∧
        ∀ σ2, resetAliases σ1 = Returns None σ2 →
              getFlagAlias a σ2
              = Returns (mkResolved (Some f) false None) σ2.
Proof.
  intros [t Ht] Hfc Hin Hlong Hdead Hget.
  set (fc1 := with_aliases fc (entries fc ++ [(a, aliasName)])).
  set (σ1 := with_heap σ (<[f := fc1]> (heap σ))).
  exists σ1. split; [|split].
  - change (Alias f (Some [a]) σ)
      with (bind (FlagClause_addAlias f a aliasName) (λ _, ret tt) σ).
    unfold bind. rewrite (FlagClause_addAlias_eq _ _ fc) by done.
    by rewrite Hget.
  - assert (ensureAliases σ1 = Returns None σ1) as Hbuilt.
    { unfold ensureAliases, bind, group. cbn [σ1 with_heap fg]. by rewrite Ht. }
    rewrite (getFlagAlias_eq _ _ a Hbuilt).
    cbn [σ1 with_heap fg]. rewrite Hlong.
    rewrite bool_decide_eq_false_2; [done|]. intros Hl. by apply Hdead.
  - intros σ2 Hreset.
    set (τ := mkState (heap σ1)
                (mkGroup (long (fg σ)) (flagOrder (fg σ)) None
                   (autoShortcut (fg σ)))).
    assert (ensureAliases τ = Returns None σ2) as Hτ by exact Hreset.
    assert (heap τ !! f = Some fc1) as Hfc1 by apply lookup_insert_eq.
    pose proof (ensureAliases_ok τ σ2 eq_refl Hτ f fc1 Hin Hfc1) as [_ Hal].
    destruct (Hal a) as [Hreg _].
    { unfold fc1, with_aliases, entries. cbn [flag_aliases default].
      apply elem_of_app. right. left. }
    assert (ensureAliases σ2 = Returns None σ2) as Hbuilt.
    { destruct (ensureAliases_built _ _ _ Hτ) as [t2 Ht2].
      unfold ensureAliases, bind, group. by rewrite Ht2. }
    rewrite (getFlagAlias_eq _ _ a Hbuilt).
    rewrite (ev_long _ _ (ensureAliases_evolves _ _ _ Hτ)).
    cbn [τ fg long]. rewrite Hlong, Hreg. done.
Qed.

Lemma late_alias_needs_reset_witness :
  ∃ σ1, Alias 2%nat (Some ["out"]) toolGroupBuilt = Returns tt σ1 ∧
        getFlagAlias "out" σ1 = Returns (mkResolved None false None) σ1 ∧
        ∀ σ2, resetAliases σ1 = Returns None σ2 →
              getFlagAlias "out" σ2
              = Returns (mkResolved (Some 2%nat) false None) σ2.
Proof.
  apply (late_alias_needs_reset toolGroupBuilt 2%nat outputFlag "out").
  - apply (ensureAliases_built toolGroup None toolGroupBuilt toolGroup_builds).
  - vm_compute. reflexivity.
  - right. right. left.
  - vm_compute. reflexivity.
  - vm_compute. intros H. by apply H.
  - reflexivity.
Defined.

(** X17. A build leaves the declarations as they are, whatever it
    returns: the long names, the flag order and the group's setting, the
    flags there are, and of each flag the name, the shorthand, the value,
    the auto-shortcut setting in effect and the declared aliases. All it
    does to a flag is to add, behind the entries of the flag's own map,
    entries that are no declared aliases. *)
Theorem build_keeps_declarations (σ σ' : state) (r : error) :
  ensureAliases σ = Returns r σ' →
  long (fg σ') = long (fg σ) ∧ flagOrder (fg σ') = flagOrder (fg σ) ∧
  autoShortcut (fg σ') = autoShortcut (fg σ) ∧
  (∀ p, is_Some (heap σ !! p) ↔ is_Some (heap σ' !! p)) ∧
  ∀ p fc fc', heap σ !! p = Some fc → heap σ' !! p = Some fc' →
    flag_name fc' = flag_name fc ∧ flag_shorthand fc' = flag_shorthand fc ∧
    flag_value fc' = flag_value fc ∧
    autoShortcutOf (fg σ') fc' = autoShortcutOf (fg σ) fc ∧
    entries fc `prefix_of` entries fc' ∧
    ∀ a, (a, aliasName) ∈ entries fc' ↔ (a, aliasName) ∈ entries fc.
Proof.
  intros H. pose proof (ensureAliases_evolves _ _ _ H) as Hev.
  split; [apply (ev_long _ _ Hev)|]. split; [apply (ev_order _ _ Hev)|].
  split; [apply (ev_auto _ _ Hev)|].
  split; [intros p; apply (evolves_heap_Some _ _ p Hev)|].
  intros p fc fc' Hfc Hfc'.
  destruct (evolves_flag _ _ _ _ Hev Hfc) as (fc2 & Hfc2 & Hle).
  rewrite Hfc' in Hfc2. injection Hfc2 as <-.
  split; [apply (fl_name _ _ Hle)|]. split; [apply (fl_shorthand _ _ Hle)|].
  split; [apply (fl_value _ _ Hle)|]. split.
  { rewrite (autoShortcutOf_le _ fc fc' Hle).
    unfold autoShortcutOf. by rewrite (ev_auto _ _ Hev). }
  split; [apply (fl_entries _ _ Hle)|].
  assert (heap_covers (heap σ) (heap σ')) as Hcov.
  { destruct (ensureAliases_Returns _ _ _ H) as [(_ & _ & ->)|[_ Hrun]].
    - apply heap_covers_refl.
    - apply (steady_ensureFlags _ _ _ _ I Hrun). }
  destruct (heap_covers_lookup _ _ _ _ Hcov Hfc) as (fc3 & Hfc3 & Hc).
  rewrite Hfc' in Hfc3. injection Hfc3 as <-.
  intros a. rewrite <- !names_elem_of. by rewrite (covers_names _ _ Hc).
Qed.

Lemma build_keeps_declarations_witness :
  long (fg clashGroupFailed) = long (fg clashGroup) ∧
  flagOrder (fg clashGroupFailed) = flagOrder (fg clashGroup).
Proof.
  destruct (build_keeps_declarations clashGroup clashGroupFailed
              (Some clashError) clashGroup_fails) as (Hl & Ho & _).
  split; [exact Hl|exact Ho].
Defined.

(** ** A rebuild succeeds in every range order *)

Lemma generated_covers g g' fc FC k kd :
  covers fc FC → autoShortcut g' = autoShortcut g →
  generated g' FC k kd ↔ generated g fc k kd.
Proof.
  intros Hc Ha.
  assert (∀ sc, shortcutFor g' FC sc ↔ shortcutFor g fc sc) as Hfor.
  { intros sc. unfold shortcutFor.
    split; intros (name & Hsp & Hsyn & Hsc); exists name.
    - split; [by apply (spelling_covers fc FC)|]. split; [|done].
      by rewrite <- (synthesizes_covers g g' fc FC).
    - split; [by apply (spelling_covers fc FC)|]. split; [|done].
      by rewrite (synthesizes_covers g g' fc FC). }
  destruct kd; simpl; [done| | |apply Hfor].
  - rewrite <- (names_elem_of FC), <- (names_elem_of fc).
    by rewrite (covers_names _ _ Hc).
  - unfold negativeFor. rewrite (covers_value _ _ Hc).
    split; intros (base & Hb & Hn); exists base; (split; [|done]).
    + destruct Hb as [?|?];
        [left; by apply (spelling_covers fc FC)|right; by apply Hfor].
    + destruct Hb as [?|?];
        [left; by apply (spelling_covers fc FC)|right; by apply Hfor].
Qed.

Lemma rebuilding_step g h s s' flag :
  rebuilding g h s → evolves s s' → heap_covers (heap s) (heap s') →
  justified (eq flag) g h s s' → flag ∈ flagOrder g → rebuilding g h s'.
Proof.
  intros (Hsince & Hlong & Hbuilt & HJ) Hev Hcov Hj Hin.
  split; [by apply (since_step g h s)|].
  split; [by rewrite (ev_long _ _ Hev)|].
  split; [by apply (ev_built _ _ Hev)|].
  intros k Hlive.
  destruct (decide (table_get (fg s') k = table_get (fg s) k)) as [E|N].
  - rewrite E in Hlive |- *. by apply HJ.
  - destruct (Hj k N) as (p & fc & kd & <- & Hfc & Hent & Hgen).
    by exists flag, fc, kd.
Qed.

Lemma rebuilding_recorded g h s flag fc k kd :
  rebuildable g h → rebuilding g h s →
  flag ∈ flagOrder g → h !! flag = Some fc → generated g fc k kd →
  ∃ FC, heap s !! flag = Some FC ∧ covers fc FC ∧
        amap_get (entries FC) k = Some kd.
Proof.
  intros Hrb (Hsince & _) Hin Hfc Hgen.
  destruct (since_lookup _ _ _ _ _ Hsince Hfc) as (FC & HFC & Hcov).
  exists FC. split; [done|]. split; [done|].
  apply (amap_get_prefix (entries fc)); [apply Hcov|].
  by apply (rb_recorded g h Hrb flag).
Qed.

Lemma succeeds_bind {A} g h (m : M A) (k : A → M error) s a s1 :
  m s = Returns a s1 → succeeds g h (k a) s1 → succeeds g h (bind m k) s.
Proof.
  intros H (s' & Hk & Hs'). exists s'. split; [|done].
  unfold bind. by rewrite H.
Qed.

Lemma succeeds_try g h (m k : M error) s :
  succeeds g h m s → (∀ s1, rebuilding g h s1 → succeeds g h k s1) →
  succeeds g h (try m k) s.
Proof.
  intros (s1 & H & Hs1) Hk. destruct (Hk s1 Hs1) as (s' & Hrun & Hs').
  exists s'. split; [|done]. unfold try, bind. by rewrite H.
Qed.

Lemma succeeds_ret g h s : rebuilding g h s → succeeds g h (ret None) s.
Proof. intros Hs. by exists s. Qed.

Lemma addGroupAlias_rebuilding g h name flag kind fc s s' :
  rebuildable g h → rebuilding g h s →
  flag ∈ flagOrder g → h !! flag = Some fc → generated g fc name kind →
  addGroupAlias name flag kind s = Returns None s' → rebuilding g h s'.
Proof.
  intros Hrb Hs Hin Hfc Hgen H.
  apply (rebuilding_step g h s s' flag); [done| | | |done].
  - by destruct (addGroupAlias_evolves _ _ _ _ _ _ H).
  - apply (steady_addGroupAlias name flag kind s None s'); [|done].
    intros _.
    destruct (rebuilding_recorded g h s flag fc name kind)
      as (FC & HFC & _ & Hget); [done..|].
    exists FC. split; [done|]. by rewrite Hget.
  - destruct (decide (kind = aliasNegative)) as [->|Hkind].
    + intros k Hk.
      destruct (addGroupAlias_negative_writes _ _ _ _ _ H k Hk) as [-> Hent].
      by exists flag, fc, aliasNegative.
    + by apply (addGroupAlias_justified g h name flag kind s None s' fc);
        [apply Hs|..].
Qed.

Lemma addGroupAlias_body_succeeds g h neg name flag kind fc s :
  rebuildable g h → rebuilding g h s →
  flag ∈ flagOrder g → h !! flag = Some fc → generated g fc name kind →
  (∃ s1, neg name flag kind s = Returns None s1 ∧ rebuilding g h s1) →
  ∃ s', addGroupAlias_body neg name flag kind s = Returns None s'.
Proof.
  intros Hrb Hs Hin Hfc Hgen (s1 & Hneg & Hs1).
  destruct Hs as (Hsince & Hlong & Hbuilt & HJ).
  unfold addGroupAlias_body, bind at 1, group.
  rewrite Hlong, (rb_long g h Hrb flag fc name kind) by done.
  assert (bool_decide (alias_kind (table_get (fg s) name) ≠ aliasNone)
          && (bool_decide (alias_kind (table_get (fg s) name) ≠ kind)
              || bool_decide (alias_flag (table_get (fg s) name) ≠ Some flag))
          = false) as ->.
  { apply not_true_iff_false. intros [Hlive Hne]%conflict_spec.
    destruct (HJ name Hlive) as (p & fcp & kd' & Hp & Hfcp & Hent & Hgp).
    destruct (rb_unique g h Hrb flag fc p fcp name kind kd') as [-> ->];
      done. }
  unfold try, bind at 1. rewrite Hneg.
  destruct (rebuilding_recorded g h s1 flag fc name kind)
    as (FC & HFC & _ & Hget); [done..|].
  destruct Hs1 as (_ & _ & [t Ht] & _).
  unfold bind at 1, table_set, bind at 1, group. rewrite Ht.
  unfold set_aliases, bind at 1.
  rewrite (FlagClause_addAlias_eq _ flag FC) by done.
  rewrite Hget. rewrite decide_False by (by intros ?). by eexists.
Qed.

Lemma addGroupAlias_negative_succeeds g h name flag fc s :
  rebuildable g h → rebuilding g h s →
  flag ∈ flagOrder g → h !! flag = Some fc →
  generated g fc name aliasNegative →
  succeeds g h (addGroupAlias name flag aliasNegative) s.
Proof.
  intros Hrb Hs Hin Hfc Hgen.
  destruct (addGroupAlias_body_succeeds g h addNegativeAlias name flag
              aliasNegative fc s) as (s' & H); [done..| |].
  { exists s. split; [|done]. unfold addNegativeAlias.
    rewrite addNegativeAlias_with_negative.
    destruct (since_lookup g h s flag fc) as (FC & HFC & _);
      [apply Hs|done|].
    unfold bind, load. by rewrite HFC. }
  rewrite <- addGroupAlias_unfold in H. exists s'. split; [done|].
  by apply (addGroupAlias_rebuilding g h name flag aliasNegative fc s).
Qed.

Lemma addNegativeAlias_succeeds g h name flag kind fc s :
  rebuildable g h → rebuilding g h s →
  flag ∈ flagOrder g → h !! flag = Some fc →
  spelling fc name ∨ shortcutFor g fc name →
  succeeds g h (addNegativeAlias name flag kind) s.
Proof.
  intros Hrb Hs Hin Hfc Hbase.
  destruct (since_lookup g h s flag fc) as (FC & HFC & Hcov);
    [apply Hs|done|].
  unfold addNegativeAlias, addNegativeAlias_with.
  apply (succeeds_bind g h _ _ s FC s); [unfold load; by rewrite HFC|].
  rewrite (covers_value _ _ Hcov).
  destruct (bool_decide (kind ≠ aliasNegative)
            && isSwitchValue (flag_value fc)) eqn:Hcond;
    [|by apply succeeds_ret].
  apply andb_true_iff in Hcond as [_ Hsw].
  change (bool_decide (String.length name ≤ 3)%nat
          && negb (strings.Contains name hyphen)) with (shortName name).
  apply succeeds_try.
  { apply (addGroupAlias_negative_succeeds g h _ flag fc); [done..|].
    exists name. split; [done|]. split; [done|by left]. }
  intros s1 Hs1. destruct (shortName name) eqn:Hshort;
    [|by apply succeeds_ret].
  apply succeeds_try; [|intros; by apply succeeds_ret].
  apply (addGroupAlias_negative_succeeds g h _ flag fc); [done..|].
  exists name. split; [done|]. split; [done|by right].
Qed.

Lemma addGroupAlias_succeeds g h name flag kind fc s :
  rebuildable g h → rebuilding g h s →
  flag ∈ flagOrder g → h !! flag = Some fc →
  generated g fc name kind → kind ≠ aliasNegative →
  succeeds g h (addGroupAlias name flag kind) s.
Proof.
  intros Hrb Hs Hin Hfc Hgen Hkind.
  destruct (addGroupAlias_body_succeeds g h addNegativeAlias name flag
              kind fc s) as (s' & H); [done..| |].
  { apply (addNegativeAlias_succeeds g h name flag kind fc); [done..|].
    destruct kind; simpl in Hgen; try done; [left; by right|by right]. }
  rewrite <- addGroupAlias_unfold in H. exists s'. split; [done|].
  by apply (addGroupAlias_rebuilding g h name flag kind fc s).
Qed.

Lemma addShortcut_succeeds g h name flag fc s :
  rebuildable g h → rebuilding g h s →
  flag ∈ flagOrder g → h !! flag = Some fc → spelling fc name →
  succeeds g h (addShortcut name flag) s.
Proof.
  intros Hrb Hs Hin Hfc Hsp.
  destruct (since_lookup g h s flag fc) as (FC & HFC & Hcov);
    [apply Hs|done|].
  set (s1 := with_heap s (<[flag := with_autoShortcut FC]> (heap s))).
  assert (rebuilding g h s1) as Hs1.
  { apply (rebuilding_step g h s s1 flag); [done| | | |done].
    - apply evolves_store with FC; [done|apply flag_le_with_autoShortcut].
    - apply heap_covers_insert with FC; [done|apply covers_with_autoShortcut].
    - by intros k Hk. }
  unfold succeeds. rewrite (addShortcut_eq _ _ _ _ HFC). cbn zeta.
  rewrite (synthesizes_covers g (fg s) fc FC name Hcov (proj2 (proj1 Hs))).
  destruct (synthesizes g fc name) eqn:Hsyn; [|by exists s1].
  destruct (rb_words g h Hrb flag fc name Hin Hfc Hsp Hsyn) as [sc Hsc].
  rewrite Hsc. fold s1.
  assert (shortcutFor g fc sc) as Hfor by (by exists name).
  apply succeeds_try.
  - by apply (addGroupAlias_succeeds g h sc flag aliasShortcut fc).
  - intros s2 Hs2.
    apply (addNegativeAlias_succeeds g h sc flag aliasShortcut fc);
      [done..|by right].
Qed.

Lemma ensureFlagAliases_succeeds g h flag es fc s :
  rebuildable g h → rebuilding g h s →
  flag ∈ flagOrder g → h !! flag = Some fc →
  (∀ a, (a, aliasName) ∈ es → (a, aliasName) ∈ entries fc) →
  succeeds g h (ensureFlagAliases flag es) s.
Proof.
  intros Hrb Hs Hin Hfc. revert s Hs.
  induction es as [|[alias kind] es IH]; intros s Hs Hes.
  { by apply succeeds_ret. }
  cbn [ensureFlagAliases]. destruct (decide (kind ≠ aliasName)) as [|Hk].
  { apply IH; [done|]. intros a Ha. apply Hes. by right. }
  assert (kind = aliasName) as ->
    by (destruct (decide (kind = aliasName)); [done|contradiction]).
  assert ((alias, aliasName) ∈ entries fc) as Hal by (apply Hes; left).
  apply succeeds_try.
  { by apply (addGroupAlias_succeeds g h alias flag aliasName fc). }
  intros s1 Hs1. apply succeeds_try.
  { apply (addShortcut_succeeds g h alias flag fc); [done..|by right]. }
  intros s2 Hs2. apply IH; [done|]. intros a Ha. apply Hes. by right.
Qed.

Lemma ensureFlag_succeeds g h flag s :
  rebuildable g h → rebuilding g h s → flag ∈ flagOrder g →
  succeeds g h (ensureFlag flag) s.
Proof.
  intros Hrb Hs Hin. destruct (rb_flags g h Hrb flag Hin) as [fc Hfc].
  destruct (since_lookup g h s flag fc) as (FC & HFC & Hcov);
    [apply Hs|done|].
  unfold ensureFlag.
  apply (succeeds_bind g h _ _ s FC s); [unfold load; by rewrite HFC|].
  rewrite (covers_name _ _ Hcov).
  apply succeeds_try.
  { apply (addShortcut_succeeds g h _ flag fc); [done..|by left]. }
  intros s1 Hs1. apply succeeds_try.
  { apply (addNegativeAlias_succeeds g h _ flag aliasNone fc);
      [done..|left; by left]. }
  intros s2 Hs2.
  destruct (since_lookup g h s2 flag fc) as (FC2 & HFC2 & Hcov2);
    [apply Hs2|done|].
  apply (succeeds_bind g h _ _ s2 FC2 s2); [unfold load; by rewrite HFC2|].
  apply (ensureFlagAliases_succeeds g h flag _ fc); [done..|].
  intros a Ha. apply names_elem_of. rewrite <- (covers_names _ _ Hcov2).
  by apply names_elem_of.
Qed.

Lemma ensureFlags_succeeds g h flags s :
  rebuildable g h → rebuilding g h s →
  (∀ p, p ∈ flags → p ∈ flagOrder g) →
  succeeds g h (ensureFlags flags) s.
Proof.
  intros Hrb. revert s. induction flags as [|flag flags IH]; intros s Hs Hin.
  { by apply succeeds_ret. }
  cbn [ensureFlags]. apply succeeds_try.
  - apply ensureFlag_succeeds; [done..|]. apply Hin. left.
  - intros s1 Hs1. apply IH; [done|]. intros p Hp. apply Hin. by right.
Qed.

(** A build over the declarations of a group that was built with success
    succeeds, in whatever order the flags' own maps are ranged over. *)
Lemma rebuild_succeeds τ :
  rebuildable (fg τ) (heap τ) →
  ∃ τ', resetAliases τ = Returns None τ'.
Proof.
  intros Hrb. rewrite resetAliases_eq.
  destruct (ensureFlags_succeeds (fg τ) (heap τ) (flagOrder (fg τ))
              (with_empty_table τ)) as (τ' & H & _); [done| |done|by exists τ'].
  split; [split; [apply heap_covers_refl|done]|]. split; [done|].
  split; [by eexists|]. intros k Hk.
  unfold live in Hk. by rewrite table_get_empty in Hk.
Qed.

Lemma amap_get_NoDup m k v :
  NoDup m.*1 → (k, v) ∈ m → amap_get m k = Some v.
Proof.
  induction m as [|[k' v'] m IH]; simpl; [by intros _ ?%elem_of_nil|].
  intros [Hk Hm]%NoDup_cons [[= -> ->]|Hin]%elem_of_cons.
  - by rewrite decide_True.
  - rewrite decide_False; [by apply IH|].
    intros ->. apply Hk. apply list_elem_of_fmap. by exists (k, v).
Qed.

Lemma ensureFlags_loads flags s s' :
  ensureFlags flags s = Returns None s' →
  ∀ p, p ∈ flags → is_Some (heap s !! p).
Proof.
  revert s. induction flags as [|flag flags IH]; intros s H p Hp.
  { by apply elem_of_nil in Hp. }
  cbn [ensureFlags] in H.
  apply try_Returns in H as [(e & _ & [=])|(s1 & H1 & H)].
  apply elem_of_cons in Hp as [->|Hp].
  - unfold ensureFlag in H1.
    apply bind_Returns in H1 as (fc & s0 & [Hfc _]%load_Returns & _).
    by exists fc.
  - apply (evolves_heap_Some _ _ p (ensureFlag_evolves _ _ _ _ H1)).
    by apply (IH s1).
Qed.

Lemma ensureAliases_covers σ r σ' :
  ensureAliases σ = Returns r σ' → heap_covers (heap σ) (heap σ').
Proof.
  intros H.
  destruct (ensureAliases_Returns _ _ _ H) as [(_ & _ & ->)|[_ Hrun]].
  - apply heap_covers_refl.
  - apply (steady_ensureFlags _ _ _ _ I Hrun).
Qed.

Lemma ensureAliases_records σ σ' k p kd :
  aliases (fg σ) = None → ensureAliases σ = Returns None σ' →
  registered σ' k p kd → kd ≠ aliasNone →
  ∃ fc', heap σ' !! p = Some fc' ∧ (k, kd) ∈ entries fc'.
Proof.
  intros Ht H Hreg Hkd.
  destruct (ensureAliases_Returns _ _ _ H) as [([t Hsome] & _)|[_ Hrun]].
  { by rewrite Ht in Hsome. }
  destruct (ensureFlags_recorded _ _ _ Hrun k)
    as (p' & kd' & fc' & Hent & Hfc' & Hget).
  { rewrite table_get_empty, Hreg. by intros [=]. }
  unfold registered in Hreg. rewrite Hent in Hreg. injection Hreg as -> ->.
  exists fc'. split; [done|]. by apply amap_get_Some_elem_of.
Qed.

Lemma same_declaration_sym fc fc' :
  same_declaration fc fc' → same_declaration fc' fc.
Proof. intros (? & ? & ? & ?). by repeat split. Qed.

Lemma spelling_reordered fc fc' name :
  same_declaration fc fc' → entries fc ≡ₚ entries fc' →
  spelling fc name → spelling fc' name.
Proof.
  intros (Hn & _) Hperm [->|Hin]; [by left|right]. by rewrite <- Hperm.
Qed.

Lemma synthesizes_reordered g fc fc' name :
  same_declaration fc fc' → synthesizes g fc' name = synthesizes g fc name.
Proof.
  intros (_ & Hs & _ & Hp). unfold synthesizes, autoShortcutOf.
  by rewrite Hs, Hp.
Qed.

(** The flags of a state [τ] that holds the flags of [σ'], built from
    [σ], in another order of their own maps. *)
Lemma rebuilt_flag σ r σ' τ p FC :
  ensureAliases σ = Returns r σ' → reordered (heap σ') (heap τ) →
  heap τ !! p = Some FC →
  ∃ fc fc', heap σ !! p = Some fc ∧ heap σ' !! p = Some fc' ∧
            covers fc fc' ∧ same_declaration fc' FC ∧
            entries fc' ≡ₚ entries FC.
Proof.
  intros H Hre HFC. pose proof (Hre p) as Hp. rewrite HFC in Hp.
  inversion Hp as [fc' ? [Hsame Hperm] Hfc' E|]; subst. symmetry in Hfc'.
  pose proof (ensureAliases_evolves _ _ _ H) as Hev.
  destruct (proj2 (evolves_heap_Some _ _ p Hev)) as [fc Hfc]; [by exists fc'|].
  destruct (heap_covers_lookup _ _ _ _ (ensureAliases_covers _ _ _ H) Hfc)
    as (fc2 & Hfc2 & Hcov).
  rewrite Hfc' in Hfc2. injection Hfc2 as <-.
  by exists fc, fc'.
Qed.

Lemma generated_rebuilt g g' fc fc' FC k kd :
  covers fc fc' → same_declaration fc' FC → entries fc' ≡ₚ entries FC →
  autoShortcut g' = autoShortcut g →
  generated g' FC k kd ↔ generated g fc k kd.
Proof.
  intros Hcov Hsame Hperm Ha.
  rewrite <- (generated_covers g g' fc fc' k kd Hcov Ha). split.
  - apply generated_reordered; [by apply same_declaration_sym|done].
  - by apply generated_reordered.
Qed.

(** The declarations of a group that was built with success, in any
    order of the flags' own maps, admit a rebuild. *)
Lemma built_rebuildable σ σ' τ :
  aliases (fg σ) = None → ensureAliases σ = Returns None σ' →
  long (fg τ) = long (fg σ) → flagOrder (fg τ) = flagOrder (fg σ) →
  autoShortcut (fg τ) = autoShortcut (fg σ) →
  reordered (heap σ') (heap τ) →
  (∀ p fc, heap τ !! p = Some fc → NoDup (entries fc).*1) →
  rebuildable (fg τ) (heap τ).
Proof.
  intros Ht H Hlong Horder Hauto Hre Hnodup.
  assert (∀ p FC k kd, p ∈ flagOrder (fg τ) → heap τ !! p = Some FC →
            generated (fg τ) FC k kd →
            ∃ fc', registered σ' k p kd ∧ heap σ' !! p = Some fc' ∧
                   entries fc' ≡ₚ entries FC) as Hreg.
  { intros p FC k kd Hin HFC Hgen.
    destruct (rebuilt_flag σ None σ' τ p FC H Hre HFC)
      as (fc & fc' & Hfc & Hfc' & Hcov & Hsame & Hperm).
    exists fc'. split; [|done].
    apply (ensureAliases_registers σ σ' p fc); [done..|by rewrite <- Horder| |].
    - done.
    - by apply (generated_rebuilt (fg σ) (fg τ) fc fc' FC). }
  split.
  - intros p Hin. rewrite Horder in Hin.
    destruct (ensureAliases_Returns _ _ _ H) as [([t Hsome] & _)|[_ Hrun]].
    { by rewrite Ht in Hsome. }
    destruct (ensureFlags_loads _ _ _ Hrun p Hin) as [fc Hfc].
    destruct (evolves_flag _ _ _ _ (ensureAliases_evolves _ _ _ H) Hfc)
      as (fc' & Hfc' & _).
    pose proof (Hre p) as Hp. rewrite Hfc' in Hp.
    inversion Hp; by eexists.
  - intros p FC k kd Hin HFC Hgen.
    destruct (Hreg p FC k kd Hin HFC Hgen) as (fc' & Hr & _).
    rewrite Hlong. apply (ensureAliases_sound _ _ Ht H k).
    unfold live. rewrite Hr. by apply (generated_live (fg τ) FC k).
  - intros p FC q FC' k kd kd' Hin HFC Hin' HFC' Hgen Hgen'.
    destruct (Hreg p FC k kd Hin HFC Hgen) as (_ & Hr & _).
    destruct (Hreg q FC' k kd' Hin' HFC' Hgen') as (_ & Hr' & _).
    unfold registered in *. rewrite Hr in Hr'. by injection Hr' as -> ->.
  - intros p FC name Hin HFC Hsp Hsyn.
    destruct (rebuilt_flag σ None σ' τ p FC H Hre HFC)
      as (fc & fc' & Hfc & Hfc' & Hcov & Hsame & Hperm).
    assert (p ∈ flagOrder (fg σ)) as Hinσ by (by rewrite <- Horder).
    pose proof (ensureAliases_ok _ _ Ht H p fc Hinσ Hfc) as Hb.
    destruct (flagBuilt_spelling _ _ _ _ name Hb) as [_ Hs].
    { apply (spelling_covers fc fc'); [done|].
      apply (spelling_reordered FC fc');
        [by apply same_declaration_sym|done|done]. }
    destruct Hs as (sc & Hsc & _); [|by exists sc].
    rewrite <- (synthesizes_covers (fg σ) (fg τ) fc fc' name Hcov Hauto).
    by rewrite <- (synthesizes_reordered (fg τ) fc' FC name Hsame).
  - intros p FC k kd Hin HFC Hgen.
    destruct (Hreg p FC k kd Hin HFC Hgen) as (fc' & Hr & Hfc' & Hperm).
    destruct (ensureAliases_records σ σ' k p kd Ht H Hr) as (fc2 & Hfc2 & Hk).
    { by apply (generated_live (fg τ) FC k). }
    rewrite Hfc' in Hfc2. injection Hfc2 as <-.
    apply amap_get_NoDup; [by apply (Hnodup p)|]. by rewrite <- Hperm.
Qed.

(** The table of the rebuild is that of the build. *)
Lemma rebuilt_table σ σ' τ τ' :
  aliases (fg σ) = None → ensureAliases σ = Returns None σ' →
  flagOrder (fg τ) = flagOrder (fg σ) →
  autoShortcut (fg τ) = autoShortcut (fg σ) →
  reordered (heap σ') (heap τ) →
  resetAliases τ = Returns None τ' →
  ∀ k, table_get (fg τ') k = table_get (fg σ') k.
Proof.
  intros Ht H Horder Hauto Hre Hreset k.
  assert (ensureAliases (cleared τ) = Returns None τ') as Hτ by exact Hreset.
  assert (aliases (fg (cleared τ)) = None) as Ht' by done.
  destruct (decide (alias_kind (table_get (fg σ') k) = aliasNone)) as [Hd|Hl].
  - rewrite (ensureAliases_dead σ σ' k Ht H) by (by intros ?).
    apply (ensureAliases_dead _ τ' k Ht' Hτ). intros Hlive.
    destruct (ensureAliases_generated _ _ Ht' Hτ k Hlive)
      as (p & FC & kd & Hin & HFC & Hent & Hgen).
    destruct (rebuilt_flag σ None σ' τ p FC H Hre HFC)
      as (fc & fc' & Hfc & Hfc' & Hcov & Hsame & Hperm).
    assert (registered σ' k p kd) as Hreg.
    { apply (ensureAliases_registers σ σ' p fc); [done..| |done|].
      - cbn in Hin. by rewrite <- Horder.
      - by apply (generated_rebuilt (fg σ) (fg (cleared τ)) fc fc' FC). }
    unfold registered in Hreg. rewrite Hreg in Hd. simpl in Hd.
    by apply (generated_live _ _ _ _ Hgen).
  - destruct (ensureAliases_generated _ _ Ht H k Hl)
      as (p & fc & kd & Hin & Hfc & Hent & Hgen).
    rewrite Hent.
    destruct (evolves_flag _ _ _ _ (ensureAliases_evolves _ _ _ H) Hfc)
      as (fc' & Hfc' & _).
    pose proof (Hre p) as Hp. rewrite Hfc' in Hp.
    inversion Hp as [? FC [Hsame Hperm] E HFC|]; subst. symmetry in HFC.
    destruct (rebuilt_flag σ None σ' τ p FC H Hre HFC)
      as (fc0 & fc1 & Hfc0 & Hfc1 & Hcov & Hsame1 & Hperm1).
    rewrite Hfc in Hfc0. injection Hfc0 as <-.
    apply (ensureAliases_registers (cleared τ) τ' p FC); [done..| |done|].
    + cbn. by rewrite Horder.
    + by apply (generated_rebuilt (fg σ) (fg (cleared τ)) fc fc1 FC).
Qed.

(** C7. [ensureAliases] on a group whose table is built returns no error
    and leaves the state as it is; so it does after any [ensureAliases]
    that returned. [resetAliases] clears the table and runs the build
    over the declarations as they are. After a build that succeeded, it
    succeeds again and makes the same table, whatever order the ranges
    over the flags' own maps take this time: on every state [τ] with the
    long names, the flag order and the setting of the group that holds
    the flags the build left, their own maps in any order, it returns no
    error, and every spelling reads the same in the table it leaves and
    resolves to the same flag with the same invert signal. *)
Theorem resetAliases_rebuilds (σ σ' τ : state) :
  aliases (fg σ) = None → ensureAliases σ = Returns None σ' →
  long (fg τ) = long (fg σ) → flagOrder (fg τ) = flagOrder (fg σ) →
  autoShortcut (fg τ) = autoShortcut (fg σ) →
  reordered (heap σ') (heap τ) →
  (∀ p fc, heap τ !! p = Some fc → NoDup (entries fc).*1) →
  (∀ s, is_Some (aliases (fg s)) → ensureAliases s = Returns None s) ∧
  (∀ s r s', ensureAliases s = Returns r s' →
             ensureAliases s' = Returns None s') ∧
  (∀ s, resetAliases s = ensureAliases (cleared s)) ∧
  ∃ τ', resetAliases τ = Returns None τ' ∧
        (∀ k, table_get (fg τ') k = table_get (fg σ') k) ∧
        long (fg τ') = long (fg σ') ∧
        flagOrder (fg τ') = flagOrder (fg σ') ∧
        autoShortcut (fg τ') = autoShortcut (fg σ') ∧
        ∀ name, ∃ r, getFlagAlias name σ' = Returns r σ' ∧
                     getFlagAlias name τ' = Returns r τ'.
Proof.
  intros Ht H Hlong Horder Hauto Hre Hnodup.
  assert (Hidem : ∀ s, is_Some (aliases (fg s)) →
                       ensureAliases s = Returns None s).
  { intros s [t Hs]. unfold ensureAliases, bind, group. by rewrite Hs. }
  split; [done|]. split.
  { intros s r s' Hs. by apply Hidem, (ensureAliases_built s r). }
  split; [done|].
  destruct (rebuild_succeeds τ) as (τ' & Hreset).
  { by apply (built_rebuildable σ σ'). }
  exists τ'. split; [done|].
  pose proof (rebuilt_table σ σ' τ τ' Ht H Horder Hauto Hre Hreset) as Htab.
  assert (ensureAliases (cleared τ) = Returns None τ') as Hτ by exact Hreset.
  pose proof (ensureAliases_evolves _ _ _ H) as Hev.
  pose proof (ensureAliases_evolves _ _ _ Hτ) as Hev'.
  assert (long (fg τ') = long (fg σ')) as Hl
    by (by rewrite (ev_long _ _ Hev'), (ev_long _ _ Hev)).
  split; [done|]. split; [done|].
  split; [by rewrite (ev_order _ _ Hev'), (ev_order _ _ Hev)|].
  split; [by rewrite (ev_auto _ _ Hev'), (ev_auto _ _ Hev)|].
  intros name. eexists. split.
  - apply getFlagAlias_eq, Hidem. by apply (ensureAliases_built σ None).
  - rewrite (getFlagAlias_eq τ' τ' name)
      by (by apply Hidem, (ensureAliases_built (cleared τ) None)).
    by rewrite Hl, Htab.
Qed.

Lemma resetAliases_rebuilds_witness :
  ∃ τ', resetAliases toolGroupAgain = Returns None τ' ∧
        table_get (fg τ') "nl" = table_get (fg toolGroupBuilt) "nl".
Proof.
  destruct (resetAliases_rebuilds toolGroup toolGroupBuilt toolGroupAgain)
    as (_ & _ & _ & τ' & Hreset & Htab & _).
  - reflexivity.
  - exact toolGroup_builds.
  - vm_compute. reflexivity.
  - vm_compute. reflexivity.
  - vm_compute. reflexivity.
  - assert (heap toolGroupBuilt
            = <[0%nat := mkFlag "verbose" 0 (boolFlagValue true) ptrGroup
                  (Some [("loud", aliasName); ("no-v", aliasNegative);
                         ("nv", aliasNegative); ("v", aliasShortcut);
                         ("no-verbose", aliasNegative);
                         ("no-loud", aliasNegative); ("no-l", aliasNegative);
                         ("nl", aliasNegative); ("l", aliasShortcut)])]>
                (<[1%nat := mkFlag "dry-run" 0 (boolFlagValue true) ptrGroup
                     (Some [("no-dr", aliasNegative); ("ndr", aliasNegative);
                            ("dr", aliasShortcut);
                            ("no-dry-run", aliasNegative)])]>
                   (<[2%nat := outputFlag]> ∅))) as ->
      by (vm_compute; reflexivity).
    intros p. cbn [toolGroupAgain heap].
    destruct (decide (p = 0%nat)) as [->|H0].
    { rewrite !lookup_insert_eq. constructor. split; [by repeat split|].
      apply (reverse_Permutation
               [("l", aliasShortcut); ("nl", aliasNegative);
                ("no-l", aliasNegative); ("no-loud", aliasNegative);
                ("no-verbose", aliasNegative); ("v", aliasShortcut);
                ("nv", aliasNegative); ("no-v", aliasNegative);
                ("loud", aliasName)]). }
    rewrite !(lookup_insert_ne _ 0%nat) by done.
    destruct (decide (p = 1%nat)) as [->|H1].
    { rewrite !lookup_insert_eq. constructor. split; [by repeat split|].
      apply (reverse_Permutation
               [("no-dry-run", aliasNegative); ("dr", aliasShortcut);
                ("ndr", aliasNegative); ("no-dr", aliasNegative)]). }
    rewrite !(lookup_insert_ne _ 1%nat) by done.
    destruct (decide (p = 2%nat)) as [->|H2].
    { rewrite !lookup_insert_eq. constructor. by repeat split. }
    rewrite !(lookup_insert_ne _ 2%nat) by done. rewrite !lookup_empty.
    constructor.
  - intros p fc Hp. cbn [toolGroupAgain heap] in Hp.
    apply lookup_insert_Some in Hp as [[_ <-]|[_ Hp]].
    { apply (bool_decide_unpack _). vm_compute. exact I. }
    apply lookup_insert_Some in Hp as [[_ <-]|[_ Hp]].
    { apply (bool_decide_unpack _). vm_compute. exact I. }
    apply lookup_insert_Some in Hp as [[_ <-]|[_ Hp]].
    { constructor. }
    by rewrite lookup_empty in Hp.
  - exists τ'. split; [exact Hreset|apply Htab].
Defined.

(** A rebuild after a build that failed need not return the error of the
    build, nor leave its table: the fresh build of [orderGroup] fails
    when the shortcut [ab] of the alias [a-b] meets the flag's own entry
    for the alias [ab]; with the own map ranged over in the other order,
    [resetAliases] fails on another conflict and leaves another table. *)
Lemma rebuild_depends_on_range_order :
  aliases (fg orderGroup) = None ∧
  ensureAliases orderGroup
  = Returns (Some "Unable to add alias ab to verbose: Alias ab already exist")
      orderGroupFailed ∧
  fg orderGroupAgain = fg orderGroupFailed ∧
  heap orderGroupFailed !! 0%nat
  = Some (mkFlag "verbose" 0 (boolFlagValue true) ptrGroup
            (Some [("a-b", aliasName); ("ab", aliasName);
                   ("no-v", aliasNegative); ("nv", aliasNegative);
                   ("v", aliasShortcut); ("no-verbose", aliasNegative);
                   ("no-a-b", aliasNegative); ("no-ab", aliasNegative);
                   ("nab", aliasNegative)])) ∧
  reordered (heap orderGroupFailed) (heap orderGroupAgain) ∧
  table_get (fg orderGroupFailed) "ab" = mkAlias (Some 0%nat) aliasShortcut ∧
  table_get (fg orderGroupFailed) "a" = zeroAlias ∧
  ∃ τ', resetAliases orderGroupAgain
        = Returns
            (Some "Alias ab on verbose is already associated to flag verbose")
            τ' ∧
        table_get (fg τ') "ab" = mkAlias (Some 0%nat) aliasName ∧
        table_get (fg τ') "a" = mkAlias (Some 0%nat) aliasShortcut.
Proof.
  split; [reflexivity|]. split; [vm_compute; reflexivity|].
  split; [reflexivity|]. split; [vm_compute; reflexivity|]. split.
  { assert (heap orderGroupFailed
            = <[0%nat := mkFlag "verbose" 0 (boolFlagValue true) ptrGroup
                  (Some [("a-b", aliasName); ("ab", aliasName);
                         ("no-v", aliasNegative); ("nv", aliasNegative);
                         ("v", aliasShortcut); ("no-verbose", aliasNegative);
                         ("no-a-b", aliasNegative); ("no-ab", aliasNegative);
                         ("nab", aliasNegative)])]> ∅) as ->
      by (vm_compute; reflexivity).
    intros p. cbn [orderGroupAgain heap].
    destruct (decide (p = 0%nat)) as [->|H0].
    - rewrite !lookup_insert_eq. constructor. split; [by repeat split|].
      apply perm_swap.
    - rewrite !lookup_insert_ne by done. rewrite !lookup_empty. constructor. }
  split; [vm_compute; reflexivity|]. split; [vm_compute; reflexivity|].
  eexists. split; [vm_compute; reflexivity|].
  split; vm_compute; reflexivity.
Qed.

(** C2. For a switch of the group, a build that succeeds registers the
    negative alias ["no-" + name] of its long name, of each declared
    alias and, when a shortcut applies to the name, of the shortcut; it
    registers ["n" + name] for each of these names that has at most
    three bytes and no hyphen, the shortcut included. The registration
    of the negative forms of a name leaves the spelling ["n" + name]
    untouched when the name is longer or has a hyphen, and the table
    holds no other negative entries for the flag than these forms. Every
    negative entry of the built table belongs to a switch: a flag that
    is no switch has none. *)
Theorem negative_aliases_of_switches (σ σ' : state) (flag : loc)
    (fc : FlagClause) :
  aliases (fg σ) = None → ensureAliases σ = Returns None σ' →
  flag ∈ flagOrder (fg σ) → heap σ !! flag = Some fc →
  (isSwitchValue (flag_value fc) = true →
   registered σ' ("no-" +:+ flag_name fc) flag aliasNegative ∧
   ((String.length (flag_name fc) ≤ 3)%nat →
    strings.Contains (flag_name fc) hyphen = false →
    registered σ' ("n" +:+ flag_name fc) flag aliasNegative) ∧
   (synthesizes (fg σ) fc (flag_name fc) = true →
    ∃ sc, shortcutOf (strings.Split (flag_name fc) hyphen) = Some sc ∧
          registered σ' ("no-" +:+ sc) flag aliasNegative ∧
          ((String.length sc ≤ 3)%nat →
           strings.Contains sc hyphen = false →
           registered σ' ("n" +:+ sc) flag aliasNegative)) ∧
   (∀ alias, (alias, aliasName) ∈ entries fc →
      registered σ' ("no-" +:+ alias) flag aliasNegative ∧
      ((String.length alias ≤ 3)%nat →
       strings.Contains alias hyphen = false →
       registered σ' ("n" +:+ alias) flag aliasNegative))) ∧
  (∀ name s kind r s',
     addNegativeAlias name flag kind s = Returns r s' →
     ¬ ((String.length name ≤ 3)%nat ∧
        strings.Contains name hyphen = false) →
     table_get (fg s') ("n" +:+ name) = table_get (fg s) ("n" +:+ name)) ∧
  (∀ k, registered σ' k flag aliasNegative →
        isSwitchValue (flag_value fc) = true ∧
        ∃ base, (spelling fc base ∨ shortcutFor (fg σ) fc base) ∧
                (k = "no-" +:+ base ∨
                 (k = "n" +:+ base ∧ (String.length base ≤ 3)%nat ∧
                  strings.Contains base hyphen = false))) ∧
  (∀ k p, table_get (fg σ') k = mkAlias p aliasNegative →
          ∃ q, p = Some q ∧ isSwitch σ q) ∧
  (isSwitchValue (flag_value fc) = false →
   ∀ k, ¬ registered σ' k flag aliasNegative).
Proof.
  intros Ht H Hin Hfc.
  destruct (ensureAliases_ok _ _ Ht H flag fc Hin Hfc) as [[Hneg Hsc] Hal].
  assert (Hsound : ∀ k p, table_get (fg σ') k = mkAlias p aliasNegative →
                          ∃ q, p = Some q ∧ isSwitch σ q).
  { intros k p Hent.
    destruct (ensureAliases_sound _ _ Ht H k) as (_ & q & kd & Hq & _ & _ & Hs).
    { unfold live. by rewrite Hent. }
    rewrite Hent in Hq. injection Hq as -> <-. exists q. auto. }
  split; [|split; [|split; [|split]]].
  - intros Hsw. destruct (Hneg Hsw) as [Hno Hn]. split; [done|].
    split; [|split].
    + intros Hlen Hhy. apply Hn. by apply shortName_spec.
    + intros Hsyn. destruct (Hsc Hsyn) as (sc & Hs & _ & Hn').
      exists sc. split; [done|]. destruct (Hn' Hsw) as [Hnosc Hnsc].
      split; [done|]. intros Hlen Hhy. apply Hnsc. by apply shortName_spec.
    + intros alias Ha. destruct (Hal alias Ha) as [_ [Hna _]].
      destruct (Hna Hsw) as [Hno' Hn']. split; [done|].
      intros Hlen Hhy. apply Hn'. by apply shortName_spec.
  - intros name s kind r s' Hadd Hlong.
    apply (addNegativeAlias_long _ _ _ _ _ _ Hadd).
    destruct (shortName name) eqn:E; [|done].
    by apply shortName_spec in E.
  - intros k Hreg.
    destruct (ensureAliases_generated _ _ Ht H k)
      as (p & fc' & kd & _ & Hfc' & Hent & Hgen).
    { unfold live. by rewrite Hreg. }
    unfold registered in Hreg. rewrite Hent in Hreg. injection Hreg as -> ->.
    rewrite Hfc in Hfc'. injection Hfc' as <-.
    destruct Hgen as (base & Hbase & Hsw & Hform). split; [done|].
    exists base. split; [done|].
    destruct Hform as [->|[-> Hshort%shortName_spec]]; [by left|by right].
  - done.
  - intros Hsw k Hreg. destruct (Hsound k _ Hreg) as (q & [= <-] & fc' & Hq & Hs).
    congruence.
Qed.

Lemma negative_aliases_of_switches_witness :
  registered toolGroupBuilt "no-dry-run" 1%nat aliasNegative ∧
  registered toolGroupBuilt "no-dr" 1%nat aliasNegative ∧
  registered toolGroupBuilt "ndr" 1%nat aliasNegative.
Proof.
  destruct (negative_aliases_of_switches toolGroup toolGroupBuilt 1%nat
              dryRunFlag) as [Hsw _].
  - reflexivity.
  - exact toolGroup_builds.
  - right; left.
  - reflexivity.
  - destruct (Hsw eq_refl) as (Hno & _ & Hsc & _). split; [exact Hno|].
    destruct (Hsc eq_refl) as (sc & Hs & Hr & Hn).
    injection Hs as <-. split; [exact Hr|].
    apply Hn; [vm_compute; lia|reflexivity].
Defined.
